(** * Verification of [scripts/generate-brand-assets.py]

    A shallow embedding of the brand-asset generator: the size tables, the
    three writers ([render_png], [render_ico], [write_favicon_svg]), the
    path resolver and the orchestrating [main].  The program is stateful
    (it reads and writes files and prints), so its functions are written in
    a small state-and-exception monad over a model of the file system.

    The library calls the program makes ([re], [pathlib], [shutil], text
    I/O) are modelled on a POSIX host; the two rendering packages are
    records of functions handed to the program, as in the source, where
    [cairosvg] and [Image] are parameters of the writers. *)

From Stdlib Require Import ZArith NArith Ascii String List Lia.
From Stdlib Require Import DecimalString.
From stdpp Require Import base option list strings gmap fin_maps.

Local Open Scope N_scope.

(* ===================================================================== *)
(** ** Text: Python [bytes] and [str]                                     *)
(* ===================================================================== *)

(** A file holds bytes; a Python [str] is a sequence of Unicode code
    points. *)
Abbreviation bytes := (list ascii).
Abbreviation str := (list N).

Definition dquote : ascii := "034"%char.
Definition backslash : ascii := "092"%char.

Definition bytes_of_string (s : string) : bytes := list_ascii_of_string s.

(** An ASCII literal of the source, as a [str]. *)
Definition str_of_string (s : string) : str :=
  map N_of_ascii (list_ascii_of_string s).

Module Utf8.

Definition is_cont (b : N) : bool := (128 <=? b) && (b <=? 191).

Definition is_surrogate (cp : N) : bool := (55296 <=? cp) && (cp <=? 57343).

(** The strict decoder of Python's ["utf-8"] codec: overlong forms,
    surrogates, code points above U+10FFFF and truncated sequences are
    errors ([None] stands for [UnicodeDecodeError]). *)
Fixpoint decode_N (bs : list N) : option str :=
  match bs with
  | [] => Some []
  | b0 :: r0 =>
    if b0 <? 128 then cons b0 <$> decode_N r0
    else if (194 <=? b0) && (b0 <=? 223) then
      match r0 with
      | b1 :: r1 =>
        if is_cont b1
        then cons ((b0 - 192) * 64 + (b1 - 128)) <$> decode_N r1
        else None
      | _ => None
      end
    else if (224 <=? b0) && (b0 <=? 239) then
      match r0 with
      | b1 :: b2 :: r2 =>
        let cp := (b0 - 224) * 4096 + (b1 - 128) * 64 + (b2 - 128) in
        if is_cont b1 && is_cont b2 && (2048 <=? cp) && negb (is_surrogate cp)
        then cons cp <$> decode_N r2
        else None
      | _ => None
      end
    else if (240 <=? b0) && (b0 <=? 244) then
      match r0 with
      | b1 :: b2 :: b3 :: r3 =>
        let cp := (b0 - 240) * 262144 + (b1 - 128) * 4096
                  + (b2 - 128) * 64 + (b3 - 128) in
        if is_cont b1 && is_cont b2 && is_cont b3
           && (65536 <=? cp) && (cp <=? 1114111)
        then cons cp <$> decode_N r3
        else None
      | _ => None
      end
    else None
  end.

Definition decode (bs : bytes) : option str := decode_N (map N_of_ascii bs).

(** The encoder; a surrogate or an out-of-range code point is an error
    ([UnicodeEncodeError]). *)
Definition encode_cp (cp : N) : option bytes :=
  if cp <? 128 then Some [ascii_of_N cp]
  else if cp <? 2048 then
    Some [ascii_of_N (192 + cp / 64); ascii_of_N (128 + cp mod 64)]
  else if cp <? 65536 then
    if is_surrogate cp then None
    else Some [ascii_of_N (224 + cp / 4096);
               ascii_of_N (128 + (cp / 64) mod 64);
               ascii_of_N (128 + cp mod 64)]
  else if cp <=? 1114111 then
    Some [ascii_of_N (240 + cp / 262144);
          ascii_of_N (128 + (cp / 4096) mod 64);
          ascii_of_N (128 + (cp / 64) mod 64);
          ascii_of_N (128 + cp mod 64)]
  else None.

Fixpoint encode (s : str) : option bytes :=
  match s with
  | [] => Some []
  | cp :: rest =>
    match encode_cp cp, encode rest with
    | Some b, Some bs => Some (b ++ bs)
    | _, _ => None
    end
  end.

End Utf8.

(** Text mode with the default [newline=None]: on reading, ["\r\n"] and a
    lone ["\r"] become ["\n"]; on writing on POSIX nothing is translated. *)
Fixpoint universal_newlines (s : str) : str :=
  match s with
  | [] => []
  | c :: rest =>
    if c =? 13 then
      match rest with
      | c' :: rest' =>
        if c' =? 10 then 10 :: universal_newlines rest'
        else 10 :: universal_newlines rest
      | [] => [10]
      end
    else c :: universal_newlines rest
  end.

(** [f"{size}"] for a Python [int]. *)
Definition format_int (n : Z) : string := NilZero.string_of_int (Z.to_int n).

(** [s.endswith(suffix)], [s[:-k]] and [s[i:]] on a [str]. *)
Fixpoint startswith (prefix s : str) : bool :=
  match prefix, s with
  | [], _ => true
  | p :: prefix', c :: s' => (p =? c) && startswith prefix' s'
  | _ :: _, [] => false
  end.

Definition endswith (s suffix : str) : bool :=
  startswith (rev suffix) (rev s).

Definition drop_last (k : nat) (s : str) : str := take (length s - k)%nat s.

(* ===================================================================== *)
(** ** The fragment of [re] the program uses                              *)
(* ===================================================================== *)

Module Re.

(** A character class: a literal (with its case variants when the
    pattern is compiled with [IGNORECASE]) or a negated set [[^c]]. *)
Inductive cclass :=
| OneOf (cs : list N)
| NoneOf (cs : list N).

Definition in_class (k : cclass) (c : N) : bool :=
  match k with
  | OneOf cs => existsb (N.eqb c) cs
  | NoneOf cs => negb (existsb (N.eqb c) cs)
  end.

Inductive item :=
| One (k : cclass)
| Star (k : cclass).

Abbreviation pattern := (list item).

(** *** Reading a pattern *)

Inductive token :=
| TChar (c : ascii)
| TNot (c : ascii)
| TStar.

Definition is_special (a : ascii) : bool :=
  existsb (Ascii.eqb a)
    ["."; "^"; "$"; "+"; "?"; "{"; "}"; "("; ")"; "|"; "]"]%char.

(** In a pattern, a backslash followed by a backslash stands for one
    literal backslash; any other escape is outside the fragment. *)
Fixpoint tokens (p : list ascii) : option (list token) :=
  match p with
  | [] => Some []
  | a :: r =>
    if Ascii.eqb a backslash then
      match r with
      | b :: r' =>
        if Ascii.eqb b backslash then cons (TChar backslash) <$> tokens r'
        else None
      | [] => None
      end
    else if Ascii.eqb a "["%char then
      match r with
      | h :: c :: k :: r' =>
        if Ascii.eqb h "^"%char && Ascii.eqb k "]"%char
           && negb (Ascii.eqb c backslash) && negb (Ascii.eqb c "]"%char)
        then cons (TNot c) <$> tokens r'
        else None
      | _ => None
      end
    else if Ascii.eqb a "*"%char then cons TStar <$> tokens r
    else if is_special a then None
    else cons (TChar a) <$> tokens r
  end.

(** The characters that match an ASCII character of the pattern under
    [IGNORECASE] on a [str] pattern: both cases of a letter, and the
    three non-ASCII characters Python adds (dotted capital and dotless
    small i for [i], the Kelvin sign for [k], the long s for [s]). *)
Definition extra_variants (lower : N) : list N :=
  if lower =? 105 then [304; 305]
  else if lower =? 107 then [8490]
  else if lower =? 115 then [383]
  else [].

Definition case_variants (c : N) : list N :=
  if (97 <=? c) && (c <=? 122) then c :: (c - 32) :: extra_variants c
  else if (65 <=? c) && (c <=? 90) then (c + 32) :: c :: extra_variants (c + 32)
  else [c].

Definition chars_of (ignorecase : bool) (a : ascii) : list N :=
  if ignorecase then case_variants (N_of_ascii a) else [N_of_ascii a].

Definition class_of (ignorecase : bool) (t : token) : option cclass :=
  match t with
  | TChar a => Some (OneOf (chars_of ignorecase a))
  | TNot a => Some (NoneOf (chars_of ignorecase a))
  | TStar => None
  end.

Fixpoint items (ignorecase : bool) (ts : list token) : option pattern :=
  match ts with
  | [] => Some []
  | t :: r =>
    match class_of ignorecase t with
    | None => None
    | Some k =>
      match r with
      | TStar :: r' => cons (Star k) <$> items ignorecase r'
      | _ => cons (One k) <$> items ignorecase r
      end
    end
  end.

(** [re.compile(p, flags)]; [None] stands for a pattern outside the
    fragment. *)
Definition compile (ignorecase : bool) (p : string) : option pattern :=
  tokens (list_ascii_of_string p) ≫= items ignorecase.

(** *** Matching *)

(** The length of the match of [p] at the head of the subject, found by
    backtracking with greedy stars. *)
Fixpoint match_here (p : pattern) : str -> option nat :=
  match p with
  | [] => fun _ => Some O
  | One k :: p' => fun s =>
    match s with
    | c :: s' => if in_class k c then S <$> match_here p' s' else None
    | [] => None
    end
  | Star k :: p' =>
    fix star (s : str) : option nat :=
      match s with
      | c :: s' =>
        if in_class k c then
          match star s' with
          | Some n => Some (S n)
          | None => match_here p' s
          end
        else match_here p' s
      | [] => match_here p' []
      end
  end.

(** The leftmost match at or after the head of the subject, as
    ([m.start()], [m.end()]), the head being at index [pos]. *)
Fixpoint search_from (p : pattern) (s : str) (pos : nat) : option (nat * nat) :=
  match match_here p s with
  | Some n => Some (pos, (pos + n)%nat)
  | None =>
    match s with
    | [] => None
    | _ :: s' => search_from p s' (S pos)
    end
  end.

(** [re.sub] with a replacement that holds no backslash: every
    non-overlapping match, left to right, is replaced.  [skip] counts the
    characters of the current match still to be dropped. *)
Fixpoint sub_from (p : pattern) (repl : str) (s : str) (skip : nat) : str :=
  match skip with
  | S k =>
    match s with
    | [] => []
    | _ :: s' => sub_from p repl s' k
    end
  | O =>
    match match_here p s with
    | Some (S n) =>
      repl ++ match s with
              | [] => []
              | _ :: s' => sub_from p repl s' n
              end
    | Some O =>
      repl ++ match s with
              | [] => []
              | c :: s' => c :: sub_from p repl s' O
              end
    | None =>
      match s with
      | [] => []
      | c :: s' => c :: sub_from p repl s' O
      end
    end
  end.

(** [re.search(p, s, flags)]: the outer [None] is a pattern that does not
    compile, the inner one is "no match". *)
Definition search (ignorecase : bool) (p : string) (s : str)
  : option (option (nat * nat)) :=
  (fun r => search_from r s O) <$> compile ignorecase p.

(** [re.sub(p, repl, s)]. *)
Definition sub (p : string) (repl : str) (s : str) : option str :=
  (fun r => sub_from r repl s O) <$> compile false p.

End Re.

(** [s[b:e]] for [0 <= b <= e]. *)
Definition slice (b e : nat) (s : str) : str := take (e - b) (drop b s).


(* ===================================================================== *)
(** ** [pathlib] on POSIX                                                 *)
(* ===================================================================== *)

(** A path is the tuple of its [parts]: [Path("/a/b").parts] is
    [("/", "a", "b")], [Path("a/b").parts] is [("a", "b")] and
    [Path(".").parts] is empty. *)
Abbreviation Path := (list string).

Module Pathlib.

Definition slash : ascii := "/"%char.

(** The pieces of a string between its slashes. *)
Fixpoint pieces (s : string) (cur : string) : list string :=
  match s with
  | EmptyString => [cur]
  | String a s' =>
    if Ascii.eqb a slash then cur :: pieces s' EmptyString
    else pieces s' (cur +:+ String a EmptyString)
  end.

(** Exactly two leading slashes are kept as the root ["//"], one or
    three and more give ["/"]. *)
Definition anchor (s : string) : list string :=
  match s with
  | String a (String b (String c _)) =>
    if Ascii.eqb a slash then
      if Ascii.eqb b slash && negb (Ascii.eqb c slash) then ["//"%string]
      else ["/"%string]
    else []
  | String a (String b EmptyString) =>
    if Ascii.eqb a slash then
      if Ascii.eqb b slash then ["//"%string] else ["/"%string]
    else []
  | String a EmptyString => if Ascii.eqb a slash then ["/"%string] else []
  | EmptyString => []
  end.

Definition is_name (c : string) : bool :=
  negb (String.eqb c EmptyString) && negb (String.eqb c ".").

(** [Path(s)]: empty pieces and ["."] pieces are dropped, [".."] is
    kept. *)
Definition of_string (s : string) : Path :=
  anchor s ++ List.filter is_name (pieces s EmptyString).

Definition is_anchor (c : string) : bool :=
  String.eqb c "/" || String.eqb c "//".

Definition is_absolute (p : Path) : bool :=
  match p with
  | a :: _ => is_anchor a
  | [] => false
  end.

(** [p / s] for a string [s]: an absolute right operand replaces the
    left one. *)
Definition joinpath (p : Path) (s : string) : Path :=
  let r := of_string s in
  if is_absolute r then r else p ++ r.

(** [p.parent]: the root and the empty path are their own parents. *)
Definition parent (p : Path) : Path :=
  match p with
  | [a] => if is_anchor a then p else []
  | _ => removelast p
  end.

Fixpoint join_names (l : list string) : string :=
  match l with
  | [] => EmptyString
  | [c] => c
  | c :: r => c +:+ "/" +:+ join_names r
  end.

(** [str(p)]. *)
Definition to_string (p : Path) : string :=
  match p with
  | [] => "."
  | a :: r => if is_anchor a then a +:+ join_names r else join_names p
  end.

End Pathlib.

Notation "p // s" := (Pathlib.joinpath p s) (at level 40, left associativity).

(* ===================================================================== *)
(** ** The world the program runs in                                      *)
(* ===================================================================== *)

Inductive node :=
| File (content : bytes)
| Dir.

(** A request made to one of the two rendering packages. *)
Inductive call :=
| Svg2png (url : Path) (write_to : option Path) (output_width output_height : Z)
| SaveIco (fp : Path) (sizes : list (Z * Z)) (appended : nat).

(** The file system maps the paths the program names to what is there;
    links and [..] are outside the model. *)
Record World := mkWorld {
  fs : gmap Path node;
  stdout : list string;
  stderr : list string;
  calls : list call;
}.

Definition with_fs (w : World) (m : gmap Path node) : World :=
  {| fs := m; stdout := stdout w; stderr := stderr w; calls := calls w |}.

Inductive exn :=
| FileNotFoundError
| NotADirectoryError
| IsADirectoryError
| FileExistsError
| SameFileError
| UnicodeDecodeError
| UnicodeEncodeError
| IndexError
| ReError
| ConversionError
| ImageError
| SystemExit (code : Z).

Inductive outcome (A : Type) :=
| Ok (a : A)
| Raised (e : exn).
Arguments Ok {A} a.
Arguments Raised {A} e.

(** A computation threads the world and may raise; what it did before
    raising stays done. *)
Definition M (A : Type) : Type := World -> outcome A * World.

#[global] Instance M_ret : MRet M := fun A a w => (Ok a, w).

#[global] Instance M_bind : MBind M := fun A B f m w =>
  match m w with
  | (Ok a, w') => f a w'
  | (Raised e, w') => (Raised e, w')
  end.

Definition raise {A} (e : exn) : M A := fun w => (Raised e, w).

Notation "m1 ;; m2" := (m1 ≫= (fun _ => m2))
  (at level 100, m2 at level 200, right associativity, only parsing).

(** [for x in l: acc = body(acc, x)]. *)
Fixpoint for_each {A B} (l : list A) (acc : B) (body : B -> A -> M B) : M B :=
  match l with
  | [] => mret acc
  | x :: l' => acc' ← body acc x; for_each l' acc' body
  end.

Definition print (line : string) : M unit := fun w =>
  (Ok tt, {| fs := fs w; stdout := stdout w ++ [line];
             stderr := stderr w; calls := calls w |}).

Definition print_err (line : string) : M unit := fun w =>
  (Ok tt, {| fs := fs w; stdout := stdout w;
             stderr := stderr w ++ [line]; calls := calls w |}).

Definition record (c : call) : M unit := fun w =>
  (Ok tt, {| fs := fs w; stdout := stdout w;
             stderr := stderr w; calls := calls w ++ [c] |}).

(** *** Files and directories *)

(** The working directory and the root are always there. *)
Definition lookup_node (m : gmap Path node) (p : Path) : option node :=
  match p with
  | [] => Some Dir
  | [a] => if Pathlib.is_anchor a then Some Dir else m !! p
  | _ => m !! p
  end.

(** [p.exists()], for a path the system can look up: a name that is too
    long, or a directory that may not be searched, makes [pathlib] raise
    [OSError] instead; neither is part of this file system. *)
Definition exists_ (p : Path) : M bool := fun w =>
  (Ok (bool_decide (is_Some (lookup_node (fs w) p))), w).

(** [open(p, "rb").read()]. *)
Definition read_bytes (p : Path) : M bytes := fun w =>
  match lookup_node (fs w) p with
  | Some (File b) => (Ok b, w)
  | Some Dir => (Raised IsADirectoryError, w)
  | None => (Raised FileNotFoundError, w)
  end.

(** [open(p, "wb")] followed by writing [b]: the directory of [p] must be
    there and [p] must not be a directory; the file is created or
    replaced. *)
Definition write_bytes (p : Path) (b : bytes) : M unit := fun w =>
  match lookup_node (fs w) p with
  | Some Dir => (Raised IsADirectoryError, w)
  | _ =>
    match lookup_node (fs w) (Pathlib.parent p) with
    | Some Dir => (Ok tt, with_fs w (<[p := File b]> (fs w)))
    | Some (File _) => (Raised NotADirectoryError, w)
    | None => (Raised FileNotFoundError, w)
    end
  end.

(** [os.remove(p)], errors ignored. *)
Definition remove (p : Path) : M unit := fun w =>
  (Ok tt, with_fs w (delete p (fs w))).

(** The leading segments of a path, shortest first, the path itself
    last. *)
Fixpoint prefixes (p : Path) : list Path :=
  match p with
  | [] => [[]]
  | c :: r => [] :: map (cons c) (prefixes r)
  end.

(** One step of [mkdir(parents=True, exist_ok=True)]: a directory that is
    there is kept, a missing one is made, a file in the way is an error
    ([FileExistsError] for the path itself, [NotADirectoryError] for one
    of its ancestors). *)
Definition mkdir_step (target : Path) (acc : unit) (d : Path) : M unit := fun w =>
  match lookup_node (fs w) d with
  | Some Dir => (Ok tt, w)
  | Some (File _) =>
    (Raised (if bool_decide (d = target) then FileExistsError
             else NotADirectoryError), w)
  | None => (Ok tt, with_fs w (<[d := Dir]> (fs w)))
  end.

(** [p.mkdir(parents=True, exist_ok=True)]. *)
Definition mkdir_parents (p : Path) : M unit :=
  for_each (prefixes p) tt (mkdir_step p).

(** [p.read_text(encoding="utf-8")]. *)
Definition read_text (p : Path) : M str :=
  b ← read_bytes p;
  match Utf8.decode b with
  | Some s => mret (universal_newlines s)
  | None => raise UnicodeDecodeError
  end.

(** [p.write_text(s, encoding="utf-8")]: the file is opened, and so
    emptied, before the text is encoded. *)
Definition write_text (p : Path) (s : str) : M unit :=
  write_bytes p [];;
  match Utf8.encode s with
  | Some b => write_bytes p b
  | None => raise UnicodeEncodeError
  end.

(** [shutil.copyfile(src, dst)].  The file system has no links and one
    spelling for each file, so that [os.path.samefile] is the equality of
    the two paths. *)
Definition copyfile (src dst : Path) : M unit :=
  src_there ← exists_ src;
  if bool_decide (src = dst) && src_there then raise SameFileError
  else
    b ← read_bytes src;
    write_bytes dst b.

(* ===================================================================== *)
(** ** The rendering packages                                             *)
(* ===================================================================== *)

(** [cairosvg]: what the conversion of an SVG document to a PNG of the
    requested width and height gives; [None] is a conversion that
    raises. *)
Record CairoSVG := {
  convert : bytes -> Z -> Z -> option bytes;
}.

(** [PIL.Image]: opening PNG data as an image and encoding an ICO
    container from a primary image, the requested sizes and the appended
    images; [None] is a call that raises. *)
Record PILImage := {
  Img : Type;
  open_image : bytes -> option Img;
  encode_ico : Img -> list (Z * Z) -> list Img -> option bytes;
}.

(** [cairosvg.svg2png(url=..., write_to=..., output_width=...,
    output_height=...)]: with [write_to] the PNG goes to that file and the
    call returns nothing, without it the call returns the PNG data. *)
Definition svg2png (cairosvg : CairoSVG) (url : Path) (write_to : option Path)
    (output_width output_height : Z) : M (option bytes) :=
  record (Svg2png url write_to output_width output_height);;
  source ← read_bytes url;
  match convert cairosvg source output_width output_height with
  | None => raise ConversionError
  | Some png =>
    match write_to with
    | Some out => write_bytes out png;; mret None
    | None => mret (Some png)
    end
  end.

(** [Image.open(BytesIO(data))]. *)
Definition image_open (Image : PILImage) (data : bytes) : M (Img Image) :=
  match open_image Image data with
  | Some im => mret im
  | None => raise ImageError
  end.

(** [im.save(fp, format="ICO", sizes=..., append_images=...)]: the file is
    opened before the container is encoded; when the encoder raises, a
    file the call created is removed again. *)
Definition image_save_ico (Image : PILImage) (im : Img Image) (fp : Path)
    (sizes : list (Z * Z)) (append_images : list (Img Image)) : M unit :=
  record (SaveIco fp sizes (length append_images));;
  there ← exists_ fp;
  write_bytes fp [];;
  match encode_ico Image im sizes append_images with
  | Some b => write_bytes fp b
  | None => (if there : bool then mret tt else remove fp);; raise ImageError
  end.

(* ===================================================================== *)
(** ** What Pillow's ICO encoder keeps                                    *)
(* ===================================================================== *)

Module Pillow.

(** The order of [sorted] on pairs of integers. *)
Definition size_ltb (a b : Z * Z) : bool :=
  (a.1 <? b.1)%Z || ((a.1 =? b.1)%Z && (a.2 <? b.2)%Z).

Fixpoint insert_size (s : Z * Z) (l : list (Z * Z)) : list (Z * Z) :=
  match l with
  | [] => [s]
  | x :: r =>
    if size_ltb s x then s :: l
    else if size_ltb x s then x :: insert_size s r
    else l
  end.

(** [sorted(set(sizes))]. *)
Definition sorted_set (sizes : list (Z * Z)) : list (Z * Z) :=
  foldr insert_size [] sizes.

(** The loop of [IcoImagePlugin._save] over the requested sizes, for an
    image of the size [im_size] that is being saved: a size wider or
    higher than that image, or than 256, is skipped ([continue]); every
    other size gets one frame, which is an image among the one being saved
    and the appended ones that has this size, or else a scaled copy.  The
    result lists the sizes of the frames of the container. *)
Definition ico_frame_sizes (im_size : Z * Z) (sizes : list (Z * Z))
  : list (Z * Z) :=
  List.filter
    (fun size => negb ((size.1 >? im_size.1)%Z || (size.2 >? im_size.2)%Z
                       || (size.1 >? 256)%Z || (size.2 >? 256)%Z))
    (sorted_set sizes).

End Pillow.

(* ===================================================================== *)
(** ** The program                                                        *)
(* ===================================================================== *)

Definition DEFAULT_SPECS : list (string * list Z) := [
  ("android-icon"%string, [36; 48; 72; 96; 144; 192]%Z);
  ("apple-icon"%string, [57; 60; 72; 76; 114; 120; 144; 152; 180]%Z);
  ("favicon"%string, [16; 32; 96]%Z);
  ("ms-icon"%string, [70; 144; 150]%Z)
].

Definition FAVICON_ICO_SIZES : list Z := [16; 32; 48]%Z.
Definition FAVICON_SVG_SIZE : Z := 48%Z.

(** What [parse_args] returns. *)
Record Args := {
  avatar_svg : option string;
  extended_light : option string;
  extended_dark : option string;
  out_dir : string;
  skip_favicon_svg : bool;
}.

(** What the process finds around it: the directory of the script, the
    working directory, and the two packages when they can be imported. *)
Record Env := {
  script_dir : Path;
  cwd : Path;
  cairosvg_package : option CairoSVG;
  pillow_package : option PILImage;
}.

Definition require_packages (env : Env) : M (CairoSVG * PILImage) :=
  match cairosvg_package env with
  | None =>
    print_err "Missing dependency: cairosvg";;
    print_err "Install with: python -m pip install cairosvg";;
    raise (SystemExit 1)
  | Some cairosvg =>
    match pillow_package env with
    | None =>
      print_err "Missing dependency: pillow";;
      print_err "Install with: python -m pip install pillow";;
      raise (SystemExit 1)
    | Some Image => mret (cairosvg, Image)
    end
  end.

Definition render_png (cairosvg : CairoSVG) (svg_path out_path : Path)
    (size : Z) : M unit :=
  mkdir_parents (Pathlib.parent out_path);;
  svg2png cairosvg svg_path (Some out_path) size size;;
  mret tt.

Definition render_ico (cairosvg : CairoSVG) (Image : PILImage)
    (svg_path out_path : Path) : M unit :=
  images ← for_each FAVICON_ICO_SIZES [] (fun images size =>
    png_bytes ← svg2png cairosvg svg_path None size size;
    image ← image_open Image (default [] png_bytes);
    mret (images ++ [image]));
  mkdir_parents (Pathlib.parent out_path);;
  match images !! O with
  | None => raise IndexError
  | Some first =>
    image_save_ico Image first out_path
      (map (fun size => (size, size)) FAVICON_ICO_SIZES)
      (drop 1 images)
  end.

Definition quote : string := String dquote EmptyString.

(** The pattern the source searches for the attribute [name] ([width] or
    [height]): in the raw string, two backslashes and [b], the name, an
    equals sign, a quote, a starred set of everything but the quote, and a
    quote. *)
Definition attribute_pattern (name : string) : string :=
  "\\b" +:+ name +:+ "=" +:+ quote +:+ "[^" +:+ quote +:+ "]*" +:+ quote.

(** One of the two blocks of [write_favicon_svg] that follow
    [updated = tag], the first for [width], the second for [height]. *)
Definition set_attribute (name : string) (size : Z) (updated : str) : M str :=
  match Re.search false (attribute_pattern name) updated with
  | None => raise ReError
  | Some (Some _) =>
    match Re.sub (attribute_pattern name)
            (str_of_string (name +:+ "=" +:+ quote +:+ format_int size +:+ quote))
            updated with
    | None => raise ReError
    | Some updated' => mret updated'
    end
  | Some None =>
    if endswith updated (str_of_string "/>") then
      mret (drop_last 2 updated
            ++ str_of_string (" " +:+ name +:+ "=" +:+ quote
                              +:+ format_int size +:+ quote +:+ "/>"))
    else
      mret (drop_last 1 updated
            ++ str_of_string (" " +:+ name +:+ "=" +:+ quote
                              +:+ format_int size +:+ quote +:+ ">"))
  end.

Definition write_favicon_svg (svg_path out_path : Path) (size : Z) : M unit :=
  content ← read_text svg_path;
  match Re.search true "<svg\\b[^>]*>" content with
  | None => raise ReError
  | Some None => copyfile svg_path out_path
  | Some (Some (match_start, match_end)) =>
    let tag := slice match_start match_end content in
    updated ← set_attribute "width" size tag;
    updated ← set_attribute "height" size updated;
    let content := take match_start content ++ updated ++ drop match_end content in
    mkdir_parents (Pathlib.parent out_path);;
    write_text out_path content
  end.

(** [if arg_value:] holds for a string that is given and not empty. *)
Definition truthy (arg_value : option string) : bool :=
  match arg_value with
  | Some s => negb (String.eqb s EmptyString)
  | None => false
  end.

Definition resolve_svg (script_dir : Path) (arg_value : option string)
    (script_name fallback : string) : M Path :=
  if truthy arg_value then mret (Pathlib.of_string (default EmptyString arg_value))
  else
    let local_path := script_dir // script_name in
    there ← exists_ local_path;
    if there : bool then mret local_path
    else mret (Pathlib.of_string fallback).

(** One component of the walk of [p.resolve()]: a root starts over at
    [/], [..] steps back to the parent (the root is its own parent), a
    name is appended. *)
Definition resolve_step (acc : Path) (c : string) : Path :=
  if Pathlib.is_anchor c then ["/"%string]
  else if String.eqb c ".." then Pathlib.parent acc
  else acc ++ [c].

(** [p.resolve()] on a file system without links: a relative path is
    joined to the working directory, and the result is walked from the
    left. *)
Definition resolve (env : Env) (p : Path) : Path :=
  foldl resolve_step [] (if Pathlib.is_absolute p then p else cwd env ++ p).

Definition main (env : Env) (args : Args) : M Z :=
  avatar_svg ← resolve_svg (script_dir env) (avatar_svg args)
                  "logo_thumbnail.svg" "brand-assets/logo_thumbnail.svg";
  extended_light ← resolve_svg (script_dir env) (extended_light args)
                      "logo.svg" "brand-assets/logo.svg";
  extended_dark ← resolve_svg (script_dir env) (extended_dark args)
                     "logo_dark.svg" "brand-assets/logo_dark.svg";
  let out_dir := Pathlib.of_string (out_dir args) in
  avatar_there ← exists_ avatar_svg;
  if negb avatar_there then
    print_err "Missing avatar SVG:";;
    print_err (" - " +:+ Pathlib.to_string avatar_svg);;
    mret 1%Z
  else
    missing_extended ← for_each [extended_light; extended_dark] []
      (fun missing path =>
         there ← exists_ path;
         mret (if there : bool then missing else missing ++ [path]));
    (if bool_decide (missing_extended = []) then mret tt
     else
       print_err "Warning: extended SVGs not found (will not block icon generation):";;
       for_each missing_extended tt (fun _ path =>
         print_err (" - " +:+ Pathlib.to_string path)));;
    '(cairosvg, Image) ← require_packages env;
    generated ← for_each DEFAULT_SPECS [] (fun generated '(prefix, sizes) =>
      for_each sizes generated (fun generated size =>
        let filename := prefix +:+ "-" +:+ format_int size +:+ "x"
                        +:+ format_int size +:+ ".png" in
        render_png cairosvg avatar_svg (out_dir // filename) size;;
        mret (generated ++ [out_dir // filename])));
    render_ico cairosvg Image avatar_svg (out_dir // "favicon.ico");;
    let generated := generated ++ [out_dir // "favicon.ico"] in
    generated ← (if negb (skip_favicon_svg args) then
                   write_favicon_svg avatar_svg (out_dir // "favicon.svg")
                     FAVICON_SVG_SIZE;;
                   mret (generated ++ [out_dir // "favicon.svg"])
                 else mret generated);
    print ("Generated " +:+ format_int (Z.of_nat (length generated))
           +:+ " files in " +:+ Pathlib.to_string (resolve env out_dir));;
    mret 0%Z.

(** [raise SystemExit(main())]: the exit status of the process and the
    world it leaves.  An exception nobody catches ends the process with
    status 1. *)
Definition run (env : Env) (args : Args) (w : World) : Z * World :=
  match main env args w with
  | (Ok status, w') => (status, w')
  | (Raised (SystemExit status), w') => (status, w')
  | (Raised _, w') => (1%Z, w')
  end.

(* ===================================================================== *)
(** ** Reasoning about computations                                       *)
(* ===================================================================== *)

(** [always R m]: whatever the outcome, the world [m] leaves is related by
    [R] to the one it started in.  [on_ok R m]: the same, for the runs of
    [m] that do not raise. *)
Definition always {A} (R : relation World) (m : M A) : Prop :=
  forall w r w', m w = (r, w') -> R w w'.

Definition on_ok {A} (R : relation World) (m : M A) : Prop :=
  forall w a w', m w = (Ok a, w') -> R w w'.

Section Rules.

Context (R : relation World) `{!PreOrder R}.

Lemma always_on_ok {A} (m : M A) : always R m -> on_ok R m.
Proof. intros H w a w' E. exact (H _ _ _ E). Qed.

Lemma always_ret {A} (a : A) : always R (mret a).
Proof. intros w r w' E. injection E as _ <-. reflexivity. Qed.

Lemma always_raise {A} (e : exn) : always R (@raise A e).
Proof. intros w r w' E. injection E as _ <-. reflexivity. Qed.

Lemma always_bind {A B} (m : M A) (f : A -> M B) :
  always R m -> (forall a, always R (f a)) -> always R (m ≫= f).
Proof.
  intros Hm Hf w r w'. unfold mbind, M_bind.
  destruct (m w) as [[a|e] w1] eqn:E; intros E'.
  - transitivity w1; [exact (Hm _ _ _ E) | exact (Hf _ _ _ _ E')].
  - injection E' as _ <-. exact (Hm _ _ _ E).
Qed.

Lemma always_for_each {A B} (l : list A) (body : B -> A -> M B) :
  (forall acc x, x ∈ l -> always R (body acc x)) ->
  forall acc, always R (for_each l acc body).
Proof.
  induction l as [|x l IH]; intros Hb acc; simpl.
  - apply always_ret.
  - apply always_bind.
    + apply Hb. left.
    + intros acc'. apply IH. intros ? y Hy. apply Hb. by right.
Qed.

Lemma on_ok_ret {A} (a : A) : on_ok R (mret a).
Proof. apply always_on_ok, always_ret. Qed.

Lemma on_ok_raise {A} (e : exn) : on_ok R (@raise A e).
Proof. apply always_on_ok, always_raise. Qed.

Lemma on_ok_bind {A B} (m : M A) (f : A -> M B) :
  on_ok R m -> (forall a, on_ok R (f a)) -> on_ok R (m ≫= f).
Proof.
  intros Hm Hf w r w'. unfold mbind, M_bind.
  destruct (m w) as [[a|e] w1] eqn:E; intros E'; [|discriminate].
  transitivity w1; [exact (Hm _ _ _ E) | exact (Hf _ _ _ _ E')].
Qed.

Lemma on_ok_for_each {A B} (l : list A) (body : B -> A -> M B) :
  (forall acc x, x ∈ l -> on_ok R (body acc x)) ->
  forall acc, on_ok R (for_each l acc body).
Proof.
  induction l as [|x l IH]; intros Hb acc; simpl.
  - apply on_ok_ret.
  - apply on_ok_bind.
    + apply Hb. left.
    + intros acc'. apply IH. intros ? y Hy. apply Hb. by right.
Qed.

End Rules.

(** A successful bind is two successful steps. *)
Lemma bind_ok {A B} (m : M A) (f : A -> M B) w b w' :
  (m ≫= f) w = (Ok b, w') ->
  exists a w1, m w = (Ok a, w1) /\ f a w1 = (Ok b, w').
Proof.
  unfold mbind, M_bind. destruct (m w) as [[a|e] w1]; [eauto | discriminate].
Qed.

Lemma bind_step {A B} (m : M A) (f : A -> M B) w a w1 :
  m w = (Ok a, w1) -> (m ≫= f) w = f a w1.
Proof. intros E. unfold mbind, M_bind. by rewrite E. Qed.

Lemma bind_raised {A B} (m : M A) (f : A -> M B) w e w1 :
  m w = (Raised e, w1) -> (m ≫= f) w = (Raised e, w1).
Proof. intros E. unfold mbind, M_bind. by rewrite E. Qed.

(** A run that returns [a] leaves the second component of its result. *)
Lemma ok_result {A} (m : M A) (w : World) (a : A) :
  (m w).1 = Ok a -> m w = (Ok a, (m w).2).
Proof. destruct (m w); simpl; congruence. Qed.

Lemma for_each_app {A B} (l1 l2 : list A) (acc : B) (body : B -> A -> M B) w :
  for_each (l1 ++ l2) acc body w
  = (for_each l1 acc body ≫= fun acc' => for_each l2 acc' body) w.
Proof.
  revert acc w. induction l1 as [|x l1 IH]; intros acc w; simpl; [done|].
  unfold mbind, M_bind at 1 3.
  unfold mbind, M_bind.
  destruct (body acc x w) as [[a|e] w1]; [apply IH | done].
Qed.

(** *** What a step leaves alone *)

(** [frame S]: nothing goes to the standard output and the file system
    changes at most at the paths in [S]. *)
Record frame (S : Path -> Prop) (w w' : World) : Prop := {
  frame_stdout : stdout w' = stdout w;
  frame_fs : forall p, ~ S p -> fs w' !! p = fs w !! p;
}.

#[global] Instance frame_preorder S : PreOrder (frame S).
Proof.
  split.
  - intros w. by split.
  - intros w1 w2 w3 [a c] [a' c']. split; [congruence|].
    intros p Hp. rewrite c', c; auto.
Qed.

Lemma frame_weaken (S S' : Path -> Prop) w w' :
  (forall p, S p -> S' p) -> frame S w w' -> frame S' w w'.
Proof. intros HS [a c]. split; auto. Qed.

Lemma always_weaken {A} (R R' : relation World) (m : M A) :
  (forall w w', R w w' -> R' w w') -> always R m -> always R' m.
Proof. intros HR H w r w' E. apply HR, (H _ _ _ E). Qed.

(** [silent]: no request is made to a rendering package. *)
Definition silent (w w' : World) : Prop := calls w' = calls w.

#[global] Instance silent_preorder : PreOrder silent.
Proof. split; unfold silent; [done | intros ???; congruence]. Qed.

(** [dirs_kept]: a directory that is there stays there. *)
Definition dirs_kept (w w' : World) : Prop :=
  forall d, lookup_node (fs w) d = Some Dir -> lookup_node (fs w') d = Some Dir.

#[global] Instance dirs_kept_preorder : PreOrder dirs_kept.
Proof.
  split; [by intros w d | intros w1 w2 w3 H1 H2 d Hd; apply H2, H1, Hd].
Qed.

(** [files_kept]: a file that is there stays a file. *)
Definition is_file (m : gmap Path node) (p : Path) : Prop :=
  exists b, m !! p = Some (File b).

Definition files_kept (w w' : World) : Prop :=
  forall p, is_file (fs w) p -> is_file (fs w') p.

#[global] Instance files_kept_preorder : PreOrder files_kept.
Proof.
  split; [by intros w d | intros w1 w2 w3 H1 H2 d Hd; apply H2, H1, Hd].
Qed.

(** *** The file system *)

Definition special (p : Path) : bool :=
  match p with
  | [] => true
  | [a] => Pathlib.is_anchor a
  | _ => false
  end.

Lemma lookup_node_special m p : special p = true -> lookup_node m p = Some Dir.
Proof.
  destruct p as [|a [|b r]]; simpl; try done. by intros ->.
Qed.

Lemma lookup_node_plain m p : special p = false -> lookup_node m p = m !! p.
Proof.
  destruct p as [|a [|b r]]; simpl; try done. by intros ->.
Qed.

Lemma lookup_node_None m p :
  lookup_node m p = None -> special p = false /\ m !! p = None.
Proof.
  destruct (special p) eqn:E.
  - by rewrite lookup_node_special.
  - by rewrite lookup_node_plain.
Qed.

Lemma lookup_node_not_dir m p :
  lookup_node m p <> Some Dir -> special p = false /\ m !! p <> Some Dir.
Proof.
  destruct (special p) eqn:E.
  - by rewrite lookup_node_special.
  - by rewrite lookup_node_plain.
Qed.

Lemma lookup_node_insert_ne m q n p :
  q <> p -> lookup_node (<[q:=n]> m) p = lookup_node m p.
Proof.
  intros Hne. destruct (special p) eqn:E.
  - by rewrite !lookup_node_special.
  - rewrite !lookup_node_plain by done. by apply lookup_insert_ne.
Qed.

Lemma lookup_node_ext m m' p :
  m' !! p = m !! p -> lookup_node m' p = lookup_node m p.
Proof.
  intros H. destruct (special p) eqn:E.
  - by rewrite !lookup_node_special.
  - by rewrite !lookup_node_plain.
Qed.

(** Reading and testing leave the world as it is. *)
Lemma exists_eq p w :
  exists_ p w = (Ok (bool_decide (is_Some (lookup_node (fs w) p))), w).
Proof. reflexivity. Qed.

Lemma read_bytes_inv p w r w' :
  read_bytes p w = (r, w') ->
  w' = w /\ (forall b, r = Ok b -> lookup_node (fs w) p = Some (File b)).
Proof.
  unfold read_bytes. destruct (lookup_node (fs w) p) as [[b|]|];
    intros [= <- <-]; split; try done; by intros ? [= ->].
Qed.

(** A write either raises and changes nothing, or puts the file in
    place. *)
Lemma write_bytes_inv p b w r w' :
  write_bytes p b w = (r, w') ->
  (r = Ok tt /\ w' = with_fs w (<[p := File b]> (fs w))
   /\ lookup_node (fs w) (Pathlib.parent p) = Some Dir
   /\ special p = false /\ fs w !! p <> Some Dir)
  \/ (exists e, r = Raised e /\ w' = w).
Proof.
  unfold write_bytes.
  destruct (lookup_node (fs w) p) as [[c|]|] eqn:Ep;
    destruct (lookup_node (fs w) (Pathlib.parent p)) as [[c'|]|] eqn:Eq;
    intros [= <- <-]; eauto.
  all: left; repeat split; try done.
  all: try (destruct (special p) eqn:Es; [by rewrite lookup_node_special in Ep|done]).
  all: destruct (special p) eqn:Es; [by rewrite lookup_node_special in Ep|].
  all: rewrite lookup_node_plain in Ep by done; congruence.
Qed.

Lemma write_bytes_ok p b w :
  lookup_node (fs w) (Pathlib.parent p) = Some Dir ->
  lookup_node (fs w) p <> Some Dir ->
  write_bytes p b w = (Ok tt, with_fs w (<[p := File b]> (fs w))).
Proof.
  intros Hq Hp. unfold write_bytes. rewrite Hq.
  by destruct (lookup_node (fs w) p) as [[c|]|].
Qed.

Lemma write_bytes_frame p b : always (frame (eq p)) (write_bytes p b).
Proof.
  intros w r w' E. apply write_bytes_inv in E as [(-> & -> & _)|(e & -> & ->)];
    [|reflexivity].
  split; try done. intros q Hq. simpl. by apply lookup_insert_ne.
Qed.

Lemma write_bytes_silent p b : always silent (write_bytes p b).
Proof.
  intros w r w' E. by apply write_bytes_inv in E as [(-> & -> & _)|(e & -> & ->)].
Qed.

Lemma write_bytes_dirs p b : always dirs_kept (write_bytes p b).
Proof.
  intros w r w' E.
  apply write_bytes_inv in E as [(-> & -> & _ & Hs & Hp)|(e & -> & ->)]; [|done].
  intros d Hd. simpl. destruct (decide (p = d)) as [<-|Hne].
  - rewrite lookup_node_plain in Hd by done. contradiction.
  - by rewrite lookup_node_insert_ne.
Qed.

Lemma write_bytes_files p b : always files_kept (write_bytes p b).
Proof.
  intros w r w' E.
  apply write_bytes_inv in E as [(-> & -> & _)|(e & -> & ->)]; [|done].
  intros q [c Hq]. unfold is_file. simpl. destruct (decide (p = q)) as [<-|Hne].
  - rewrite lookup_insert_eq. eauto.
  - rewrite lookup_insert_ne by done. eauto.
Qed.

Lemma elem_of_prefixes (d p : Path) : d ∈ prefixes p <-> d `prefix_of` p.
Proof.
  revert d. induction p as [|c r IH]; intros d; simpl.
  - rewrite list_elem_of_singleton. split.
    + by intros ->.
    + intros H. by apply prefix_nil_inv.
  - rewrite elem_of_cons, list_elem_of_fmap. split.
    + intros [->|(d' & -> & Hd')]; [apply prefix_nil|].
      apply prefix_cons, IH, Hd'.
    + intros H. destruct d as [|c' d']; [by left|right].
      apply prefix_cons_inv_1 in H as Hc. subst c'.
      apply prefix_cons_inv_2 in H. exists d'. split; [done|by apply IH].
Qed.

Lemma prefixes_self (p : Path) : p ∈ prefixes p.
Proof. by apply elem_of_prefixes. Qed.

(** [grows_dirs]: apart from directories that were missing and are now
    there, the file system is as it was. *)
Definition grows_dirs (w w' : World) : Prop :=
  forall p, fs w' !! p = fs w !! p
            \/ (fs w !! p = None /\ fs w' !! p = Some Dir).

#[global] Instance grows_dirs_preorder : PreOrder grows_dirs.
Proof.
  split; [by left|].
  intros w1 w2 w3 H1 H2 p.
  destruct (H1 p) as [E1|[E1 E1']], (H2 p) as [E2|[E2 E2']].
  - left. congruence.
  - right. split; congruence.
  - right. split; congruence.
  - congruence.
Qed.

Lemma mkdir_step_inv target acc d w r w' :
  mkdir_step target acc d w = (r, w') ->
  (r = Ok tt /\ lookup_node (fs w') d = Some Dir
   /\ (w' = w \/ (special d = false /\ fs w !! d = None
                  /\ w' = with_fs w (<[d := Dir]> (fs w)))))
  \/ (exists e, r = Raised e /\ w' = w).
Proof.
  unfold mkdir_step. destruct (lookup_node (fs w) d) as [[c|]|] eqn:E;
    intros [= <- <-]; eauto.
  apply lookup_node_None in E as [Es E]. left. split; [done|]. split.
  - simpl. rewrite lookup_node_plain by done. apply lookup_insert_eq.
  - eauto.
Qed.

Lemma mkdir_step_frame target acc d : always (frame (eq d)) (mkdir_step target acc d).
Proof.
  intros w r w' E.
  apply mkdir_step_inv in E as [(-> & _ & [->|(_ & _ & ->)])|(e & -> & ->)];
    try reflexivity.
  split; try done. intros q Hq. simpl. by apply lookup_insert_ne.
Qed.

Lemma mkdir_step_silent target acc d : always silent (mkdir_step target acc d).
Proof.
  intros w r w' E.
  by apply mkdir_step_inv in E as [(-> & _ & [->|(_ & _ & ->)])|(e & -> & ->)].
Qed.

Lemma mkdir_step_dirs target acc d : always dirs_kept (mkdir_step target acc d).
Proof.
  intros w r w' E.
  apply mkdir_step_inv in E as [(-> & _ & [->|(Hs & Hd & ->)])|(e & -> & ->)];
    try done.
  intros q Hq. simpl. destruct (decide (d = q)) as [<-|Hne].
  - rewrite lookup_node_plain by done. apply lookup_insert_eq.
  - by rewrite lookup_node_insert_ne.
Qed.

Lemma mkdir_step_files target acc d : always files_kept (mkdir_step target acc d).
Proof.
  intros w r w' E.
  apply mkdir_step_inv in E as [(-> & _ & [->|(Hs & Hd & ->)])|(e & -> & ->)];
    try done.
  intros q [c Hq]. unfold is_file. simpl. destruct (decide (d = q)) as [<-|Hne].
  - congruence.
  - rewrite lookup_insert_ne by done. eauto.
Qed.

Lemma mkdir_step_grows target acc d : always grows_dirs (mkdir_step target acc d).
Proof.
  intros w r w' E.
  apply mkdir_step_inv in E as [(-> & _ & [->|(Hs & Hd & ->)])|(e & -> & ->)];
    try reflexivity.
  intros q. simpl. destruct (decide (d = q)) as [<-|Hne].
  - right. split; [done|apply lookup_insert_eq].
  - left. by apply lookup_insert_ne.
Qed.

Lemma mkdir_parents_frame p :
  always (frame (fun d => d ∈ prefixes p)) (mkdir_parents p).
Proof.
  apply always_for_each; [apply _|]. intros acc d Hd.
  eapply always_weaken; [|apply mkdir_step_frame].
  intros w w'. apply frame_weaken. by intros ? <-.
Qed.

Lemma mkdir_parents_silent p : always silent (mkdir_parents p).
Proof.
  apply always_for_each; [apply _|]. intros. apply mkdir_step_silent.
Qed.

Lemma mkdir_parents_dirs p : always dirs_kept (mkdir_parents p).
Proof.
  apply always_for_each; [apply _|]. intros. apply mkdir_step_dirs.
Qed.

Lemma mkdir_parents_files p : always files_kept (mkdir_parents p).
Proof.
  apply always_for_each; [apply _|]. intros. apply mkdir_step_files.
Qed.

Lemma mkdir_parents_grows p : always grows_dirs (mkdir_parents p).
Proof.
  apply always_for_each; [apply _|]. intros. apply mkdir_step_grows.
Qed.

(** After a successful [mkdir], every leading segment is a directory. *)
Lemma for_each_mkdir_ok target (l : list Path) acc w a w' :
  for_each l acc (mkdir_step target) w = (Ok a, w') ->
  forall d, d ∈ l -> lookup_node (fs w') d = Some Dir.
Proof.
  revert acc w. induction l as [|x l IH]; intros acc w E d Hd; simpl in E.
  - by apply elem_of_nil in Hd.
  - apply bind_ok in E as (a1 & w1 & E1 & E2).
    apply elem_of_cons in Hd as [->|Hd]; [|by eapply IH].
    apply mkdir_step_inv in E1 as [(_ & Hx & _)|(e & ? & _)]; [|done].
    eapply (always_for_each dirs_kept); [|exact E2|exact Hx].
    intros. apply mkdir_step_dirs.
Qed.

Lemma mkdir_parents_ok p w a w' :
  mkdir_parents p w = (Ok a, w') ->
  forall d, d `prefix_of` p -> lookup_node (fs w') d = Some Dir.
Proof.
  intros E d Hd. eapply for_each_mkdir_ok; [exact E|by apply elem_of_prefixes].
Qed.

(** When every leading segment is a directory already, [mkdir] does
    nothing. *)
Lemma for_each_mkdir_noop target (l : list Path) acc w :
  (forall d, d ∈ l -> lookup_node (fs w) d = Some Dir) ->
  for_each l acc (mkdir_step target) w = (Ok tt, w).
Proof.
  revert acc. induction l as [|x l IH]; intros [] H; simpl; [done|].
  rewrite (bind_step _ _ w tt w).
  - apply IH. intros d Hd. apply H. by right.
  - unfold mkdir_step. rewrite H; [done|left].
Qed.

Lemma mkdir_parents_noop p w :
  (forall d, d `prefix_of` p -> lookup_node (fs w) d = Some Dir) ->
  mkdir_parents p w = (Ok tt, w).
Proof.
  intros H. apply for_each_mkdir_noop. intros d Hd.
  by apply H, elem_of_prefixes.
Qed.

(** *** Printing and the rendering packages *)

Definition nowhere : Path -> Prop := fun _ => False.

Lemma print_err_frame line : always (frame nowhere) (print_err line).
Proof. intros w r w' [= <- <-]. by split. Qed.

Lemma print_err_silent line : always silent (print_err line).
Proof. by intros w r w' [= <- <-]. Qed.

(** [emits cs]: the requests [cs], in this order, are made. *)
Definition emits (cs : list call) (w w' : World) : Prop :=
  calls w' = calls w ++ cs.

Lemma emits_nil w w' : emits [] w w' <-> silent w w'.
Proof. unfold emits, silent. by rewrite app_nil_r. Qed.

Lemma emits_trans cs1 cs2 w1 w2 w3 :
  emits cs1 w1 w2 -> emits cs2 w2 w3 -> emits (cs1 ++ cs2) w1 w3.
Proof. unfold emits. intros H1 H2. by rewrite H2, H1, app_assoc. Qed.

Lemma for_each_emits {A B} (f : A -> list call) (l : list A)
    (body : B -> A -> M B) :
  (forall acc x, x ∈ l -> on_ok (emits (f x)) (body acc x)) ->
  forall acc, on_ok (emits (concat (map f l))) (for_each l acc body).
Proof.
  induction l as [|x l IH]; intros Hb acc w a w' E; simpl in *.
  - injection E as _ <-. by apply emits_nil.
  - apply bind_ok in E as (a1 & w1 & E1 & E2).
    eapply emits_trans.
    + eapply Hb; [left|exact E1].
    + eapply IH; [|exact E2]. intros ? y Hy. apply Hb. by right.
Qed.

(** The world after [c] has been recorded. *)
Definition logged (w : World) (c : call) : World :=
  {| fs := fs w; stdout := stdout w; stderr := stderr w;
     calls := calls w ++ [c] |}.

(** A conversion either raises, leaving the file system as it is, or has
    read the source, converted it, and returned or written the PNG. *)
Lemma svg2png_inv cairosvg url write_to x y w r w' :
  svg2png cairosvg url write_to x y w = (r, w') ->
  let w0 := logged w (Svg2png url write_to x y) in
  (exists e, r = Raised e /\ w' = w0)
  \/ (exists source png,
        lookup_node (fs w) url = Some (File source)
        /\ convert cairosvg source x y = Some png
        /\ match write_to with
           | None => r = Ok (Some png) /\ w' = w0
           | Some out =>
             r = Ok None /\ w' = with_fs w0 (<[out := File png]> (fs w))
             /\ lookup_node (fs w) (Pathlib.parent out) = Some Dir
             /\ special out = false /\ fs w !! out <> Some Dir
           end).
Proof.
  unfold svg2png, mbind, M_bind, record, read_bytes. simpl.
  fold (logged w (Svg2png url write_to x y)).
  destruct (lookup_node (fs w) url) as [[source|]|] eqn:Eu;
    try (intros [= <- <-]; eauto).
  destruct (convert cairosvg source x y) as [png|] eqn:Ec;
    [|intros [= <- <-]; eauto].
  destruct write_to as [out|]; [|intros [= <- <-]; right; eauto 10].
  destruct (write_bytes out png _) as [[[]|e] w1] eqn:Ew;
    apply write_bytes_inv in Ew as [(? & -> & ? & ? & ?)|(e' & ? & ->)];
    try discriminate; intros [= <- <-]; [right|left]; eauto 10.
Qed.

Lemma svg2png_frame cairosvg url write_to x y :
  always (frame (fun p => write_to = Some p)) (svg2png cairosvg url write_to x y).
Proof.
  intros w r w' E. apply svg2png_inv in E as [(e & _ & ->)|(s & png & _ & _ & H)];
    [by split|].
  destruct write_to as [out|]; [|destruct H as [_ ->]; by split].
  destruct H as (_ & -> & _). split; [done|].
  intros p Hp. simpl. apply lookup_insert_ne. congruence.
Qed.

Lemma svg2png_emits cairosvg url write_to x y :
  always (emits [Svg2png url write_to x y]) (svg2png cairosvg url write_to x y).
Proof.
  intros w r w' E. apply svg2png_inv in E as [(e & _ & ->)|(s & png & _ & _ & H)];
    [done|].
  destruct write_to as [out|]; [by destruct H as (_ & -> & _)|by destruct H as [_ ->]].
Qed.

Lemma svg2png_dirs cairosvg url write_to x y :
  always dirs_kept (svg2png cairosvg url write_to x y).
Proof.
  intros w r w' E. apply svg2png_inv in E as [(e & _ & ->)|(s & png & _ & _ & H)];
    [by intros d|].
  destruct write_to as [out|]; [|destruct H as [_ ->]; by intros d].
  destruct H as (_ & -> & _ & Hs & Ho). intros d Hd. simpl.
  destruct (decide (out = d)) as [<-|Hne].
  - rewrite lookup_node_plain in Hd by done. contradiction.
  - by rewrite lookup_node_insert_ne.
Qed.

Lemma svg2png_files cairosvg url write_to x y :
  always files_kept (svg2png cairosvg url write_to x y).
Proof.
  intros w r w' E. apply svg2png_inv in E as [(e & _ & ->)|(s & png & _ & _ & H)];
    [by intros q|].
  destruct write_to as [out|]; [|destruct H as [_ ->]; by intros q].
  destruct H as (_ & -> & _). intros q [c Hq]. unfold is_file. simpl.
  destruct (decide (out = q)) as [<-|Hne].
  - rewrite lookup_insert_eq. eauto.
  - rewrite lookup_insert_ne by done. eauto.
Qed.

(** A conversion that returns its PNG leaves the file system as it is. *)
Lemma svg2png_in_memory cairosvg url x y w r w' :
  svg2png cairosvg url None x y w = (r, w') ->
  w' = logged w (Svg2png url None x y).
Proof.
  intros E. apply svg2png_inv in E as [(e & _ & ->)|(s & png & _ & _ & _ & ->)];
    done.
Qed.

Lemma image_open_inv Image data w r w' :
  image_open Image data w = (r, w') ->
  w' = w /\ forall im, r = Ok im -> open_image Image data = Some im.
Proof.
  unfold image_open. destruct (open_image Image data) as [im|];
    intros [= <- <-]; split; try done. by intros ? [= ->].
Qed.

(** Saving the container either raises, or leaves it in place of whatever
    was at [fp]. *)
Lemma image_save_ico_inv Image im fp sizes append_images w r w' :
  image_save_ico Image im fp sizes append_images w = (r, w') ->
  let w0 := logged w (SaveIco fp sizes (length append_images)) in
  (exists e, r = Raised e /\ calls w' = calls w0 /\ stdout w' = stdout w
             /\ forall p, p <> fp -> fs w' !! p = fs w !! p)
  \/ (exists ico,
        encode_ico Image im sizes append_images = Some ico
        /\ r = Ok tt /\ w' = with_fs w0 (<[fp := File ico]> (fs w))
        /\ lookup_node (fs w) (Pathlib.parent fp) = Some Dir
        /\ special fp = false /\ fs w !! fp <> Some Dir).
Proof.
  unfold image_save_ico, mbind, M_bind, record, exists_. simpl.
  fold (logged w (SaveIco fp sizes (length append_images))).
  set (w0 := logged w _).
  destruct (write_bytes fp [] w0) as [[[]|e] w1] eqn:Ew;
    apply write_bytes_inv in Ew as [(? & -> & Hd & Hs & Hf)|(e' & ? & ->)];
    try discriminate.
  2:{ intros [= <- <-]. left. exists e. repeat split; done. }
  destruct (encode_ico Image im sizes append_images) as [ico|] eqn:Ei.
  - rewrite write_bytes_ok.
    + intros [= <- <-]. right. exists ico. repeat split; try done.
      unfold with_fs. simpl. by rewrite insert_insert_eq.
    + simpl. destruct (decide (fp = Pathlib.parent fp)) as [Heq|Hne].
      * rewrite <- Heq in Hd. rewrite lookup_node_plain in Hd by done.
        contradiction.
      * by rewrite lookup_node_insert_ne.
    + simpl. rewrite lookup_node_plain by done. by rewrite lookup_insert_eq.
  - destruct (bool_decide _) eqn:Eb; intros [= <- <-]; left;
      eexists; repeat split; try done; intros p Hp; simpl.
    + by rewrite lookup_insert_ne.
    + rewrite lookup_delete_ne by done. by rewrite lookup_insert_ne.
Qed.

(** *** Paths *)

(** A file name: one part, not a root. *)
Definition plain_name (name : string) : Prop :=
  Pathlib.of_string name = [name] /\ Pathlib.is_anchor name = false.

Lemma join_plain p name : plain_name name -> p // name = p ++ [name].
Proof. intros [H1 H2]. unfold Pathlib.joinpath. rewrite H1. simpl. by rewrite H2. Qed.

Lemma parent_snoc p name :
  Pathlib.is_anchor name = false -> Pathlib.parent (p ++ [name]) = p.
Proof.
  intros H. destruct p as [|a [|b p]]; simpl; [by rewrite H|done|].
  do 2 f_equal. apply (removelast_last (b :: p)).
Qed.

Lemma special_snoc p name :
  Pathlib.is_anchor name = false -> special (p ++ [name]) = false.
Proof. intros H. destruct p as [|a [|b p]]; simpl; done. Qed.

Lemma snoc_not_prefix (p : Path) name : ~ (p ++ [name]) `prefix_of` p.
Proof.
  intros H. apply prefix_length in H. rewrite length_app in H. simpl in H. lia.
Qed.

Lemma parent_join p name : plain_name name -> Pathlib.parent (p // name) = p.
Proof. intros H. rewrite join_plain by done. apply parent_snoc, H. Qed.

Lemma special_join p name : plain_name name -> special (p // name) = false.
Proof. intros H. rewrite join_plain by done. apply special_snoc, H. Qed.

Lemma join_not_prefix p name : plain_name name -> ~ (p // name) `prefix_of` p.
Proof. intros H. rewrite join_plain by done. by apply snoc_not_prefix. Qed.

Lemma join_inj p name name' :
  plain_name name -> plain_name name' -> p // name = p // name' -> name = name'.
Proof.
  intros H H'. rewrite !join_plain by done. intros E.
  apply app_inv_head in E. congruence.
Qed.

(** *** The writers *)

Definition png_footprint (out_path : Path) : Path -> Prop :=
  fun p => p `prefix_of` Pathlib.parent out_path \/ p = out_path.

Lemma render_png_frame cairosvg svg_path out_path size :
  always (frame (png_footprint out_path))
         (render_png cairosvg svg_path out_path size).
Proof.
  unfold render_png. apply always_bind; [apply _| |intros _].
  - eapply always_weaken; [|apply mkdir_parents_frame].
    intros w w'. apply frame_weaken. intros p Hp. left. by apply elem_of_prefixes.
  - apply always_bind; [apply _| |intros _; apply always_ret; apply _].
    eapply always_weaken; [|apply svg2png_frame].
    intros w w'. apply frame_weaken. intros p [= ->]. by right.
Qed.

Lemma render_png_dirs cairosvg svg_path out_path size :
  always dirs_kept (render_png cairosvg svg_path out_path size).
Proof.
  unfold render_png. apply always_bind; [apply _|apply mkdir_parents_dirs|intros _].
  apply always_bind; [apply _|apply svg2png_dirs|intros _; apply always_ret; apply _].
Qed.

Lemma render_png_files cairosvg svg_path out_path size :
  always files_kept (render_png cairosvg svg_path out_path size).
Proof.
  unfold render_png. apply always_bind; [apply _|apply mkdir_parents_files|intros _].
  apply always_bind; [apply _|apply svg2png_files|intros _; apply always_ret; apply _].
Qed.

(** A successful [render_png] made one request, for a [size] by [size]
    PNG written to [out_path], and left a file there, in a directory. *)
Lemma render_png_ok cairosvg svg_path out_path size w a w' :
  render_png cairosvg svg_path out_path size w = (Ok a, w') ->
  emits [Svg2png svg_path (Some out_path) size size] w w'
  /\ is_file (fs w') out_path
  /\ forall d, d `prefix_of` Pathlib.parent out_path ->
               lookup_node (fs w') d = Some Dir.
Proof.
  unfold render_png. intros E.
  apply bind_ok in E as ([] & w1 & E1 & E).
  apply bind_ok in E as (r & w2 & E2 & E). injection E as _ <-.
  split; [|split].
  - apply mkdir_parents_silent in E1 as Hs. apply svg2png_emits in E2 as He.
    unfold emits, silent in *. congruence.
  - apply svg2png_inv in E2 as [(e & ? & _)|(s & png & _ & _ & _ & -> & _)];
      [done|]. exists png. simpl. apply lookup_insert_eq.
  - intros d Hd. eapply svg2png_dirs; [exact E2|].
    eapply mkdir_parents_ok; eauto.
Qed.

(** The body of the loop of [render_ico]. *)
Definition ico_frame (cairosvg : CairoSVG) (Image : PILImage) (svg_path : Path)
    (images : list (Img Image)) (size : Z) : M (list (Img Image)) :=
  png_bytes ← svg2png cairosvg svg_path None size size;
  image ← image_open Image (default [] png_bytes);
  mret (images ++ [image]).

Lemma render_ico_unfold cairosvg Image svg_path out_path :
  render_ico cairosvg Image svg_path out_path
  = (images ← for_each FAVICON_ICO_SIZES [] (ico_frame cairosvg Image svg_path);
     mkdir_parents (Pathlib.parent out_path);;
     match images !! O with
     | None => raise IndexError
     | Some first =>
       image_save_ico Image first out_path
         (map (fun size => (size, size)) FAVICON_ICO_SIZES) (drop 1 images)
     end).
Proof. reflexivity. Qed.

(** One frame: the request is recorded and nothing else changes; when the
    step succeeds the source was read and converted and the PNG opened. *)
Lemma ico_frame_inv cairosvg Image svg_path images size w r w' :
  ico_frame cairosvg Image svg_path images size w = (r, w') ->
  w' = logged w (Svg2png svg_path None size size)
  /\ forall images', r = Ok images' ->
       exists source png im,
         lookup_node (fs w) svg_path = Some (File source)
         /\ convert cairosvg source size size = Some png
         /\ open_image Image png = Some im
         /\ images' = images ++ [im].
Proof.
  unfold ico_frame. intros E.
  destruct (svg2png cairosvg svg_path None size size w) as [[o|e] w1] eqn:E1.
  2:{ rewrite (bind_raised _ _ _ _ _ E1) in E. injection E as <- <-.
      apply svg2png_in_memory in E1. by split. }
  rewrite (bind_step _ _ _ _ _ E1) in E.
  apply svg2png_in_memory in E1 as Hw. subst w1.
  apply svg2png_inv in E1 as [(e & ? & _)|(s & png & Hs & Hc & [= ->] & _)];
    [done|]. simpl in E.
  destruct (image_open Image png (logged w (Svg2png svg_path None size size)))
    as [[im|e] w2] eqn:E2.
  2:{ rewrite (bind_raised _ _ _ _ _ E2) in E. injection E as <- <-.
      apply image_open_inv in E2 as [-> _]. by split. }
  rewrite (bind_step _ _ _ _ _ E2) in E. injection E as <- <-.
  apply image_open_inv in E2 as [-> Ho]. split; [done|].
  intros ? [= <-]. exists s, png, im. eauto.
Qed.

(** [untouched]: only the record of requests may have grown. *)
Definition untouched (w w' : World) : Prop :=
  fs w' = fs w /\ stdout w' = stdout w /\ stderr w' = stderr w.

#[global] Instance untouched_preorder : PreOrder untouched.
Proof.
  split; [done|]. intros w1 w2 w3 (?&?&?) (?&?&?).
  unfold untouched. repeat split; congruence.
Qed.

Lemma untouched_frame w w' : untouched w w' -> frame nowhere w w'.
Proof. intros (Hf & Ho & _). split; [done|]. intros p _. by rewrite Hf. Qed.

Lemma ico_frame_untouched cairosvg Image svg_path images size :
  always untouched (ico_frame cairosvg Image svg_path images size).
Proof. intros w r w' E. by apply ico_frame_inv in E as [-> _]. Qed.

Definition ico_sizes : list (Z * Z) := [(16, 16); (32, 32); (48, 48)]%Z.

(** What a successful [render_ico] did. *)
Lemma render_ico_ok_inv cairosvg Image svg_path out_path w a w' :
  render_ico cairosvg Image svg_path out_path w = (Ok a, w') ->
  exists source p16 p32 p48 (i16 i32 i48 : Img Image) ico w0 w1,
    lookup_node (fs w) svg_path = Some (File source)
    /\ convert cairosvg source 16 16 = Some p16
    /\ convert cairosvg source 32 32 = Some p32
    /\ convert cairosvg source 48 48 = Some p48
    /\ open_image Image p16 = Some i16
    /\ open_image Image p32 = Some i32
    /\ open_image Image p48 = Some i48
    /\ encode_ico Image i16 ico_sizes [i32; i48] = Some ico
    /\ w0 = {| fs := fs w; stdout := stdout w; stderr := stderr w;
               calls := calls w ++ [Svg2png svg_path None 16 16;
                                    Svg2png svg_path None 32 32;
                                    Svg2png svg_path None 48 48] |}
    /\ mkdir_parents (Pathlib.parent out_path) w0 = (Ok tt, w1)
    /\ w' = with_fs (logged w1 (SaveIco out_path ico_sizes 2))
                    (<[out_path := File ico]> (fs w1))
    /\ special out_path = false /\ fs w1 !! out_path <> Some Dir.
Proof.
  rewrite render_ico_unfold. intros E.
  apply bind_ok in E as (images & w0 & E0 & E).
  apply bind_ok in E as ([] & w1 & E1 & E).
  unfold FAVICON_ICO_SIZES in E0. simpl in E0.
  apply bind_ok in E0 as (l1 & u1 & F1 & E0).
  apply bind_ok in E0 as (l2 & u2 & F2 & E0).
  apply bind_ok in E0 as (l3 & u3 & F3 & E0).
  injection E0 as <- <-.
  apply ico_frame_inv in F1 as [-> H1].
  destruct (H1 _ eq_refl) as (s1 & p16 & i16 & Hs1 & Hc1 & Ho1 & ->).
  apply ico_frame_inv in F2 as [-> H2].
  destruct (H2 _ eq_refl) as (s2 & p32 & i32 & Hs2 & Hc2 & Ho2 & ->).
  apply ico_frame_inv in F3 as [-> H3].
  destruct (H3 _ eq_refl) as (s3 & p48 & i48 & Hs3 & Hc3 & Ho3 & ->).
  simpl in Hs2, Hs3. rewrite Hs1 in Hs2, Hs3.
  injection Hs2 as <-. injection Hs3 as <-.
  simpl in E.
  apply image_save_ico_inv in E as [(e & ? & _)|(ico & Hi & _ & -> & _ & Hsp & Hf)];
    [done|].
  exists s1, p16, p32, p48, i16, i32, i48, ico. eexists. exists w1.
  repeat split; try done.
  rewrite <- E1. f_equal. unfold logged. simpl. f_equal.
  by rewrite <- !app_assoc.
Qed.

Lemma image_save_ico_frame Image im fp sizes append_images :
  always (frame (eq fp)) (image_save_ico Image im fp sizes append_images).
Proof.
  intros w r w' E.
  apply image_save_ico_inv in E as [(e & _ & _ & Ho & Hf)|(ico & _ & _ & -> & _)].
  - split; [done|]. intros p Hp. apply Hf. congruence.
  - split; [done|]. intros p Hp. simpl. by apply lookup_insert_ne.
Qed.

Lemma render_ico_frame cairosvg Image svg_path out_path :
  always (frame (png_footprint out_path))
         (render_ico cairosvg Image svg_path out_path).
Proof.
  rewrite render_ico_unfold. apply always_bind; [apply _| |intros images].
  - apply always_for_each; [apply _|]. intros acc x _.
    eapply always_weaken; [|apply ico_frame_untouched].
    intros w w' H. eapply frame_weaken; [|by apply untouched_frame]. done.
  - apply always_bind; [apply _| |intros _].
    + eapply always_weaken; [|apply mkdir_parents_frame].
      intros w w'. apply frame_weaken. intros p Hp. left. by apply elem_of_prefixes.
    + destruct (images !! O); [|apply always_raise; apply _].
      eapply always_weaken; [|apply image_save_ico_frame].
      intros w w'. apply frame_weaken. intros p <-. by right.
Qed.

(** A successful [render_ico] made four requests and left the container
    in place, in a directory; directories and files that were there are
    still there. *)
Lemma render_ico_ok cairosvg Image svg_path out_path w a w' :
  render_ico cairosvg Image svg_path out_path w = (Ok a, w') ->
  emits [Svg2png svg_path None 16 16; Svg2png svg_path None 32 32;
         Svg2png svg_path None 48 48; SaveIco out_path ico_sizes 2] w w'
  /\ is_file (fs w') out_path
  /\ (forall d, d `prefix_of` Pathlib.parent out_path ->
                 lookup_node (fs w') d = Some Dir)
  /\ dirs_kept w w' /\ files_kept w w'.
Proof.
  intros E. apply render_ico_ok_inv in E
    as (s & p16 & p32 & p48 & i16 & i32 & i48 & ico & w0 & w1 & _ & _ & _ & _
        & _ & _ & _ & _ & Hw0 & Hm & -> & Hsp & Hf).
  assert (dirs_kept w1 (with_fs (logged w1 (SaveIco out_path ico_sizes 2))
                          (<[out_path:=File ico]> (fs w1)))) as Hd.
  { intros d Hd. simpl. destruct (decide (out_path = d)) as [<-|Hne].
    - rewrite lookup_node_plain in Hd by done. contradiction.
    - by rewrite lookup_node_insert_ne. }
  assert (files_kept w1 (with_fs (logged w1 (SaveIco out_path ico_sizes 2))
                           (<[out_path:=File ico]> (fs w1)))) as Hfk.
  { intros q [c Hq]. unfold is_file. simpl.
    destruct (decide (out_path = q)) as [<-|Hne].
    - rewrite lookup_insert_eq. eauto.
    - rewrite lookup_insert_ne by done. eauto. }
  repeat split.
  - apply mkdir_parents_silent in Hm. unfold emits, silent in *. simpl.
    rewrite Hm, Hw0. simpl. by rewrite <- app_assoc.
  - exists ico. simpl. apply lookup_insert_eq.
  - intros d Hd'. apply Hd. eapply mkdir_parents_ok; eauto.
  - intros d Hd'. apply Hd. eapply mkdir_parents_dirs; [exact Hm|].
    by rewrite Hw0.
  - intros q Hq. apply Hfk. eapply mkdir_parents_files; [exact Hm|].
    by rewrite Hw0.
Qed.

(** When one step of a loop whose steps leave the file system alone is
    bound to raise, the loop raises. *)
Lemma for_each_raises {A B} (l : list A) (body : B -> A -> M B) (x : A) w :
  (forall acc y, always untouched (body acc y)) ->
  x ∈ l ->
  (forall acc w0, fs w0 = fs w -> exists e w1, body acc x w0 = (Raised e, w1)) ->
  forall acc w0, fs w0 = fs w ->
    exists e w1, for_each l acc body w0 = (Raised e, w1).
Proof.
  intros Hb Hx Hr. induction l as [|y l IH]; intros acc w0 Hw0; simpl.
  - by apply elem_of_nil in Hx.
  - destruct (body acc y w0) as [[acc'|e] w1] eqn:E.
    + rewrite (bind_step _ _ _ _ _ E).
      apply elem_of_cons in Hx as [->|Hx].
      * destruct (Hr acc w0 Hw0) as (e & w2 & E'). congruence.
      * apply IH; [done|]. apply Hb in E as (Hf & _). congruence.
    + rewrite (bind_raised _ _ _ _ _ E). eauto.
Qed.

(** *** The favicon rewriter *)

Lemma read_text_inv p w r w' :
  read_text p w = (r, w') ->
  w' = w
  /\ forall s, r = Ok s ->
       exists b d, lookup_node (fs w) p = Some (File b)
                   /\ Utf8.decode b = Some d /\ s = universal_newlines d.
Proof.
  unfold read_text, mbind, M_bind.
  destruct (read_bytes p w) as [[b|e] w1] eqn:E;
    apply read_bytes_inv in E as [-> Hb].
  - destruct (Utf8.decode b) as [d|] eqn:Ed; intros [= <- <-]; split; try done.
    intros ? [= <-]. exists b, d. auto.
  - intros [= <- <-]. by split.
Qed.

Lemma write_text_frame p s : always (frame (eq p)) (write_text p s).
Proof.
  unfold write_text. apply always_bind; [apply _|apply write_bytes_frame|intros _].
  destruct (Utf8.encode s); [apply write_bytes_frame|apply always_raise; apply _].
Qed.

Lemma write_text_silent p s : always silent (write_text p s).
Proof.
  unfold write_text. apply always_bind; [apply _|apply write_bytes_silent|intros _].
  destruct (Utf8.encode s); [apply write_bytes_silent|apply always_raise; apply _].
Qed.

Lemma copyfile_frame src dst : always (frame (eq dst)) (copyfile src dst).
Proof.
  unfold copyfile. apply always_bind; [apply _| |intros there].
  - intros w r w' [= <- <-]. reflexivity.
  - destruct (_ && _); [apply always_raise; apply _|].
    apply always_bind; [apply _| |intros b; apply write_bytes_frame].
    intros w r w' E. apply read_bytes_inv in E as [-> _]. reflexivity.
Qed.

Lemma copyfile_silent src dst : always silent (copyfile src dst).
Proof.
  unfold copyfile. apply always_bind; [apply _| |intros there].
  - intros w r w' [= <- <-]. reflexivity.
  - destruct (_ && _); [apply always_raise; apply _|].
    apply always_bind; [apply _| |intros b; apply write_bytes_silent].
    intros w r w' E. apply read_bytes_inv in E as [-> _]. reflexivity.
Qed.

(** The copy, when it can be made: the destination is not the source, is
    not a directory, and its directory is there. *)
Lemma copyfile_ok src dst b w :
  lookup_node (fs w) src = Some (File b) ->
  src <> dst ->
  lookup_node (fs w) (Pathlib.parent dst) = Some Dir ->
  lookup_node (fs w) dst <> Some Dir ->
  copyfile src dst w = (Ok tt, with_fs w (<[dst := File b]> (fs w))).
Proof.
  intros Hs Hne Hd Hn. unfold copyfile, mbind, M_bind, exists_.
  rewrite bool_decide_eq_false_2 by done. simpl.
  unfold read_bytes. rewrite Hs. by apply write_bytes_ok.
Qed.

Lemma copyfile_same p w :
  is_Some (lookup_node (fs w) p) -> copyfile p p w = (Raised SameFileError, w).
Proof.
  intros H. unfold copyfile, mbind, M_bind, exists_.
  rewrite bool_decide_eq_true_2 by done. by rewrite bool_decide_eq_true_2.
Qed.

Lemma copyfile_no_directory src dst b w :
  lookup_node (fs w) src = Some (File b) ->
  src <> dst ->
  lookup_node (fs w) (Pathlib.parent dst) = None ->
  lookup_node (fs w) dst = None ->
  copyfile src dst w = (Raised FileNotFoundError, w).
Proof.
  intros Hs Hne Hd Hn. unfold copyfile, mbind, M_bind, exists_.
  rewrite bool_decide_eq_false_2 by done. simpl.
  unfold read_bytes. rewrite Hs. unfold write_bytes. by rewrite Hn, Hd.
Qed.

Lemma set_attribute_pure name size updated w r w' :
  set_attribute name size updated w = (r, w') -> w' = w.
Proof.
  unfold set_attribute.
  destruct (Re.search _ _ _) as [[m|]|]; [| |by intros [= _ <-]].
  - destruct (Re.sub _ _ _); by intros [= _ <-].
  - destruct (endswith _ _); by intros [= _ <-].
Qed.

(** On the fallback branch the rewriter is [shutil.copyfile]. *)
Lemma write_favicon_svg_fallback svg_path out_path size content w :
  read_text svg_path w = (Ok content, w) ->
  Re.search true "<svg\\b[^>]*>" content = Some None ->
  write_favicon_svg svg_path out_path size w = copyfile svg_path out_path w.
Proof.
  intros Hr Hs. unfold write_favicon_svg.
  rewrite (bind_step _ _ _ _ _ Hr). by rewrite Hs.
Qed.

Lemma write_favicon_svg_silent svg_path out_path size :
  always silent (write_favicon_svg svg_path out_path size).
Proof.
  unfold write_favicon_svg. apply always_bind; [apply _| |intros content].
  { intros w r w' E. apply read_text_inv in E as [-> _]. reflexivity. }
  destruct (Re.search _ _ _) as [[[b e]|]|];
    [|apply copyfile_silent|apply always_raise; apply _].
  apply always_bind; [apply _| |intros u1].
  { intros w r w' E. apply set_attribute_pure in E as ->. reflexivity. }
  apply always_bind; [apply _| |intros u2].
  { intros w r w' E. apply set_attribute_pure in E as ->. reflexivity. }
  apply always_bind; [apply _|apply mkdir_parents_silent|intros _].
  apply write_text_silent.
Qed.

(** Where the directory of the destination is in place, the rewriter
    touches the destination only. *)
Lemma write_favicon_svg_only_dst svg_path out_path size w r w' :
  (forall d, d `prefix_of` Pathlib.parent out_path ->
             lookup_node (fs w) d = Some Dir) ->
  write_favicon_svg svg_path out_path size w = (r, w') ->
  frame (eq out_path) w w'.
Proof.
  intros Hd. unfold write_favicon_svg.
  destruct (read_text svg_path w) as [[content|e] w1] eqn:Er;
    apply read_text_inv in Er as Hw; destruct Hw as [-> _].
  2:{ rewrite (bind_raised _ _ _ _ _ Er). intros [= _ <-]. reflexivity. }
  rewrite (bind_step _ _ _ _ _ Er).
  destruct (Re.search _ _ _) as [[[b e]|]|];
    [|apply copyfile_frame|intros [= _ <-]; reflexivity].
  destruct (set_attribute "width" size (slice b e content) w)
    as [[u1|e1] w1] eqn:E1; apply set_attribute_pure in E1 as Hw; subst w1.
  2:{ rewrite (bind_raised _ _ _ _ _ E1). intros [= _ <-]. reflexivity. }
  rewrite (bind_step _ _ _ _ _ E1).
  destruct (set_attribute "height" size u1 w)
    as [[u2|e2] w1] eqn:E2; apply set_attribute_pure in E2 as Hw; subst w1.
  2:{ rewrite (bind_raised _ _ _ _ _ E2). intros [= _ <-]. reflexivity. }
  rewrite (bind_step _ _ _ _ _ E2).
  rewrite (bind_step _ _ _ _ _ (mkdir_parents_noop _ _ Hd)).
  apply write_text_frame.
Qed.

(** *** What the tag pattern asks for *)

(** The pattern of [write_favicon_svg] as [re] reads it: after [<svg], in
    either case, come a backslash and a [b]. *)
Definition svg_tag_pattern : Re.pattern := [
  Re.One (Re.OneOf [60]);
  Re.One (Re.OneOf [115; 83; 383]);
  Re.One (Re.OneOf [118; 86]);
  Re.One (Re.OneOf [103; 71]);
  Re.One (Re.OneOf [92]);
  Re.One (Re.OneOf [98; 66]);
  Re.Star (Re.NoneOf [62]);
  Re.One (Re.OneOf [62])
].

Lemma svg_tag_compiled : Re.compile true "<svg\\b[^>]*>" = Some svg_tag_pattern.
Proof. reflexivity. Qed.

Definition no_backslash (s : str) : Prop := Forall (fun c => c <> 92) s.

Lemma match_here_no_backslash s :
  no_backslash s -> Re.match_here svg_tag_pattern s = None.
Proof.
  intros H. unfold svg_tag_pattern.
  destruct s as [|c0 [|c1 [|c2 [|c3 [|c4 s]]]]].
  6:{ do 4 apply Forall_cons_1 in H as [_ H]. apply Forall_cons_1 in H as [H _].
      apply N.eqb_neq in H. cbn [Re.match_here Re.in_class existsb].
      rewrite H. cbn [orb].
      repeat (match goal with
              | |- context [if ?b then _ else _] => destruct b
              end; try done). }
  all: cbn [Re.match_here];
    repeat (match goal with
            | |- context [if ?b then _ else _] => destruct b
            end; try done); done.
Qed.

Lemma search_from_no_backslash s pos :
  no_backslash s -> Re.search_from svg_tag_pattern s pos = None.
Proof.
  revert pos. induction s as [|c s IH]; intros pos H; cbn [Re.search_from];
    rewrite match_here_no_backslash by done; [done|].
  apply IH. by apply Forall_cons_1 in H as [_ H].
Qed.

(** A text without a backslash holds no match of the tag pattern. *)
Lemma search_no_backslash content :
  no_backslash content -> Re.search true "<svg\\b[^>]*>" content = Some None.
Proof.
  intros H. unfold Re.search. rewrite svg_tag_compiled. simpl.
  by rewrite search_from_no_backslash.
Qed.

(** *** The orchestrator *)

Lemma resolve_svg_pure script_dir arg_value script_name fallback w :
  exists p, resolve_svg script_dir arg_value script_name fallback w = (Ok p, w).
Proof.
  unfold resolve_svg. destruct (truthy arg_value); [by eexists|].
  unfold mbind, M_bind, exists_. destruct (bool_decide _); by eexists.
Qed.

(** The name of the PNG for a prefix and a size. *)
Definition png_filename (prefix : string) (size : Z) : string :=
  prefix +:+ "-" +:+ format_int size +:+ "x" +:+ format_int size +:+ ".png".

(** The two nested loops of [main] over the table. *)
Definition table_loop (cairosvg : CairoSVG) (avatar_svg out_dir : Path)
  : M (list Path) :=
  for_each DEFAULT_SPECS [] (fun generated '(prefix, sizes) =>
    for_each sizes generated (fun generated size =>
      render_png cairosvg avatar_svg (out_dir // png_filename prefix size) size;;
      mret (generated ++ [out_dir // png_filename prefix size]))).

(** [main] up to and including [render_ico]: nothing when the avatar is
    missing, else the avatar, the output directory and the list of
    generated paths so far. *)
Definition main_common (env : Env) (args : Args)
  : M (option (Path * Path * list Path)) :=
  avatar_svg ← resolve_svg (script_dir env) (avatar_svg args)
                  "logo_thumbnail.svg" "brand-assets/logo_thumbnail.svg";
  extended_light ← resolve_svg (script_dir env) (extended_light args)
                      "logo.svg" "brand-assets/logo.svg";
  extended_dark ← resolve_svg (script_dir env) (extended_dark args)
                     "logo_dark.svg" "brand-assets/logo_dark.svg";
  let out_dir := Pathlib.of_string (out_dir args) in
  avatar_there ← exists_ avatar_svg;
  if negb avatar_there then
    print_err "Missing avatar SVG:";;
    print_err (" - " +:+ Pathlib.to_string avatar_svg);;
    mret None
  else
    missing_extended ← for_each [extended_light; extended_dark] []
      (fun missing path =>
         there ← exists_ path;
         mret (if there : bool then missing else missing ++ [path]));
    (if bool_decide (missing_extended = []) then mret tt
     else
       print_err "Warning: extended SVGs not found (will not block icon generation):";;
       for_each missing_extended tt (fun _ path =>
         print_err (" - " +:+ Pathlib.to_string path)));;
    '(cairosvg, Image) ← require_packages env;
    generated ← table_loop cairosvg avatar_svg out_dir;
    render_ico cairosvg Image avatar_svg (out_dir // "favicon.ico");;
    mret (Some (avatar_svg, out_dir, generated ++ [out_dir // "favicon.ico"])).

(** The rest of [main]. *)
Definition main_finish (env : Env) (skip : bool)
    (state : option (Path * Path * list Path)) : M Z :=
  match state with
  | None => mret 1%Z
  | Some (avatar_svg, out_dir, generated) =>
    generated ← (if negb skip then
                   write_favicon_svg avatar_svg (out_dir // "favicon.svg")
                     FAVICON_SVG_SIZE;;
                   mret (generated ++ [out_dir // "favicon.svg"])
                 else mret generated);
    print ("Generated " +:+ format_int (Z.of_nat (length generated))
           +:+ " files in " +:+ Pathlib.to_string (resolve env out_dir));;
    mret 0%Z
  end.

Lemma bind_assoc {A B C} (m : M A) (f : A -> M B) (g : B -> M C) w :
  ((m ≫= f) ≫= g) w = (m ≫= fun a => f a ≫= g) w.
Proof. unfold mbind, M_bind. by destruct (m w) as [[a|e] w1]. Qed.

Lemma bind_cong {A B} (m : M A) (f g : A -> M B) w :
  (forall a w1, f a w1 = g a w1) -> (m ≫= f) w = (m ≫= g) w.
Proof. intros H. unfold mbind, M_bind. destruct (m w) as [[a|e] w1]; auto. Qed.

Lemma main_split env args w :
  main env args w
  = (main_common env args ≫= main_finish env (skip_favicon_svg args)) w.
Proof.
  unfold main, main_common.
  rewrite bind_assoc. apply bind_cong. intros avatar w1.
  rewrite bind_assoc. apply bind_cong. intros light w2.
  rewrite bind_assoc. apply bind_cong. intros dark w3.
  cbv zeta.
  rewrite bind_assoc. apply bind_cong. intros there w4.
  destruct (negb there).
  { rewrite bind_assoc. apply bind_cong. intros _ w5.
    rewrite bind_assoc. apply bind_cong. intros _ w6. done. }
  rewrite bind_assoc. apply bind_cong. intros missing w5.
  rewrite bind_assoc. apply bind_cong. intros _ w6.
  rewrite bind_assoc. apply bind_cong. intros [cairosvg Image] w7.
  rewrite bind_assoc. apply bind_cong. intros generated w8.
  rewrite bind_assoc. apply bind_cong. intros _ w9.
  done.
Qed.

(** The table of [main] as the list of its (file name, size) pairs. *)
Definition png_table : list (string * Z) := [
  ("android-icon-36x36.png", 36); ("android-icon-48x48.png", 48);
  ("android-icon-72x72.png", 72); ("android-icon-96x96.png", 96);
  ("android-icon-144x144.png", 144); ("android-icon-192x192.png", 192);
  ("apple-icon-57x57.png", 57); ("apple-icon-60x60.png", 60);
  ("apple-icon-72x72.png", 72); ("apple-icon-76x76.png", 76);
  ("apple-icon-114x114.png", 114); ("apple-icon-120x120.png", 120);
  ("apple-icon-144x144.png", 144); ("apple-icon-152x152.png", 152);
  ("apple-icon-180x180.png", 180);
  ("favicon-16x16.png", 16); ("favicon-32x32.png", 32);
  ("favicon-96x96.png", 96);
  ("ms-icon-70x70.png", 70); ("ms-icon-144x144.png", 144);
  ("ms-icon-150x150.png", 150)
]%string%Z.

(** The pairs the two loops go through, in their order. *)
Definition table_pairs : list (string * Z) :=
  concat (map (fun '(prefix, sizes) => map (pair prefix) sizes) DEFAULT_SPECS).

Lemma png_table_eq :
  map (fun '(prefix, size) => (png_filename prefix size, size)) table_pairs
  = png_table.
Proof. reflexivity. Qed.

Definition is_plain_name (name : string) : bool :=
  bool_decide (Pathlib.of_string name = [name]) && negb (Pathlib.is_anchor name).

Lemma is_plain_name_spec name : is_plain_name name = true -> plain_name name.
Proof.
  unfold is_plain_name, plain_name. intros H.
  apply andb_true_iff in H as [H1 H2]. apply bool_decide_eq_true in H1.
  by apply negb_true_iff in H2.
Qed.

Definition output_names : list string :=
  map fst png_table ++ ["favicon.ico"; "favicon.svg"]%string.

Lemma output_names_plain : Forall plain_name output_names.
Proof.
  apply Forall_forall. intros name H. apply is_plain_name_spec.
  revert name H. apply Forall_forall. 
  unfold output_names, png_table. simpl. repeat constructor.
Qed.

Lemma output_names_NoDup : NoDup output_names.
Proof. apply (bool_decide_unpack _). by vm_compute. Qed.

Lemma for_each_map {A A' B} (f : A -> A') (l : list A) (acc : B)
    (body : B -> A' -> M B) w :
  for_each (map f l) acc body w = for_each l acc (fun acc x => body acc (f x)) w.
Proof.
  revert acc w. induction l as [|x l IH]; intros acc w; simpl; [done|].
  apply bind_cong. intros. apply IH.
Qed.

Lemma for_each_ext {A B} (l : list A) (acc : B) (body body' : B -> A -> M B) w :
  (forall acc x w, body acc x w = body' acc x w) ->
  for_each l acc body w = for_each l acc body' w.
Proof.
  intros H. revert acc w. induction l as [|x l IH]; intros acc w; simpl; [done|].
  unfold mbind, M_bind. rewrite H. destruct (body' acc x w) as [[a|e] w1]; auto.
Qed.

Lemma bind_cong_l {A B} (m m' : M A) (f : A -> M B) w :
  (forall w1, m w1 = m' w1) -> (m ≫= f) w = (m' ≫= f) w.
Proof. intros H. unfold mbind, M_bind. by rewrite H. Qed.

Lemma for_each_nested {A B C} (outer : list (A * list B))
    (body : A -> C -> B -> M C) (acc : C) w :
  for_each outer acc (fun acc '(a, bs) => for_each bs acc (body a)) w
  = for_each (concat (map (fun '(a, bs) => map (pair a) bs) outer)) acc
      (fun acc '(a, b) => body a acc b) w.
Proof.
  revert acc w. induction outer as [|[a bs] outer IH]; intros acc w; simpl; [done|].
  rewrite for_each_app. symmetry.
  etransitivity; [apply bind_cong_l; intros w1; apply for_each_map|].
  symmetry. apply bind_cong. intros. apply IH.
Qed.

(** One step of the loops of [main], for a file name and a size. *)
Definition png_step (cairosvg : CairoSVG) (avatar_svg out_dir : Path)
    (generated : list Path) (job : string * Z) : M (list Path) :=
  render_png cairosvg avatar_svg (out_dir // job.1) job.2;;
  mret (generated ++ [out_dir // job.1]).

(** The two nested loops are one loop over the 21 pairs of the table. *)
Lemma table_loop_flat cairosvg avatar_svg out_dir w :
  table_loop cairosvg avatar_svg out_dir w
  = for_each png_table [] (png_step cairosvg avatar_svg out_dir) w.
Proof.
  unfold table_loop.
  rewrite (for_each_nested DEFAULT_SPECS
             (fun prefix generated size =>
                render_png cairosvg avatar_svg
                  (out_dir // png_filename prefix size) size;;
                mret (generated ++ [out_dir // png_filename prefix size]))).
  fold table_pairs. rewrite <- png_table_eq, for_each_map.
  apply for_each_ext. by intros acc [prefix size] w1.
Qed.

Definition loop_footprint (out_dir : Path) (l : list (string * Z)) : Path -> Prop :=
  fun p => p `prefix_of` out_dir \/ exists job, job ∈ l /\ p = out_dir // job.1.

Lemma png_step_frame cairosvg avatar_svg out_dir generated job :
  plain_name job.1 ->
  always (frame (fun p => p `prefix_of` out_dir \/ p = out_dir // job.1))
         (png_step cairosvg avatar_svg out_dir generated job).
Proof.
  intros Hn. unfold png_step.
  apply always_bind; [apply _| |intros _; apply always_ret; apply _].
  eapply always_weaken; [|apply render_png_frame].
  intros w w'. apply frame_weaken. intros p [Hp| ->]; [left|by right].
  by rewrite parent_join in Hp.
Qed.

Lemma png_loop_frame cairosvg avatar_svg out_dir l :
  Forall (fun job => plain_name job.1) l ->
  forall acc, always (frame (loop_footprint out_dir l))
                     (for_each l acc (png_step cairosvg avatar_svg out_dir)).
Proof.
  intros Hl. apply always_for_each; [apply _|]. intros acc job Hj.
  eapply always_weaken; [|apply png_step_frame].
  - intros w w'. apply frame_weaken. intros p [Hp| ->]; [by left|].
    right. by exists job.
  - by apply (proj1 (Forall_forall _ _) Hl).
Qed.

(** What a successful run of the loop did: one request and one file per
    pair, in the order of the table. *)
Lemma png_loop_ok cairosvg avatar_svg out_dir l acc w generated w' :
  Forall (fun job => plain_name job.1) l ->
  for_each l acc (png_step cairosvg avatar_svg out_dir) w = (Ok generated, w') ->
  generated = acc ++ map (fun job => out_dir // job.1) l
  /\ emits (map (fun job => Svg2png avatar_svg (Some (out_dir // job.1)) job.2 job.2) l)
           w w'
  /\ (forall job, job ∈ l -> is_file (fs w') (out_dir // job.1))
  /\ (l <> [] -> forall d, d `prefix_of` out_dir -> lookup_node (fs w') d = Some Dir)
  /\ dirs_kept w w' /\ files_kept w w' /\ stdout w' = stdout w.
Proof.
  intros Hl. revert acc w. induction l as [|job l IH]; intros acc w E; simpl in E.
  - injection E as <- <-. rewrite app_nil_r. repeat split; try done.
    + by apply emits_nil.
    + intros job Hj. by apply elem_of_nil in Hj.
  - apply Forall_cons_1 in Hl as [Hn Hl].
    apply bind_ok in E as (acc1 & w1 & E1 & E).
    unfold png_step in E1. apply bind_ok in E1 as ([] & w0 & E1 & E0).
    injection E0 as <- <-.
    apply render_png_ok in E1 as Hok. destruct Hok as (He & Hf & Hd).
    apply render_png_dirs in E1 as Hdk. apply render_png_files in E1 as Hfk.
    apply render_png_frame in E1 as [Hso _].
    rewrite parent_join in Hd by done.
    destruct (IH Hl _ _ E) as (-> & He' & Hf' & _ & Hdk' & Hfk' & Hso').
    repeat split.
    + simpl. by rewrite <- app_assoc.
    + simpl. by apply (emits_trans [_] _ w w0 w').
    + intros j Hj. apply elem_of_cons in Hj as [->|Hj]; [by apply Hfk'|by apply Hf'].
    + intros _ d Hp. by apply Hdk', Hd.
    + by transitivity w0.
    + by transitivity w0.
    + congruence.
Qed.

(** [quiet]: only the standard error may have grown. *)
Definition quiet (w w' : World) : Prop :=
  fs w' = fs w /\ stdout w' = stdout w /\ calls w' = calls w.

#[global] Instance quiet_preorder : PreOrder quiet.
Proof.
  split; [done|]. intros w1 w2 w3 (?&?&?) (?&?&?).
  unfold quiet. repeat split; congruence.
Qed.

Lemma print_err_quiet line : always quiet (print_err line).
Proof. by intros w r w' [= <- <-]. Qed.

Lemma exists_quiet p : always quiet (exists_ p).
Proof. by intros w r w' [= <- <-]. Qed.

Lemma resolve_svg_quiet script_dir arg_value script_name fallback :
  always quiet (resolve_svg script_dir arg_value script_name fallback).
Proof.
  intros w r w' E.
  destruct (resolve_svg_pure script_dir arg_value script_name fallback w) as [p Hp].
  rewrite Hp in E. by injection E as <- <-.
Qed.

Lemma require_packages_quiet env : always quiet (require_packages env).
Proof.
  unfold require_packages.
  destruct (cairosvg_package env); [destruct (pillow_package env)|].
  - apply always_ret; apply _.
  - apply always_bind; [apply _|apply print_err_quiet|intros _].
    apply always_bind; [apply _|apply print_err_quiet|intros _].
    apply always_raise; apply _.
  - apply always_bind; [apply _|apply print_err_quiet|intros _].
    apply always_bind; [apply _|apply print_err_quiet|intros _].
    apply always_raise; apply _.
Qed.

Lemma require_packages_ok env cairosvg Image w w' :
  require_packages env w = (Ok (cairosvg, Image), w') ->
  cairosvg_package env = Some cairosvg /\ pillow_package env = Some Image.
Proof.
  unfold require_packages.
  destruct (cairosvg_package env); [destruct (pillow_package env)|]; try done.
  by intros [= <- <- _].
Qed.

Lemma png_table_plain : Forall (fun job : string * Z => plain_name job.1) png_table.
Proof.
  apply Forall_forall. intros job Hj.
  apply (proj1 (Forall_forall _ _) output_names_plain).
  unfold output_names. apply elem_of_app. left. by apply list_elem_of_fmap_2.
Qed.

Lemma favicon_ico_plain : plain_name "favicon.ico".
Proof. by apply is_plain_name_spec. Qed.

Lemma favicon_svg_plain : plain_name "favicon.svg".
Proof. by apply is_plain_name_spec. Qed.

(** The requests of a complete run, in their order. *)
Definition run_calls (avatar_svg out_dir : Path) : list call :=
  map (fun job : string * Z =>
         Svg2png avatar_svg (Some (out_dir // job.1)) job.2 job.2) png_table
  ++ [Svg2png avatar_svg None 16 16; Svg2png avatar_svg None 32 32;
      Svg2png avatar_svg None 48 48;
      SaveIco (out_dir // "favicon.ico") ico_sizes 2].

(** The paths the common part may touch. *)
Definition common_footprint (out_dir : Path) : Path -> Prop :=
  fun p => p `prefix_of` out_dir
           \/ exists name, name ∈ map fst png_table ++ ["favicon.ico"%string]
                           /\ p = out_dir // name.

Lemma main_common_frame env args :
  always (frame (common_footprint (Pathlib.of_string (out_dir args))))
         (main_common env args).
Proof.
  set (S := common_footprint _).
  assert (forall A (m : M A), always quiet m -> always (frame S) m) as Hq.
  { intros A m H. eapply always_weaken; [|exact H].
    intros w w' (Hf & Ho & _). split; [done|]. intros p _. by rewrite Hf. }
  unfold main_common.
  apply always_bind; [apply _|apply Hq, resolve_svg_quiet|intros avatar].
  apply always_bind; [apply _|apply Hq, resolve_svg_quiet|intros light].
  apply always_bind; [apply _|apply Hq, resolve_svg_quiet|intros dark].
  cbv zeta.
  apply always_bind; [apply _|apply Hq, exists_quiet|intros there].
  destruct (negb there).
  { apply always_bind; [apply _|apply Hq, print_err_quiet|intros _].
    apply always_bind; [apply _|apply Hq, print_err_quiet|intros _].
    apply always_ret; apply _. }
  apply always_bind; [apply _| |intros missing].
  { apply always_for_each; [apply _|]. intros acc p _.
    apply always_bind; [apply _|apply Hq, exists_quiet|intros ?].
    apply always_ret; apply _. }
  apply always_bind; [apply _| |intros _].
  { destruct (bool_decide _); [apply always_ret; apply _|].
    apply always_bind; [apply _|apply Hq, print_err_quiet|intros _].
    apply always_for_each; [apply _|]. intros. apply Hq, print_err_quiet. }
  apply always_bind; [apply _|apply Hq, require_packages_quiet|intros [cairosvg Image]].
  apply always_bind; [apply _| |intros generated].
  { intros w r w' E. rewrite table_loop_flat in E.
    eapply frame_weaken; [|eapply png_loop_frame; [apply png_table_plain|exact E]].
    intros p [Hp|(job & Hj & ->)]; [by left|right].
    exists job.1. split; [|done]. apply elem_of_app. left.
    by apply list_elem_of_fmap_2. }
  apply always_bind; [apply _| |intros _; apply always_ret; apply _].
  eapply always_weaken; [|apply render_ico_frame].
  intros w w'. apply frame_weaken. intros p [Hp| ->].
  - left. by rewrite parent_join in Hp by apply favicon_ico_plain.
  - right. exists "favicon.ico"%string. split; [|done].
    apply elem_of_app. right. by apply list_elem_of_singleton.
Qed.

(** What the common part did when it went through. *)
Lemma main_common_ok env args w avatar out generated w' :
  main_common env args w = (Ok (Some (avatar, out, generated)), w') ->
  resolve_svg (script_dir env) (avatar_svg args) "logo_thumbnail.svg"
    "brand-assets/logo_thumbnail.svg" w = (Ok avatar, w)
  /\ is_Some (lookup_node (fs w) avatar)
  /\ out = Pathlib.of_string (out_dir args)
  /\ generated = map (fun job : string * Z => out // job.1) png_table
                 ++ [out // "favicon.ico"]
  /\ emits (run_calls avatar out) w w'
  /\ stdout w' = stdout w
  /\ (forall d, d `prefix_of` out -> lookup_node (fs w') d = Some Dir)
  /\ (forall name, name ∈ map fst png_table ++ ["favicon.ico"%string] ->
                   is_file (fs w') (out // name)).
Proof.
  unfold main_common. intros E.
  apply bind_ok in E as (a & w1 & E1 & E).
  apply resolve_svg_quiet in E1 as Hw1.
  destruct (resolve_svg_pure (script_dir env) (avatar_svg args)
              "logo_thumbnail.svg" "brand-assets/logo_thumbnail.svg" w) as [a' Ha].
  rewrite Ha in E1. injection E1 as -> <-. clear Hw1.
  apply bind_ok in E as (light & w2 & E2 & E).
  apply resolve_svg_quiet in E2 as Hw2.
  apply bind_ok in E as (dark & w3 & E3 & E).
  apply resolve_svg_quiet in E3 as Hw3.
  cbv zeta in E.
  apply bind_ok in E as (there & w4 & E4 & E).
  injection E4 as Eb <-.
  assert (quiet w w3) as Q3 by (by transitivity w2).
  destruct there; cbn [negb] in E.
  2:{ apply bind_ok in E as (? & ? & _ & E). apply bind_ok in E as (? & ? & _ & E).
      done. }
  apply bool_decide_eq_true in Eb.
  apply bind_ok in E as (missing & w5 & E5 & E).
  assert (quiet w3 w5) as Q5.
  { eapply (always_for_each quiet); [|exact E5]. intros acc p _.
    apply always_bind; [apply _|apply exists_quiet|intros ?].
    apply always_ret; apply _. }
  apply bind_ok in E as ([] & w6 & E6 & E).
  assert (quiet w5 w6) as Q6.
  { revert E6. destruct (bool_decide _); [by intros [= <-]|].
    apply always_bind; [apply _|apply print_err_quiet|intros _].
    apply always_for_each; [apply _|]. intros. apply print_err_quiet. }
  apply bind_ok in E as ([cairosvg Image] & w7 & E7 & E).
  apply require_packages_quiet in E7 as Q7.
  apply bind_ok in E as (g & w8 & E8 & E).
  apply bind_ok in E as ([] & w9 & E9 & E).
  injection E as <- <- <- <-.
  assert (quiet w w7) as (Qf & Qo & Qc).
  { transitivity w3; [done|]. transitivity w5; [done|]. by transitivity w6. }
  rewrite table_loop_flat in E8.
  apply png_loop_ok in E8 as (-> & He & Hf & _ & _ & _ & Hso); [|apply png_table_plain].
  apply render_ico_frame in E9 as Hfr. destruct Hfr as [Hso' _].
  apply render_ico_ok in E9 as (He' & Hi & Hd & _ & Hfk).
  rewrite parent_join in Hd by apply favicon_ico_plain.
  destruct Q3 as (Q3f & _). rewrite Q3f in Eb.
  repeat split; try done.
  - unfold run_calls. eapply emits_trans; [|exact He'].
    unfold emits in *. by rewrite He, Qc.
  - congruence.
  - intros name Hn. apply elem_of_app in Hn as [Hn|Hn].
    + apply list_elem_of_fmap in Hn as (job & -> & Hj). by apply Hfk, Hf.
    + apply list_elem_of_singleton in Hn as ->. done.
Qed.

(* ===================================================================== *)
(** ** Concrete worlds                                                    *)
(* ===================================================================== *)

(** A converter that answers with a label of the requested size, one that
    fails on the 32 pixel frame, and an image package that keeps the PNG
    data as the image and concatenates the frames. *)
Definition demo_cairosvg : CairoSVG :=
  {| convert := fun _ w h =>
       Some (bytes_of_string ("PNG " +:+ format_int w +:+ "x" +:+ format_int h)) |}.

Definition demo_cairosvg_failing : CairoSVG :=
  {| convert := fun _ w h =>
       if (w =? 32)%Z then None
       else Some (bytes_of_string ("PNG " +:+ format_int w +:+ "x" +:+ format_int h)) |}.

Definition demo_pillow : PILImage :=
  {| Img := bytes;
     open_image := Some;
     encode_ico := fun im _ appended => Some (im ++ concat appended) |}.

Definition demo_env : Env :=
  {| script_dir := ["/"; "repo"; "scripts"]%string;
     cwd := ["/"; "repo"]%string;
     cairosvg_package := Some demo_cairosvg;
     pillow_package := Some demo_pillow |}.

Definition demo_args (skip : bool) : Args :=
  {| avatar_svg := Some "logo.svg"%string;
     extended_light := None;
     extended_dark := None;
     out_dir := "out"%string;
     skip_favicon_svg := skip |}.

Definition default_args : Args :=
  {| avatar_svg := None;
     extended_light := None;
     extended_dark := None;
     out_dir := "."%string;
     skip_favicon_svg := false |}.

(** An SVG whose root tag declares a width and a height of 200, and one
    whose root tag declares neither. *)
Definition sized_svg : string :=
  "<svg xmlns=" +:+ quote +:+ "http://www.w3.org/2000/svg" +:+ quote
  +:+ " width=" +:+ quote +:+ "200" +:+ quote
  +:+ " height=" +:+ quote +:+ "200" +:+ quote
  +:+ "><circle r=" +:+ quote +:+ "9" +:+ quote +:+ "/></svg>".

Definition unsized_svg : string :=
  "<svg viewBox=" +:+ quote +:+ "0 0 100 100" +:+ quote
  +:+ "><circle r=" +:+ quote +:+ "9" +:+ quote +:+ "/></svg>".

Definition empty_world : World := mkWorld ∅ [] [] [].

(** A world whose only file is [name], in the working directory. *)
Definition world_with (name : string) (doc : string) : World :=
  mkWorld {[ [name] := File (bytes_of_string doc) ]} [] [] [].

(** The same, with a directory [out] beside it. *)
Definition world_with_out (name : string) (doc : string) : World :=
  mkWorld (<[ ["out"%string] := Dir ]>
             {[ [name] := File (bytes_of_string doc) ]}) [] [] [].

(* ===================================================================== *)
(** ** The claims                                                         *)
(* ===================================================================== *)

(** C3. When the resolved avatar path does not exist, the program ends
    with exit status 1 after two lines on the standard error, and leaves
    the file system, the standard output and the record of rendering
    requests as they were: it writes no file. *)
Theorem missing_avatar_exits_1 env args w avatar :
  resolve_svg (script_dir env) (avatar_svg args) "logo_thumbnail.svg"
    "brand-assets/logo_thumbnail.svg" w = (Ok avatar, w) ->
  lookup_node (fs w) avatar = None ->
  run env args w
  = (1%Z, {| fs := fs w; stdout := stdout w;
             stderr := stderr w ++ ["Missing avatar SVG:"%string;
                                    " - " +:+ Pathlib.to_string avatar];
             calls := calls w |}).
Proof.
  intros Ha Hn. unfold run. rewrite main_split. unfold main_common.
  rewrite bind_assoc, (bind_step _ _ _ _ _ Ha).
  destruct (resolve_svg_pure (script_dir env) (extended_light args)
              "logo.svg" "brand-assets/logo.svg" w) as [light Hl].
  rewrite bind_assoc, (bind_step _ _ _ _ _ Hl).
  destruct (resolve_svg_pure (script_dir env) (extended_dark args)
              "logo_dark.svg" "brand-assets/logo_dark.svg" w) as [dark Hd].
  rewrite bind_assoc, (bind_step _ _ _ _ _ Hd).
  cbv zeta. unfold mbind, M_bind, exists_. rewrite Hn.
  rewrite bool_decide_eq_false_2 by (by intros [? ?]).
  simpl. by rewrite <- app_assoc.
Qed.

Lemma missing_avatar_exits_1_witness :
  run demo_env default_args empty_world
  = (1%Z, mkWorld ∅ [] ["Missing avatar SVG:"%string;
                        " - brand-assets/logo_thumbnail.svg"%string] []).
Proof.
  apply (missing_avatar_exits_1 demo_env default_args empty_world
           ["brand-assets"; "logo_thumbnail.svg"]%string); reflexivity.
Defined.

(** C9. The path resolver returns the explicit value, as a path, when one
    is given and is not empty, whatever the file system holds; otherwise
    the conventional file name in the directory of the script when that
    file exists; otherwise the fallback path it was given (the conventional
    subdirectory joined with the conventional file name), whether or not
    that exists.  It changes nothing. *)
Theorem resolve_svg_order script_dir arg_value script_name fallback w :
  (forall s, arg_value = Some s -> s <> EmptyString ->
     resolve_svg script_dir arg_value script_name fallback w
     = (Ok (Pathlib.of_string s), w))
  /\ (arg_value = None \/ arg_value = Some EmptyString ->
      is_Some (lookup_node (fs w) (script_dir // script_name)) ->
      resolve_svg script_dir arg_value script_name fallback w
      = (Ok (script_dir // script_name), w))
  /\ (arg_value = None \/ arg_value = Some EmptyString ->
      lookup_node (fs w) (script_dir // script_name) = None ->
      resolve_svg script_dir arg_value script_name fallback w
      = (Ok (Pathlib.of_string fallback), w)).
Proof.
  unfold resolve_svg. repeat split.
  - intros s -> Hs. simpl.
    destruct (String.eqb_spec s EmptyString) as [?|_]; done.
  - intros Ha Hl.
    assert (truthy arg_value = false) as -> by (by destruct Ha as [-> | ->]).
    unfold mbind, M_bind, exists_. by rewrite bool_decide_eq_true_2.
  - intros Ha Hl.
    assert (truthy arg_value = false) as -> by (by destruct Ha as [-> | ->]).
    unfold mbind, M_bind, exists_. rewrite Hl.
    by rewrite bool_decide_eq_false_2 by (by intros [? ?]).
Qed.

Lemma resolve_svg_order_witness :
  resolve_svg ["/"; "repo"; "scripts"]%string (Some "art/logo.svg"%string)
    "logo.svg" "brand-assets/logo.svg" empty_world
  = (Ok ["art"; "logo.svg"]%string, empty_world)
  /\ resolve_svg [] None "logo.svg" "brand-assets/logo.svg"
       (world_with "logo.svg" unsized_svg)
     = (Ok ["logo.svg"%string], world_with "logo.svg" unsized_svg)
  /\ resolve_svg [] (Some EmptyString) "logo.svg" "brand-assets/logo.svg"
       empty_world
     = (Ok ["brand-assets"; "logo.svg"]%string, empty_world).
Proof.
  split; [|split].
  - apply (proj1 (resolve_svg_order ["/"; "repo"; "scripts"]%string
                    (Some "art/logo.svg"%string) "logo.svg"
                    "brand-assets/logo.svg" empty_world)
             "art/logo.svg"%string); [reflexivity|discriminate].
  - apply (proj1 (proj2 (resolve_svg_order [] None "logo.svg"
                           "brand-assets/logo.svg"
                           (world_with "logo.svg" unsized_svg))));
      [by left|eexists; reflexivity].
  - apply (proj2 (proj2 (resolve_svg_order [] (Some EmptyString) "logo.svg"
                           "brand-assets/logo.svg" empty_world)));
      [by right|reflexivity].
Defined.

(** The fallbacks [main] passes are the conventional subdirectory joined
    with the conventional file names. *)
Lemma main_fallbacks_joined :
  Pathlib.of_string "brand-assets/logo_thumbnail.svg"
  = Pathlib.of_string "brand-assets" // "logo_thumbnail.svg"
  /\ Pathlib.of_string "brand-assets/logo.svg"
     = Pathlib.of_string "brand-assets" // "logo.svg"
  /\ Pathlib.of_string "brand-assets/logo_dark.svg"
     = Pathlib.of_string "brand-assets" // "logo_dark.svg".
Proof. by repeat split. Qed.

(** Whether a conversion raises depends on the file system only. *)
Lemma svg2png_raises_fs cairosvg url x y w w0 e w1 :
  fs w0 = fs w ->
  svg2png cairosvg url None x y w = (Raised e, w1) ->
  exists w1', svg2png cairosvg url None x y w0 = (Raised e, w1').
Proof.
  intros Hf. unfold svg2png, mbind, M_bind, record, read_bytes. simpl.
  rewrite Hf. destruct (lookup_node (fs w) url) as [[source|]|];
    try (intros [= <- _]; eauto).
  destruct (convert cairosvg source x y); [done|].
  intros [= <- _]. eauto.
Qed.

(** C10. If the conversion of one of the three frames raises, [render_ico]
    raises and the file system is the one it started in: the destination
    is not created, and neither is its directory.  Nothing is printed. *)
Theorem render_ico_failure_writes_nothing cairosvg Image svg_path out_path
    size w e0 w0 :
  size ∈ FAVICON_ICO_SIZES ->
  svg2png cairosvg svg_path None size size w = (Raised e0, w0) ->
  exists e w',
    render_ico cairosvg Image svg_path out_path w = (Raised e, w')
    /\ fs w' = fs w /\ stdout w' = stdout w /\ stderr w' = stderr w.
Proof.
  intros Hs Hr. rewrite render_ico_unfold.
  destruct (for_each_raises FAVICON_ICO_SIZES
              (ico_frame cairosvg Image svg_path) size w) with (acc := @nil (Img Image)) (w0 := w)
    as (e & w' & E); try done.
  - intros. apply ico_frame_untouched.
  - intros acc w1 Hw1.
    destruct (svg2png_raises_fs _ _ _ _ _ _ _ _ Hw1 Hr) as [w1' E'].
    exists e0, w1'. unfold ico_frame. by rewrite (bind_raised _ _ _ _ _ E').
  - exists e, w'. rewrite (bind_raised _ _ _ _ _ E). split; [done|].
    eapply (always_for_each untouched); [|exact E].
    intros. apply ico_frame_untouched.
Qed.

Lemma render_ico_failure_writes_nothing_witness :
  32%Z ∈ FAVICON_ICO_SIZES
  /\ exists e w',
       render_ico demo_cairosvg_failing demo_pillow ["logo.svg"%string]
         ["out"; "favicon.ico"]%string (world_with "logo.svg" unsized_svg)
       = (Raised e, w')
       /\ fs w' = fs (world_with "logo.svg" unsized_svg)
       /\ stdout w' = [] /\ stderr w' = [].
Proof.
  split; [by vm_compute; repeat constructor|].
  eapply (render_ico_failure_writes_nothing demo_cairosvg_failing demo_pillow
            ["logo.svg"%string] ["out"; "favicon.ico"]%string 32
            (world_with "logo.svg" unsized_svg)).
  - repeat constructor.
  - reflexivity.
Defined.

(** C5, where the code departs from it.  A successful [render_ico] has
    converted the source three times, to 16, 32 and 48 pixels in this
    order, each time asking for the PNG data back and not for a file, has
    opened the three PNGs as images, and has saved one container at the
    destination: this much is as specified.  But the image it saves is
    [images[0]], the 16 pixel one, with the three sizes and the other two
    images appended, and Pillow's encoder gives no frame to a size larger
    than the image being saved: of the three sizes only 16 by 16 is kept,
    and the container holds one resolution, not three.  Saved from the 48
    pixel image, the last of the list, it would hold all three.  (A
    converter and an image package that respect the requested size are
    assumed: [size_of] is the size of an opened image.) *)
Theorem ico_embeds_only_smallest cairosvg Image (size_of : Img Image -> Z * Z)
    svg_path out_path w w' :
  (forall source size png im,
     size ∈ FAVICON_ICO_SIZES ->
     convert cairosvg source size size = Some png ->
     open_image Image png = Some im ->
     size_of im = (size, size)) ->
  render_ico cairosvg Image svg_path out_path w = (Ok tt, w') ->
  exists source p16 p32 p48 (i16 i32 i48 : Img Image) ico,
    lookup_node (fs w) svg_path = Some (File source)
    /\ convert cairosvg source 16 16 = Some p16
    /\ convert cairosvg source 32 32 = Some p32
    /\ convert cairosvg source 48 48 = Some p48
    /\ open_image Image p16 = Some i16
    /\ open_image Image p32 = Some i32
    /\ open_image Image p48 = Some i48
    /\ size_of i16 = (16, 16)%Z
    /\ size_of i32 = (32, 32)%Z
    /\ size_of i48 = (48, 48)%Z
    /\ calls w' = calls w ++ [Svg2png svg_path None 16 16;
                              Svg2png svg_path None 32 32;
                              Svg2png svg_path None 48 48;
                              SaveIco out_path [(16, 16); (32, 32); (48, 48)]%Z 2]
    /\ encode_ico Image i16 [(16, 16); (32, 32); (48, 48)]%Z [i32; i48] = Some ico
    /\ fs w' !! out_path = Some (File ico)
    /\ (forall p, p <> out_path ->
          fs w' !! p = fs w !! p
          \/ (fs w !! p = None /\ fs w' !! p = Some Dir))
    /\ Pillow.ico_frame_sizes (size_of i16) [(16, 16); (32, 32); (48, 48)]%Z
       = [(16, 16)]%Z
    /\ Pillow.ico_frame_sizes (size_of i48) [(16, 16); (32, 32); (48, 48)]%Z
       = [(16, 16); (32, 32); (48, 48)]%Z.
Proof.
  intros Hsize E. apply render_ico_ok_inv in E
    as (s & p16 & p32 & p48 & i16 & i32 & i48 & ico & w0 & w1 & Hs & H16 & H32
        & H48 & O16 & O32 & O48 & Hi & Hw0 & Hm & -> & _).
  assert (size_of i16 = (16, 16)%Z) as S16.
  { apply (Hsize s 16%Z p16); [|done|done]. by left. }
  assert (size_of i32 = (32, 32)%Z) as S32.
  { apply (Hsize s 32%Z p32); [|done|done]. right. by left. }
  assert (size_of i48 = (48, 48)%Z) as S48.
  { apply (Hsize s 48%Z p48); [|done|done]. right. right. by left. }
  exists s, p16, p32, p48, i16, i32, i48, ico.
  repeat (split; [done|]). split; [|split; [done|split; [|split; [|split]]]].
  - simpl. apply mkdir_parents_silent in Hm. unfold silent in Hm.
    rewrite Hm, Hw0. simpl. by rewrite <- app_assoc.
  - simpl. apply lookup_insert_eq.
  - intros p Hp. simpl. rewrite lookup_insert_ne by done.
    apply mkdir_parents_grows in Hm. specialize (Hm p). by rewrite Hw0 in Hm.
  - by rewrite S16.
  - by rewrite S48.
Qed.

(** The size of the images the demonstration converter draws. *)
Definition demo_size_of (im : bytes) : Z * Z :=
  if decide (im = bytes_of_string "PNG 16x16") then (16, 16)%Z
  else if decide (im = bytes_of_string "PNG 32x32") then (32, 32)%Z
  else (48, 48)%Z.

Lemma ico_embeds_only_smallest_witness :
  let w := world_with "logo.svg" unsized_svg in
  let w' := (render_ico demo_cairosvg demo_pillow ["logo.svg"%string]
               ["out"; "favicon.ico"]%string w).2 in
  exists source p16 p32 p48 (i16 i32 i48 : Img demo_pillow) ico,
    lookup_node (fs w) ["logo.svg"%string] = Some (File source)
    /\ convert demo_cairosvg source 16 16 = Some p16
    /\ convert demo_cairosvg source 32 32 = Some p32
    /\ convert demo_cairosvg source 48 48 = Some p48
    /\ open_image demo_pillow p16 = Some i16
    /\ open_image demo_pillow p32 = Some i32
    /\ open_image demo_pillow p48 = Some i48
    /\ demo_size_of i16 = (16, 16)%Z
    /\ demo_size_of i32 = (32, 32)%Z
    /\ demo_size_of i48 = (48, 48)%Z
    /\ calls w'
       = calls w ++ [Svg2png ["logo.svg"%string] None 16 16;
                     Svg2png ["logo.svg"%string] None 32 32;
                     Svg2png ["logo.svg"%string] None 48 48;
                     SaveIco ["out"; "favicon.ico"]%string
                       [(16, 16); (32, 32); (48, 48)]%Z 2]
    /\ encode_ico demo_pillow i16 [(16, 16); (32, 32); (48, 48)]%Z [i32; i48]
       = Some ico
    /\ fs w' !! ["out"; "favicon.ico"]%string = Some (File ico)
    /\ (forall p, p <> ["out"; "favicon.ico"]%string ->
          fs w' !! p = fs w !! p
          \/ (fs w !! p = None /\ fs w' !! p = Some Dir))
    /\ Pillow.ico_frame_sizes (demo_size_of i16) [(16, 16); (32, 32); (48, 48)]%Z
       = [(16, 16)]%Z
    /\ Pillow.ico_frame_sizes (demo_size_of i48) [(16, 16); (32, 32); (48, 48)]%Z
       = [(16, 16); (32, 32); (48, 48)]%Z.
Proof.
  intros w w'. subst w'.
  apply (ico_embeds_only_smallest demo_cairosvg demo_pillow demo_size_of
           ["logo.svg"%string] ["out"; "favicon.ico"]%string w).
  - intros source size png im Hin Hc Ho. simpl in Ho. injection Ho as <-.
    unfold FAVICON_ICO_SIZES in Hin.
    apply elem_of_cons in Hin as [->|Hin]; [by injection Hc as <-|].
    apply elem_of_cons in Hin as [->|Hin]; [by injection Hc as <-|].
    apply list_elem_of_singleton in Hin as ->. by injection Hc as <-.
  - apply (ok_result (render_ico demo_cairosvg demo_pillow ["logo.svg"%string]
                        ["out"; "favicon.ico"]%string) w tt).
    vm_compute. reflexivity.
Defined.

(** *** The end of the run *)

(** The line a complete run prints. *)
Definition summary (env : Env) (out_dir : Path) (n : nat) : string :=
  "Generated " +:+ format_int (Z.of_nat n) +:+ " files in "
  +:+ Pathlib.to_string (resolve env out_dir).

Definition printed (w : World) (line : string) : World :=
  {| fs := fs w; stdout := stdout w ++ [line]; stderr := stderr w;
     calls := calls w |}.

(** With the flag set, the rest of the run only prints. *)
Lemma main_finish_skip env avatar out generated w :
  main_finish env true (Some (avatar, out, generated)) w
  = (Ok 0%Z, printed w (summary env out (length generated))).
Proof. reflexivity. Qed.

(** Without it, the rest of the run writes [favicon.svg] and, when that
    went through, prints a count that is one higher. *)
Lemma main_finish_noskip env avatar out generated w r w' :
  (forall d, d `prefix_of` out -> lookup_node (fs w) d = Some Dir) ->
  main_finish env false (Some (avatar, out, generated)) w = (r, w') ->
  (forall p, p <> out // "favicon.svg" -> fs w' !! p = fs w !! p)
  /\ calls w' = calls w
  /\ (forall status, r = Ok status ->
        status = 0%Z
        /\ stdout w' = stdout w ++ [summary env out (S (length generated))]).
Proof.
  intros Hd. unfold main_finish. cbn [negb].
  destruct (write_favicon_svg avatar (out // "favicon.svg") FAVICON_SVG_SIZE w)
    as [[[]|e] w1] eqn:E;
    apply write_favicon_svg_silent in E as Hs;
    apply write_favicon_svg_only_dst in E as Hfr;
    try (by rewrite parent_join by apply favicon_svg_plain);
    destruct Hfr as [Ho Hf].
  - rewrite bind_assoc, (bind_step _ _ _ _ _ E).
    intros [= <- <-]. split; [|split].
    + intros p Hp. apply Hf. congruence.
    + done.
    + intros ? [= <-]. split; [done|]. simpl. rewrite Ho. unfold summary.
      rewrite length_app. simpl. by rewrite Nat.add_1_r.
  - rewrite bind_assoc, (bind_raised _ _ _ _ _ E).
    intros [= <- <-]. split; [|split]; try done.
    intros p Hp. apply Hf. congruence.
Qed.

Lemma png_names_NoDup : NoDup (map fst png_table).
Proof.
  pose proof output_names_NoDup as Hn. unfold output_names in Hn.
  by apply NoDup_app in Hn as [Hn _].
Qed.

Lemma png_paths_NoDup (out : Path) :
  NoDup (map (fun job : string * Z => out // job.1) png_table).
Proof.
  change (NoDup ((fun name => out // name) <$> (fst <$> png_table))).
  apply NoDup_fmap_2_strong; [|apply png_names_NoDup].
  intros n1 n2 H1 H2. apply join_inj.
  - apply (proj1 (Forall_forall _ _) output_names_plain).
    unfold output_names. apply elem_of_app. by left.
  - apply (proj1 (Forall_forall _ _) output_names_plain).
    unfold output_names. apply elem_of_app. by left.
Qed.

(** C4. On a successful run the requests made to the rendering packages
    are, first, one conversion per pair of the table, in the order of the
    table, each writing to the file of that name in the output directory
    and asking for a width and a height equal to the size; then the three
    frames and the container of [render_ico].  No two of the 21 paths are
    the same, and at the end of the run each of them is a file. *)
Theorem main_renders_table env args w w' :
  main env args w = (Ok 0%Z, w') ->
  let out := Pathlib.of_string (out_dir args) in
  exists avatar,
    resolve_svg (script_dir env) (avatar_svg args) "logo_thumbnail.svg"
      "brand-assets/logo_thumbnail.svg" w = (Ok avatar, w)
    /\ calls w'
       = calls w
         ++ map (fun job : string * Z =>
                   Svg2png avatar (Some (out // job.1)) job.2 job.2) png_table
         ++ [Svg2png avatar None 16 16; Svg2png avatar None 32 32;
             Svg2png avatar None 48 48;
             SaveIco (out // "favicon.ico") [(16, 16); (32, 32); (48, 48)]%Z 2]
    /\ NoDup (map (fun job : string * Z => out // job.1) png_table)
    /\ forall job, job ∈ png_table -> is_file (fs w') (out // job.1).
Proof.
  intros E out. rewrite main_split in E.
  apply bind_ok in E as (st & w3 & Ec & Ef).
  destruct st as [[[avatar out'] generated]|]; [|done].
  apply main_common_ok in Ec as (Ha & _ & -> & -> & He & _ & Hd & Hfiles).
  fold out in He, Hd, Hfiles, Ef.
  exists avatar. split; [done|].
  assert (calls w' = calls w3
          /\ forall p, p <> out // "favicon.svg" -> fs w' !! p = fs w3 !! p)
    as [Hc Hf].
  { destruct (skip_favicon_svg args).
    - rewrite main_finish_skip in Ef. by injection Ef as <-.
    - apply main_finish_noskip in Ef as (Hf & Hc & _); done. }
  split; [|split].
  - rewrite Hc. exact He.
  - apply png_paths_NoDup.
  - intros job Hj. unfold is_file. rewrite Hf.
    + apply Hfiles. apply elem_of_app. left. by apply list_elem_of_fmap_2.
    + intros Heq. apply join_inj in Heq; [|by apply (proj1 (Forall_forall _ _) png_table_plain)|apply favicon_svg_plain].
      pose proof output_names_NoDup as Hn. unfold output_names in Hn.
      apply NoDup_app in Hn as (_ & Hn & _).
      apply (Hn job.1); [by apply list_elem_of_fmap_2|].
      rewrite Heq. apply elem_of_cons. right. by apply list_elem_of_singleton.
Qed.

Lemma main_renders_table_witness :
  let w := world_with "logo.svg" sized_svg in
  let w' := (main demo_env (demo_args false) w).2 in
  let out := Pathlib.of_string (out_dir (demo_args false)) in
  exists avatar,
    resolve_svg (script_dir demo_env) (avatar_svg (demo_args false))
      "logo_thumbnail.svg" "brand-assets/logo_thumbnail.svg" w = (Ok avatar, w)
    /\ calls w'
       = calls w
         ++ map (fun job : string * Z =>
                   Svg2png avatar (Some (out // job.1)) job.2 job.2) png_table
         ++ [Svg2png avatar None 16 16; Svg2png avatar None 32 32;
             Svg2png avatar None 48 48;
             SaveIco (out // "favicon.ico") [(16, 16); (32, 32); (48, 48)]%Z 2]
    /\ NoDup (map (fun job : string * Z => out // job.1) png_table)
    /\ forall job, job ∈ png_table -> is_file (fs w') (out // job.1).
Proof.
  intros w w'. subst w'.
  apply (main_renders_table demo_env (demo_args false) w).
  apply (ok_result (main demo_env (demo_args false)) w 0%Z).
  vm_compute. reflexivity.
Defined.

(** The arguments with the flag cleared. *)
Definition without_skip (args : Args) : Args :=
  {| avatar_svg := avatar_svg args;
     extended_light := extended_light args;
     extended_dark := extended_dark args;
     out_dir := out_dir args;
     skip_favicon_svg := false |}.

(** C6. Take a run with [--skip-favicon-svg] and the run from the same
    world without it.  With the flag, [favicon.svg] in the output
    directory is what it was before the run, and a run that completes
    reports 22 files, where the run without the flag, if it completes,
    reports 23.  Every other path holds the same in both runs, and the
    requests made to the rendering packages are the same. *)
Theorem skip_favicon_svg_only_omits_it env args w :
  skip_favicon_svg args = true ->
  let out := Pathlib.of_string (out_dir args) in
  let favicon := out // "favicon.svg" in
  let flagged := main env args w in
  let unflagged := main env (without_skip args) w in
  fs flagged.2 !! favicon = fs w !! favicon
  /\ (flagged.1 = Ok 0%Z ->
      stdout flagged.2 = stdout w ++ [summary env out 22])
  /\ (unflagged.1 = Ok 0%Z ->
      stdout unflagged.2 = stdout w ++ [summary env out 23])
  /\ (forall p, p <> favicon -> fs flagged.2 !! p = fs unflagged.2 !! p)
  /\ calls flagged.2 = calls unflagged.2.
Proof.
  intros Hskip out favicon flagged unflagged.
  subst flagged unflagged. rewrite !main_split. rewrite Hskip.
  change (skip_favicon_svg (without_skip args)) with false.
  change (main_common env (without_skip args)) with (main_common env args).
  assert (forall r w', main_common env args w = (r, w') ->
                       fs w' !! favicon = fs w !! favicon) as Hfav.
  { intros r w' E. apply main_common_frame in E as [_ Hf]. apply Hf.
    intros [Hp|(name & Hn & Heq)].
    - by apply join_not_prefix in Hp; [|apply favicon_svg_plain].
    - assert (name ∈ output_names) as Ho.
      { unfold output_names. apply elem_of_app.
        apply elem_of_app in Hn as [Hn|Hn]; [by left|right].
        apply list_elem_of_singleton in Hn as ->. apply elem_of_cons. by left. }
      apply join_inj in Heq;
        [|apply favicon_svg_plain
         |by apply (proj1 (Forall_forall _ _) output_names_plain)].
      subst name. pose proof output_names_NoDup as Hd.
      unfold output_names in Hd.
      apply elem_of_app in Hn as [Hn|Hn].
      + apply NoDup_app in Hd as (_ & Hd & _). apply (Hd _ Hn).
        apply elem_of_cons. right. by apply list_elem_of_singleton.
      + apply list_elem_of_singleton in Hn. discriminate. }
  destruct (main_common env args w) as [[st|e] w3] eqn:Ec.
  2:{ rewrite !(bind_raised _ _ _ _ _ Ec). simpl.
      repeat split; try done. by eapply Hfav. }
  rewrite !(bind_step _ _ _ _ _ Ec).
  destruct st as [[[avatar out'] generated]|].
  2:{ simpl. repeat split; try done. by eapply Hfav. }
  apply main_common_ok in Ec as Hok.
  destruct Hok as (_ & _ & -> & Hg & _ & Hso & Hd & _). fold out in Hg, Hd.
  assert (length generated = 22%nat) as Hlen by (by rewrite Hg).
  rewrite main_finish_skip.
  remember (main_finish env false _ w3) as res eqn:Ef.
  destruct res as [r w4]. symmetry in Ef.
  apply main_finish_noskip in Ef as (Hf & Hc & Hs); [|done].
  cbn [fst snd printed fs stdout calls].
  split; [by eapply Hfav|]. split; [|split; [|split]].
  - intros _. by rewrite Hso, Hlen.
  - intros ->. destruct (Hs _ eq_refl) as [_ ->]. by rewrite Hso, Hlen.
  - intros p Hp. symmetry. by apply Hf.
  - done.
Qed.

Lemma skip_favicon_svg_only_omits_it_witness :
  let env := demo_env in
  let args := demo_args true in
  let w := world_with "logo.svg" sized_svg in
  let out := Pathlib.of_string (out_dir args) in
  let favicon := out // "favicon.svg" in
  let flagged := main env args w in
  let unflagged := main env (without_skip args) w in
  fs flagged.2 !! favicon = fs w !! favicon
  /\ (flagged.1 = Ok 0%Z ->
      stdout flagged.2 = stdout w ++ [summary env out 22])
  /\ (unflagged.1 = Ok 0%Z ->
      stdout unflagged.2 = stdout w ++ [summary env out 23])
  /\ (forall p, p <> favicon -> fs flagged.2 !! p = fs unflagged.2 !! p)
  /\ calls flagged.2 = calls unflagged.2.
Proof.
  intros env args w.
  apply (skip_favicon_svg_only_omits_it env args w). reflexivity.
Defined.

(** Where the copy can be carried out (the destination is spelled
    differently from the source and is not a directory, and its directory
    is there), the fallback returns and the destination holds the bytes of
    the source, unchanged; nothing else changes. *)
Lemma fallback_copies_verbatim svg_path out_path size w content :
  read_text svg_path w = (Ok content, w) ->
  Re.search true "<svg\\b[^>]*>" content = Some None ->
  svg_path <> out_path ->
  lookup_node (fs w) (Pathlib.parent out_path) = Some Dir ->
  lookup_node (fs w) out_path <> Some Dir ->
  exists source,
    lookup_node (fs w) svg_path = Some (File source)
    /\ write_favicon_svg svg_path out_path size w
       = (Ok tt, with_fs w (<[out_path := File source]> (fs w))).
Proof.
  intros Hr Hs Hne Hd Hn.
  apply read_text_inv in Hr as Hb.
  destruct Hb as [_ Hb]. destruct (Hb _ eq_refl) as (b & d & Hl & _ & _).
  exists b. split; [done|].
  rewrite (write_favicon_svg_fallback _ _ _ _ _ Hr Hs).
  by apply copyfile_ok.
Qed.

(** The command line [--avatar-svg favicon.svg], run from the directory
    of the avatar. *)
Definition in_place_args : Args :=
  {| avatar_svg := Some "favicon.svg"%string;
     extended_light := None;
     extended_dark := None;
     out_dir := "."%string;
     skip_favicon_svg := false |}.

(** C7, where the code departs from it.  The source is [favicon.svg]
    itself, in the output directory: the text is read, the tag pattern is
    not found in it, and the fallback raises [SameFileError] and leaves the
    world as it was.  On the other branch (a document in which the pattern
    is found) the same call, with the same source and destination, returns
    and has rewritten the file in place.  The input is one [main] hands
    over: with [--avatar-svg favicon.svg] and the default output directory
    the run ends with that exception. *)
Theorem fallback_fails_in_place :
  write_favicon_svg ["favicon.svg"%string] ["favicon.svg"%string] 48
    (world_with "favicon.svg" unsized_svg)
  = (Raised SameFileError, world_with "favicon.svg" unsized_svg)
  /\ (exists content,
        read_text ["favicon.svg"%string] (world_with "favicon.svg" unsized_svg)
        = (Ok content, world_with "favicon.svg" unsized_svg)
        /\ Re.search true "<svg\\b[^>]*>" content = Some None)
  /\ (write_favicon_svg ["favicon.svg"%string] ["favicon.svg"%string] 48
        (world_with "favicon.svg" "<svg\b/>")).1 = Ok tt
  /\ fs (write_favicon_svg ["favicon.svg"%string] ["favicon.svg"%string] 48
           (world_with "favicon.svg" "<svg\b/>")).2 !! ["favicon.svg"%string]
     = Some (File (bytes_of_string
                     ("<svg\b width=" +:+ quote +:+ "48" +:+ quote
                      +:+ " height=" +:+ quote +:+ "48" +:+ quote +:+ "/>")))
  /\ (main demo_env in_place_args (world_with "favicon.svg" unsized_svg)).1
     = Raised SameFileError.
Proof.
  assert (read_text ["favicon.svg"%string] (world_with "favicon.svg" unsized_svg)
          = (Ok (str_of_string unsized_svg), world_with "favicon.svg" unsized_svg))
    as Hr by (vm_compute; reflexivity).
  assert (Re.search true "<svg\\b[^>]*>" (str_of_string unsized_svg) = Some None)
    as Hs by (vm_compute; reflexivity).
  split; [|split; [|split; [|split]]].
  - rewrite (write_favicon_svg_fallback _ _ _ _ _ Hr Hs).
    apply copyfile_same. eexists. vm_compute. reflexivity.
  - by exists (str_of_string unsized_svg).
  - vm_compute. reflexivity.
  - vm_compute. reflexivity.
  - vm_compute. reflexivity.
Qed.

(** C8, where the code departs from it.  From a world that holds the logo
    and no directory [out], the rewriter, on its fallback branch, raises
    [FileNotFoundError] and leaves the world as it was: it has not made
    the directory of the destination.  On the other branch (here a
    document in which the pattern is found) the same call makes the
    directory and writes the file. *)
Theorem fallback_does_not_make_directory :
  write_favicon_svg ["logo.svg"%string] ["out"; "favicon.svg"]%string 48
    (world_with "logo.svg" sized_svg)
  = (Raised FileNotFoundError, world_with "logo.svg" sized_svg)
  /\ lookup_node (fs (world_with "logo.svg" sized_svg)) ["out"%string] = None
  /\ (write_favicon_svg ["logo.svg"%string] ["out"; "favicon.svg"]%string 48
        (world_with "logo.svg" "<svg\b/>")).1 = Ok tt
  /\ lookup_node
       (fs (write_favicon_svg ["logo.svg"%string] ["out"; "favicon.svg"]%string 48
              (world_with "logo.svg" "<svg\b/>")).2) ["out"%string]
     = Some Dir.
Proof.
  assert (read_text ["logo.svg"%string] (world_with "logo.svg" sized_svg)
          = (Ok (str_of_string sized_svg), world_with "logo.svg" sized_svg))
    as Hr by (vm_compute; reflexivity).
  assert (Re.search true "<svg\\b[^>]*>" (str_of_string sized_svg) = Some None)
    as Hs by (vm_compute; reflexivity).
  split; [|split; [|split]].
  - rewrite (write_favicon_svg_fallback _ _ _ _ _ Hr Hs).
    eapply copyfile_no_directory; [|discriminate| |]; vm_compute; reflexivity.
  - vm_compute. reflexivity.
  - vm_compute. reflexivity.
  - vm_compute. reflexivity.
Qed.

(** C1, where the code departs from it.  The root tag of the source
    declares a width and a height of 200; the pattern of the rewriter asks
    for a backslash after [<svg], so it is not found, and the destination
    is the source copied byte for byte: the tag still declares 200, not
    48. *)
Theorem declared_size_is_not_forced :
  Re.search true "<svg\\b[^>]*>" (str_of_string sized_svg) = Some None
  /\ write_favicon_svg ["logo.svg"%string] ["out"; "favicon.svg"]%string
       FAVICON_SVG_SIZE (world_with_out "logo.svg" sized_svg)
     = (Ok tt,
        with_fs (world_with_out "logo.svg" sized_svg)
          (<[["out"; "favicon.svg"]%string := File (bytes_of_string sized_svg)]>
             (fs (world_with_out "logo.svg" sized_svg)))).
Proof.
  assert (read_text ["logo.svg"%string] (world_with_out "logo.svg" sized_svg)
          = (Ok (str_of_string sized_svg), world_with_out "logo.svg" sized_svg))
    as Hr by (vm_compute; reflexivity).
  assert (Re.search true "<svg\\b[^>]*>" (str_of_string sized_svg) = Some None)
    as Hs by (vm_compute; reflexivity).
  split; [done|].
  rewrite (write_favicon_svg_fallback _ _ _ _ _ Hr Hs).
  apply copyfile_ok; [|discriminate| |]; vm_compute; try reflexivity.
  discriminate.
Qed.

(** C2, where the code departs from it.  The root tag of the source
    declares a [viewBox] and neither a width nor a height; the pattern is
    not found, and the destination is the source copied byte for byte: no
    width and no height are appended to the tag. *)
Theorem missing_size_is_not_appended :
  Re.search true "<svg\\b[^>]*>" (str_of_string unsized_svg) = Some None
  /\ write_favicon_svg ["logo.svg"%string] ["out"; "favicon.svg"]%string 48
       (world_with_out "logo.svg" unsized_svg)
     = (Ok tt,
        with_fs (world_with_out "logo.svg" unsized_svg)
          (<[["out"; "favicon.svg"]%string := File (bytes_of_string unsized_svg)]>
             (fs (world_with_out "logo.svg" unsized_svg)))).
Proof.
  assert (read_text ["logo.svg"%string] (world_with_out "logo.svg" unsized_svg)
          = (Ok (str_of_string unsized_svg), world_with_out "logo.svg" unsized_svg))
    as Hr by (vm_compute; reflexivity).
  assert (Re.search true "<svg\\b[^>]*>" (str_of_string unsized_svg) = Some None)
    as Hs by (vm_compute; reflexivity).
  split; [done|].
  rewrite (write_favicon_svg_fallback _ _ _ _ _ Hr Hs).
  apply copyfile_ok; [|discriminate| |]; vm_compute; try reflexivity.
  discriminate.
Qed.

(* ===================================================================== *)
(** ** Further properties of the writers and of the run                   *)
(* ===================================================================== *)

(** [touches S]: the file system changes at most at the paths in [S]. *)
Definition touches (S : Path -> Prop) (w w' : World) : Prop :=
  forall p, ~ S p -> fs w' !! p = fs w !! p.

#[global] Instance touches_preorder S : PreOrder (touches S).
Proof.
  split; [done|]. intros w1 w2 w3 H1 H2 p Hp. rewrite H2, H1; auto.
Qed.

Lemma frame_touches S w w' : frame S w w' -> touches S w w'.
Proof. by intros [_ H]. Qed.

Lemma touches_weaken (S S' : Path -> Prop) w w' :
  (forall p, S p -> S' p) -> touches S w w' -> touches S' w w'.
Proof. intros HS H p Hp. apply H. auto. Qed.

(** [same_fs]: the file system is the one before. *)
Definition same_fs (w w' : World) : Prop := fs w' = fs w.

#[global] Instance same_fs_preorder : PreOrder same_fs.
Proof. split; unfold same_fs; [done|intros ???; congruence]. Qed.

Lemma quiet_same_fs {A} (m : M A) : always quiet m -> always same_fs m.
Proof. intros H w r w' E. by apply H in E as (? & _). Qed.

Lemma same_fs_files w w' : same_fs w w' -> files_kept w w'.
Proof. intros H p. unfold is_file. by rewrite H. Qed.

Lemma same_fs_dirs w w' : same_fs w w' -> dirs_kept w w'.
Proof. intros H p. by rewrite H. Qed.

(** [kept]: files stay files and directories stay directories. *)
Definition kept (w w' : World) : Prop := files_kept w w' /\ dirs_kept w w'.

#[global] Instance kept_preorder : PreOrder kept.
Proof.
  split; [by split|]. intros w1 w2 w3 [F1 D1] [F2 D2].
  split; [by transitivity w2|by transitivity w2].
Qed.

Lemma same_fs_kept {A} (m : M A) : always same_fs m -> always kept m.
Proof.
  intros H w r w' E. apply H in E.
  split; [by apply same_fs_files|by apply same_fs_dirs].
Qed.

Lemma write_bytes_kept p b : always kept (write_bytes p b).
Proof.
  intros w r w' E. split; [eapply write_bytes_files|eapply write_bytes_dirs]; eauto.
Qed.

Lemma mkdir_parents_kept p : always kept (mkdir_parents p).
Proof.
  intros w r w' E.
  split; [eapply mkdir_parents_files|eapply mkdir_parents_dirs]; eauto.
Qed.

Lemma svg2png_kept cairosvg url write_to x y :
  always kept (svg2png cairosvg url write_to x y).
Proof.
  intros w r w' E. split; [eapply svg2png_files|eapply svg2png_dirs]; eauto.
Qed.

Lemma render_png_kept cairosvg svg_path out_path size :
  always kept (render_png cairosvg svg_path out_path size).
Proof.
  intros w r w' E. split; [eapply render_png_files|eapply render_png_dirs]; eauto.
Qed.

Lemma read_bytes_same_fs p : always same_fs (read_bytes p).
Proof. intros w r w' E. by apply read_bytes_inv in E as [-> _]. Qed.

Lemma exists_same_fs p : always same_fs (exists_ p).
Proof. by intros w r w' [= _ <-]. Qed.

Lemma read_text_same_fs p : always same_fs (read_text p).
Proof. intros w r w' E. by apply read_text_inv in E as [-> _]. Qed.

Lemma set_attribute_same_fs name size updated :
  always same_fs (set_attribute name size updated).
Proof. intros w r w' E. by apply set_attribute_pure in E as ->. Qed.

Lemma print_same_fs line : always same_fs (print line).
Proof. by intros w r w' [= _ <-]. Qed.

Lemma write_text_kept p s : always kept (write_text p s).
Proof.
  unfold write_text. apply always_bind; [apply _|apply write_bytes_kept|intros _].
  destruct (Utf8.encode s); [apply write_bytes_kept|apply always_raise; apply _].
Qed.

Lemma copyfile_kept src dst : always kept (copyfile src dst).
Proof.
  unfold copyfile.
  apply always_bind; [apply _|apply same_fs_kept, exists_same_fs|intros there].
  destruct (_ && _); [apply always_raise; apply _|].
  apply always_bind; [apply _|apply same_fs_kept, read_bytes_same_fs|intros b].
  apply write_bytes_kept.
Qed.

Lemma write_favicon_svg_kept svg_path out_path size :
  always kept (write_favicon_svg svg_path out_path size).
Proof.
  unfold write_favicon_svg.
  apply always_bind; [apply _|apply same_fs_kept, read_text_same_fs|intros content].
  destruct (Re.search _ _ _) as [[[b e]|]|];
    [|apply copyfile_kept|apply always_raise; apply _].
  apply always_bind; [apply _|apply same_fs_kept, set_attribute_same_fs|intros u1].
  apply always_bind; [apply _|apply same_fs_kept, set_attribute_same_fs|intros u2].
  apply always_bind; [apply _|apply mkdir_parents_kept|intros _].
  apply write_text_kept.
Qed.

Lemma write_favicon_svg_frame svg_path out_path size :
  always (frame (png_footprint out_path))
         (write_favicon_svg svg_path out_path size).
Proof.
  assert (forall A (m : M A), always same_fs m -> always silent m ->
            always (fun w w' => stdout w' = stdout w) m ->
            always (frame (png_footprint out_path)) m) as Hq.
  { intros A m H1 _ H3 w r w' E. split; [by eapply H3|].
    intros p _. apply H1 in E. by rewrite E. }
  assert (forall w w', frame (eq out_path) w w' ->
                       frame (png_footprint out_path) w w') as Hw.
  { intros w w'. apply frame_weaken. intros p <-. by right. }
  unfold write_favicon_svg.
  apply always_bind; [apply _| |intros content].
  { intros w r w' E. apply read_text_inv in E as [-> _]. reflexivity. }
  destruct (Re.search _ _ _) as [[[b e]|]|];
    [|eapply always_weaken; [exact Hw|apply copyfile_frame]
     |apply always_raise; apply _].
  apply always_bind; [apply _| |intros u1].
  { intros w r w' E. apply set_attribute_pure in E as ->. reflexivity. }
  apply always_bind; [apply _| |intros u2].
  { intros w r w' E. apply set_attribute_pure in E as ->. reflexivity. }
  apply always_bind; [apply _| |intros _].
  - eapply always_weaken; [|apply mkdir_parents_frame].
    intros w w'. apply frame_weaken. intros p Hp. left. by apply elem_of_prefixes.
  - eapply always_weaken; [exact Hw|apply write_text_frame].
Qed.

(** Saving the container keeps what was there: when the encoder raises, the
    file the call removes is one it had made itself. *)
Lemma image_save_ico_kept Image im fp sizes append_images :
  always kept (image_save_ico Image im fp sizes append_images).
Proof.
  intros w r w'.
  unfold image_save_ico, mbind, M_bind, record, exists_. simpl.
  fold (logged w (SaveIco fp sizes (length append_images))).
  set (w0 := logged w _).
  destruct (write_bytes fp [] w0) as [[[]|e] w1] eqn:Ew.
  2:{ intros [= _ <-]. apply write_bytes_kept in Ew. exact Ew. }
  apply write_bytes_kept in Ew as Hk1.
  apply write_bytes_inv in Ew as [(_ & -> & Hd & Hs & Hf)|(e' & ? & _)]; [|done].
  destruct (encode_ico Image im sizes append_images) as [ico|].
  - intros E. transitivity (with_fs w0 (<[fp:=File []]> (fs w))); [exact Hk1|].
    eapply write_bytes_kept. exact E.
  - destruct (bool_decide (is_Some (lookup_node (fs w) fp))) eqn:Eb;
      intros [= _ <-]; [exact Hk1|].
    apply bool_decide_eq_false in Eb.
    assert (fs w !! fp = None) as Hn.
    { rewrite <- (lookup_node_plain _ _ Hs).
      destruct (lookup_node (fs w) fp) eqn:El; [|done]. by destruct Eb. }
    simpl. rewrite delete_insert_eq. rewrite delete_id by done.
    split; [by intros p|by intros p].
Qed.

Lemma ico_frame_kept cairosvg Image svg_path images size :
  always kept (ico_frame cairosvg Image svg_path images size).
Proof.
  apply same_fs_kept. intros w r w' E. by apply ico_frame_untouched in E as (? & _).
Qed.

Lemma render_ico_kept cairosvg Image svg_path out_path :
  always kept (render_ico cairosvg Image svg_path out_path).
Proof.
  rewrite render_ico_unfold. apply always_bind; [apply _| |intros images].
  - apply always_for_each; [apply _|]. intros. apply ico_frame_kept.
  - apply always_bind; [apply _|apply mkdir_parents_kept|intros _].
    destruct (images !! O); [apply image_save_ico_kept|apply always_raise; apply _].
Qed.

Lemma png_step_kept cairosvg avatar_svg out_dir generated job :
  always kept (png_step cairosvg avatar_svg out_dir generated job).
Proof.
  unfold png_step.
  apply always_bind; [apply _|apply render_png_kept|intros _].
  apply always_ret; apply _.
Qed.

Lemma table_loop_kept cairosvg avatar_svg out_dir :
  always kept (table_loop cairosvg avatar_svg out_dir).
Proof.
  intros w r w' E. rewrite table_loop_flat in E.
  eapply (always_for_each kept); [|exact E]. intros. apply png_step_kept.
Qed.

Lemma main_common_kept env args : always kept (main_common env args).
Proof.
  assert (forall A (m : M A), always quiet m -> always kept m) as Hq.
  { intros A m H. by apply same_fs_kept, quiet_same_fs. }
  unfold main_common.
  apply always_bind; [apply _|apply Hq, resolve_svg_quiet|intros avatar].
  apply always_bind; [apply _|apply Hq, resolve_svg_quiet|intros light].
  apply always_bind; [apply _|apply Hq, resolve_svg_quiet|intros dark].
  cbv zeta.
  apply always_bind; [apply _|apply Hq, exists_quiet|intros there].
  destruct (negb there).
  { apply always_bind; [apply _|apply Hq, print_err_quiet|intros _].
    apply always_bind; [apply _|apply Hq, print_err_quiet|intros _].
    apply always_ret; apply _. }
  apply always_bind; [apply _| |intros missing].
  { apply always_for_each; [apply _|]. intros acc p _.
    apply always_bind; [apply _|apply Hq, exists_quiet|intros ?].
    apply always_ret; apply _. }
  apply always_bind; [apply _| |intros _].
  { destruct (bool_decide _); [apply always_ret; apply _|].
    apply always_bind; [apply _|apply Hq, print_err_quiet|intros _].
    apply always_for_each; [apply _|]. intros. apply Hq, print_err_quiet. }
  apply always_bind; [apply _|apply Hq, require_packages_quiet|intros [cairosvg Image]].
  apply always_bind; [apply _|apply table_loop_kept|intros generated].
  apply always_bind; [apply _|apply render_ico_kept|intros _].
  apply always_ret; apply _.
Qed.

Lemma main_finish_kept env skip state : always kept (main_finish env skip state).
Proof.
  unfold main_finish. destruct state as [[[avatar out] generated]|];
    [|apply always_ret; apply _].
  apply always_bind; [apply _| |intros g].
  - destruct (negb skip); [|apply always_ret; apply _].
    apply always_bind; [apply _|apply write_favicon_svg_kept|intros _].
    apply always_ret; apply _.
  - apply always_bind; [apply _|apply same_fs_kept, print_same_fs|intros _].
    apply always_ret; apply _.
Qed.

(** The paths a run may touch: the output directory and the directories
    above it, and the 23 files in it. *)
Definition run_footprint (out_dir : Path) : Path -> Prop :=
  fun p => p `prefix_of` out_dir
           \/ exists name, name ∈ output_names /\ p = out_dir // name.

Lemma main_finish_touches env skip avatar out generated :
  always (touches (run_footprint out))
         (main_finish env skip (Some (avatar, out, generated))).
Proof.
  unfold main_finish.
  apply always_bind; [apply _| |intros g].
  - destruct (negb skip); [|apply always_ret; apply _].
    apply always_bind; [apply _| |intros _; apply always_ret; apply _].
    eapply always_weaken; [|apply write_favicon_svg_frame].
    intros w w' H. apply frame_touches in H. revert H. apply touches_weaken.
    intros p [Hp| ->].
    + left. by rewrite parent_join in Hp by apply favicon_svg_plain.
    + right. exists "favicon.svg"%string. split; [|done].
      unfold output_names. apply elem_of_app. right.
      apply elem_of_cons. right. by apply list_elem_of_singleton.
  - apply always_bind; [apply _| |intros _; apply always_ret; apply _].
    intros w r w' [= _ <-]. by intros p _.
Qed.

(** X1. Whatever the outcome of [main], the file system changes at most
    at the output directory and the directories above it, and at the 23
    output files in it; every other path holds what it held. *)
Theorem main_touches_only_outputs env args w p :
  ~ run_footprint (Pathlib.of_string (out_dir args)) p ->
  fs (main env args w).2 !! p = fs w !! p.
Proof.
  revert p. change (touches (run_footprint (Pathlib.of_string (out_dir args)))
                      w (main env args w).2).
  rewrite main_split.
  assert (forall r w1, main_common env args w = (r, w1) ->
            touches (run_footprint (Pathlib.of_string (out_dir args))) w w1) as Hc.
  { intros r w1 Ec. apply main_common_frame in Ec. apply frame_touches in Ec.
    revert Ec. apply touches_weaken. intros p [Hp|(name & Hn & ->)]; [by left|].
    right. exists name. split; [|done]. unfold output_names.
    apply elem_of_app. apply elem_of_app in Hn as [Hn|Hn]; [by left|right].
    apply list_elem_of_singleton in Hn as ->. apply elem_of_cons. by left. }
  destruct (main_common env args w) as [[st|e] w1] eqn:Ec.
  - rewrite (bind_step _ _ _ _ _ Ec).
    destruct st as [[[avatar out] generated]|]; [|by eapply Hc].
    apply main_common_ok in Ec as Hok. destruct Hok as (_ & _ & -> & _).
    transitivity w1; [by eapply Hc|].
    destruct (main_finish env (skip_favicon_svg args) _ w1) as [r w2] eqn:Ef.
    by apply main_finish_touches in Ef.
  - rewrite (bind_raised _ _ _ _ _ Ec). by eapply Hc.
Qed.

Lemma main_touches_only_outputs_witness :
  fs (main demo_env (demo_args false) (world_with "logo.svg" sized_svg)).2
    !! ["logo.svg"%string]
  = fs (world_with "logo.svg" sized_svg) !! ["logo.svg"%string].
Proof.
  apply (main_touches_only_outputs demo_env (demo_args false)
           (world_with "logo.svg" sized_svg) ["logo.svg"%string]).
  intros [H|(name & Hn & Heq)].
  - apply prefix_cons_inv_1 in H. discriminate.
  - rewrite join_plain in Heq
      by (by apply (proj1 (Forall_forall _ _) output_names_plain)).
    discriminate.
Defined.

(** X2. Whatever the outcome of [main], nothing is deleted: every path
    that was a file is still a file, and every directory is still a
    directory. *)
Theorem main_deletes_nothing env args w p :
  (is_file (fs w) p -> is_file (fs (main env args w).2) p)
  /\ (lookup_node (fs w) p = Some Dir ->
      lookup_node (fs (main env args w).2) p = Some Dir).
Proof.
  rewrite main_split.
  assert (always kept (main_common env args
                       ≫= main_finish env (skip_favicon_svg args))) as H.
  { apply always_bind; [apply _|apply main_common_kept|intros st].
    apply main_finish_kept. }
  destruct ((main_common env args
             ≫= main_finish env (skip_favicon_svg args)) w) as [r w'] eqn:E.
  destruct (H _ _ _ E) as [Hf Hd]. split; [apply Hf|apply Hd].
Qed.

Lemma main_deletes_nothing_witness :
  is_file (fs (main demo_env (demo_args false)
                 (world_with_out "logo.svg" sized_svg)).2) ["logo.svg"%string]
  /\ lookup_node (fs (main demo_env (demo_args false)
                        (world_with_out "logo.svg" sized_svg)).2) ["out"%string]
     = Some Dir.
Proof.
  destruct (main_deletes_nothing demo_env (demo_args false)
              (world_with_out "logo.svg" sized_svg) ["logo.svg"%string])
    as [Hf _].
  destruct (main_deletes_nothing demo_env (demo_args false)
              (world_with_out "logo.svg" sized_svg) ["out"%string])
    as [_ Hd].
  split.
  - apply Hf. eexists. vm_compute. reflexivity.
  - apply Hd. vm_compute. reflexivity.
Defined.

(** *** The checks before anything is rendered *)

(** [warned]: lines were added to the standard error, and nothing else
    changed. *)
Definition warned (w w' : World) : Prop :=
  quiet w w' /\ exists lines, stderr w' = stderr w ++ lines.

#[global] Instance warned_preorder : PreOrder warned.
Proof.
  split.
  - intros w. split; [reflexivity|]. exists []. by rewrite app_nil_r.
  - intros w1 w2 w3 [Q1 [l1 H1]] [Q2 [l2 H2]]. split; [by transitivity w2|].
    exists (l1 ++ l2). by rewrite H2, H1, app_assoc.
Qed.

Lemma print_err_warned line : always warned (print_err line).
Proof. intros w r w' [= _ <-]. split; [done|]. by exists [line]. Qed.

Lemma exists_warned p : always warned (exists_ p).
Proof. intros w r w' [= _ <-]. reflexivity. Qed.

(** [returns m]: [m] never raises. *)
Definition returns {A} (m : M A) : Prop := forall w, exists a w', m w = (Ok a, w').

Lemma returns_ret {A} (a : A) : returns (mret a).
Proof. intros w. by exists a, w. Qed.

Lemma returns_bind {A B} (m : M A) (f : A -> M B) :
  returns m -> (forall a, returns (f a)) -> returns (m ≫= f).
Proof.
  intros Hm Hf w. destruct (Hm w) as (a & w1 & E).
  rewrite (bind_step _ _ _ _ _ E). apply Hf.
Qed.

Lemma returns_for_each {A B} (l : list A) (body : B -> A -> M B) :
  (forall acc x, returns (body acc x)) -> forall acc, returns (for_each l acc body).
Proof.
  intros Hb. induction l as [|x l IH]; intros acc; simpl.
  - apply returns_ret.
  - apply returns_bind; [apply Hb|apply IH].
Qed.

Lemma returns_print_err line : returns (print_err line).
Proof. intros w. by eexists _, _. Qed.

Lemma returns_exists p : returns (exists_ p).
Proof. intros w. by eexists _, _. Qed.

(** The part of [main] between the test of the avatar and the import of
    the packages: the warning about the extended SVGs. *)
Definition warn_extended (extended_light extended_dark : Path) : M unit :=
  missing_extended ← for_each [extended_light; extended_dark] []
    (fun missing path =>
       there ← exists_ path;
       mret (if there : bool then missing else missing ++ [path]));
  if bool_decide (missing_extended = []) then mret tt
  else
    print_err "Warning: extended SVGs not found (will not block icon generation):";;
    for_each missing_extended tt (fun _ path =>
      print_err (" - " +:+ Pathlib.to_string path)).

Lemma warn_extended_returns light dark : returns (warn_extended light dark).
Proof.
  unfold warn_extended. apply returns_bind; [|intros missing].
  - apply returns_for_each. intros acc p.
    apply returns_bind; [apply returns_exists|intros; apply returns_ret].
  - destruct (bool_decide _); [apply returns_ret|].
    apply returns_bind; [apply returns_print_err|intros _].
    apply returns_for_each. intros. apply returns_print_err.
Qed.

Lemma warn_extended_warned light dark : always warned (warn_extended light dark).
Proof.
  unfold warn_extended. apply always_bind; [apply _| |intros missing].
  - apply always_for_each; [apply _|]. intros acc p _.
    apply always_bind; [apply _|apply exists_warned|intros; apply always_ret; apply _].
  - destruct (bool_decide _); [apply always_ret; apply _|].
    apply always_bind; [apply _|apply print_err_warned|intros _].
    apply always_for_each; [apply _|]. intros. apply print_err_warned.
Qed.

(** The rest of the common part, from the import of the packages on. *)
Definition render_all (env : Env) (avatar_svg out_dir : Path)
  : M (option (Path * Path * list Path)) :=
  '(cairosvg, Image) ← require_packages env;
  generated ← table_loop cairosvg avatar_svg out_dir;
  render_ico cairosvg Image avatar_svg (out_dir // "favicon.ico");;
  mret (Some (avatar_svg, out_dir, generated ++ [out_dir // "favicon.ico"])).

(** When the avatar is there, the common part is the warning followed by
    the rendering. *)
Lemma main_common_present env args w avatar :
  resolve_svg (script_dir env) (avatar_svg args) "logo_thumbnail.svg"
    "brand-assets/logo_thumbnail.svg" w = (Ok avatar, w) ->
  is_Some (lookup_node (fs w) avatar) ->
  exists light dark,
    resolve_svg (script_dir env) (extended_light args) "logo.svg"
      "brand-assets/logo.svg" w = (Ok light, w)
    /\ resolve_svg (script_dir env) (extended_dark args) "logo_dark.svg"
         "brand-assets/logo_dark.svg" w = (Ok dark, w)
    /\ main_common env args w
       = (warn_extended light dark
          ≫= fun _ => render_all env avatar (Pathlib.of_string (out_dir args))) w.
Proof.
  intros Ha Hthere.
  destruct (resolve_svg_pure (script_dir env) (extended_light args)
              "logo.svg" "brand-assets/logo.svg" w) as [light Hl].
  destruct (resolve_svg_pure (script_dir env) (extended_dark args)
              "logo_dark.svg" "brand-assets/logo_dark.svg" w) as [dark Hd].
  exists light, dark. split; [done|]. split; [done|].
  unfold main_common.
  rewrite (bind_step _ _ _ _ _ Ha), (bind_step _ _ _ _ _ Hl),
    (bind_step _ _ _ _ _ Hd).
  cbv zeta.
  rewrite (bind_step _ _ w true w)
    by (unfold exists_; by rewrite bool_decide_eq_true_2).
  cbn [negb]. unfold warn_extended. by rewrite bind_assoc.
Qed.

Lemma bind_at {A B} (m m' : M A) (f : A -> M B) w :
  m w = m' w -> (m ≫= f) w = (m' ≫= f) w.
Proof. intros H. unfold mbind, M_bind. by rewrite H. Qed.

(** X3. When the avatar is there and one of the two packages cannot be
    imported, the program ends with exit status 1.  It has written no
    file, printed nothing on the standard output and made no rendering
    request; the standard error ends with the two lines for the package,
    [cairosvg] first when both are missing. *)
Theorem missing_package_exits_1 env args w avatar :
  resolve_svg (script_dir env) (avatar_svg args) "logo_thumbnail.svg"
    "brand-assets/logo_thumbnail.svg" w = (Ok avatar, w) ->
  is_Some (lookup_node (fs w) avatar) ->
  cairosvg_package env = None \/ pillow_package env = None ->
  exists w' warnings,
    run env args w = (1%Z, w')
    /\ fs w' = fs w /\ stdout w' = stdout w /\ calls w' = calls w
    /\ stderr w'
       = stderr w ++ warnings
         ++ match cairosvg_package env with
            | Some _ => ["Missing dependency: pillow";
                         "Install with: python -m pip install pillow"]
            | None => ["Missing dependency: cairosvg";
                       "Install with: python -m pip install cairosvg"]
            end%string.
Proof.
  intros Ha Hthere Hmiss. unfold run. rewrite main_split.
  destruct (main_common_present env args w avatar Ha Hthere)
    as (light & dark & _ & _ & Hm).
  rewrite (bind_at _ _ _ _ Hm).
  destruct (warn_extended_returns light dark w) as ([] & w1 & Ew).
  apply warn_extended_warned in Ew as Hw.
  destruct Hw as [(Hf & Ho & Hc) [warnings Hs]].
  rewrite bind_assoc, (bind_step _ _ _ _ _ Ew).
  unfold render_all, require_packages.
  destruct (cairosvg_package env) as [cairosvg|] eqn:Ec.
  - destruct Hmiss as [?|Hp]; [done|]. rewrite Hp.
    eexists _, warnings. split; [reflexivity|]. simpl.
    repeat split; try done. by rewrite Hs, <- !app_assoc.
  - eexists _, warnings. split; [reflexivity|]. simpl.
    repeat split; try done. by rewrite Hs, <- !app_assoc.
Qed.

Lemma missing_package_exits_1_witness :
  let env := {| script_dir := []; cwd := []; cairosvg_package := None;
                pillow_package := None |} in
  exists w' warnings,
    run env (demo_args false) (world_with "logo.svg" sized_svg) = (1%Z, w')
    /\ fs w' = fs (world_with "logo.svg" sized_svg)
    /\ stdout w' = stdout (world_with "logo.svg" sized_svg)
    /\ calls w' = calls (world_with "logo.svg" sized_svg)
    /\ stderr w'
       = stderr (world_with "logo.svg" sized_svg) ++ warnings
         ++ match cairosvg_package env with
            | Some _ => ["Missing dependency: pillow";
                         "Install with: python -m pip install pillow"]
            | None => ["Missing dependency: cairosvg";
                       "Install with: python -m pip install cairosvg"]
            end%string.
Proof.
  intros env.
  apply (missing_package_exits_1 env (demo_args false)
           (world_with "logo.svg" sized_svg) ["logo.svg"%string]).
  - vm_compute. reflexivity.
  - eexists. vm_compute. reflexivity.
  - left. reflexivity.
Defined.

(** *** [render_png] *)

(** X4. A [render_png] that returns has read the source, converted it to
    a PNG [size] wide and [size] high, and left that PNG at the
    destination, in a directory; every other path is as before, or is a
    directory that was missing and has been made. *)
Theorem render_png_result cairosvg svg_path out_path size w w' :
  render_png cairosvg svg_path out_path size w = (Ok tt, w') ->
  exists source png,
    lookup_node (fs w) svg_path = Some (File source)
    /\ convert cairosvg source size size = Some png
    /\ fs w' !! out_path = Some (File png)
    /\ (forall d, d `prefix_of` Pathlib.parent out_path ->
                  lookup_node (fs w') d = Some Dir)
    /\ forall p, p <> out_path ->
         fs w' !! p = fs w !! p
         \/ (fs w !! p = None /\ fs w' !! p = Some Dir).
Proof.
  intros E. apply render_png_ok in E as Hok. destruct Hok as (_ & _ & Hd).
  unfold render_png in E.
  apply bind_ok in E as ([] & w1 & E1 & E).
  apply bind_ok in E as (r & w2 & E2 & E). injection E as <-.
  apply mkdir_parents_grows in E1 as Hg.
  apply svg2png_inv in E2 as [(e & ? & _)|(source & png & Hs & Hc & _ & -> & _)];
    [done|].
  exists source, png. repeat split; try done.
  - destruct (special svg_path) eqn:Es;
      [by rewrite lookup_node_special in Hs|].
    rewrite lookup_node_plain in * by done.
    destruct (Hg svg_path) as [<-|[_ Hdir]]; [done|congruence].
  - simpl. apply lookup_insert_eq.
  - intros p Hp. simpl. rewrite lookup_insert_ne by done. apply Hg.
Qed.

Lemma render_png_result_witness :
  let w := world_with "logo.svg" sized_svg in
  let w' := (render_png demo_cairosvg ["logo.svg"%string]
               ["out"; "favicon-16x16.png"]%string 16 w).2 in
  exists source png,
    lookup_node (fs w) ["logo.svg"%string] = Some (File source)
    /\ convert demo_cairosvg source 16 16 = Some png
    /\ fs w' !! ["out"; "favicon-16x16.png"]%string = Some (File png)
    /\ (forall d, d `prefix_of` Pathlib.parent ["out"; "favicon-16x16.png"]%string ->
                  lookup_node (fs w') d = Some Dir)
    /\ forall p, p <> ["out"; "favicon-16x16.png"]%string ->
         fs w' !! p = fs w !! p
         \/ (fs w !! p = None /\ fs w' !! p = Some Dir).
Proof.
  intros w w'. subst w'.
  apply (render_png_result demo_cairosvg ["logo.svg"%string]
           ["out"; "favicon-16x16.png"]%string 16 w).
  apply (ok_result (render_png demo_cairosvg ["logo.svg"%string]
                      ["out"; "favicon-16x16.png"]%string 16) w tt).
  vm_compute. reflexivity.
Defined.

(** X5. [render_png] makes the directory of the destination before it
    converts: when the directory was missing and could be made and the
    conversion then raises, the call raises, the directory is there, and
    no file has been written (the file system is the one [mkdir] left). *)
Theorem render_png_failure_leaves_directory cairosvg svg_path out_path size
    source w w1 :
  lookup_node (fs w) svg_path = Some (File source) ->
  convert cairosvg source size size = None ->
  lookup_node (fs w) (Pathlib.parent out_path) = None ->
  mkdir_parents (Pathlib.parent out_path) w = (Ok tt, w1) ->
  exists w',
    render_png cairosvg svg_path out_path size w = (Raised ConversionError, w')
    /\ fs w' = fs w1
    /\ lookup_node (fs w') (Pathlib.parent out_path) = Some Dir.
Proof.
  intros Hs Hc Hn Em. unfold render_png.
  rewrite (bind_step _ _ _ _ _ Em).
  apply mkdir_parents_grows in Em as Hg.
  pose proof (mkdir_parents_ok _ _ _ _ Em) as Hd.
  assert (lookup_node (fs w1) svg_path = Some (File source)) as Hs1.
  { destruct (special svg_path) eqn:Es;
      [by rewrite lookup_node_special in Hs|].
    rewrite lookup_node_plain in * by done.
    destruct (Hg svg_path) as [->|[? _]]; [done|congruence]. }
  eexists. split; [|split].
  - unfold svg2png, mbind, M_bind, record, read_bytes. simpl.
    rewrite Hs1, Hc. reflexivity.
  - done.
  - simpl. by apply Hd.
Qed.

Lemma render_png_failure_leaves_directory_witness :
  let w := world_with "logo.svg" sized_svg in
  exists w',
    render_png demo_cairosvg_failing ["logo.svg"%string]
      ["out"; "favicon-32x32.png"]%string 32 w = (Raised ConversionError, w')
    /\ fs w' = fs (mkdir_parents (Pathlib.parent ["out"; "favicon-32x32.png"]%string) w).2
    /\ lookup_node (fs w') (Pathlib.parent ["out"; "favicon-32x32.png"]%string)
       = Some Dir.
Proof.
  intros w.
  apply (render_png_failure_leaves_directory demo_cairosvg_failing
           ["logo.svg"%string] ["out"; "favicon-32x32.png"]%string 32
           (bytes_of_string sized_svg) w).
  - vm_compute. reflexivity.
  - vm_compute. reflexivity.
  - vm_compute. reflexivity.
  - apply (ok_result (mkdir_parents
                        (Pathlib.parent ["out"; "favicon-32x32.png"]%string)) w tt).
    vm_compute. reflexivity.
Defined.

(** *** The branch of [write_favicon_svg] that rewrites *)

(** X6. When the pattern is found at [start, stop) in the text of the
    source and the call returns, the two attribute steps were applied in
    turn to the matched tag, the text written is the text before the
    match, the rewritten tag and the text after the match, the destination
    holds its UTF-8 encoding, and every leading segment of the directory of
    the destination is a directory. *)
Theorem rewrite_splices_tag svg_path out_path size w w' content start stop :
  read_text svg_path w = (Ok content, w) ->
  Re.search true "<svg\\b[^>]*>" content = Some (Some (start, stop)) ->
  write_favicon_svg svg_path out_path size w = (Ok tt, w') ->
  exists with_width updated encoded,
    set_attribute "width" size (slice start stop content) w = (Ok with_width, w)
    /\ set_attribute "height" size with_width w = (Ok updated, w)
    /\ Utf8.encode (take start content ++ updated ++ drop stop content)
       = Some encoded
    /\ fs w' !! out_path = Some (File encoded)
    /\ forall d, d `prefix_of` Pathlib.parent out_path ->
                 lookup_node (fs w') d = Some Dir.
Proof.
  intros Hr Hs E. unfold write_favicon_svg in E.
  rewrite (bind_step _ _ _ _ _ Hr), Hs in E.
  apply bind_ok in E as (u1 & w1 & E1 & E).
  apply set_attribute_pure in E1 as Hw. subst w1.
  apply bind_ok in E as (u2 & w2 & E2 & E).
  apply set_attribute_pure in E2 as Hw. subst w2.
  apply bind_ok in E as ([] & w3 & E3 & E).
  pose proof (mkdir_parents_ok _ _ _ _ E3) as Hd.
  unfold write_text in E.
  apply bind_ok in E as ([] & w4 & E4 & E).
  apply write_bytes_dirs in E4 as Hd4.
  destruct (Utf8.encode _) as [encoded|] eqn:Ee; [|done].
  apply write_bytes_dirs in E as Hd5.
  apply write_bytes_inv in E as [(_ & -> & _)|(e & ? & _)]; [|done].
  exists u1, u2, encoded. repeat split; try done.
  - simpl. apply lookup_insert_eq.
  - intros d Hp. by apply Hd5, Hd4, Hd.
Qed.

Lemma rewrite_splices_tag_witness :
  let w := world_with "logo.svg" "<svg\b/><g/>" in
  let w' := (write_favicon_svg ["logo.svg"%string]
               ["out"; "favicon.svg"]%string 48 w).2 in
  exists with_width updated encoded,
    set_attribute "width" 48 (slice 0 8 (str_of_string "<svg\b/><g/>")) w
    = (Ok with_width, w)
    /\ set_attribute "height" 48 with_width w = (Ok updated, w)
    /\ Utf8.encode (take 0 (str_of_string "<svg\b/><g/>") ++ updated
                    ++ drop 8 (str_of_string "<svg\b/><g/>"))
       = Some encoded
    /\ fs w' !! ["out"; "favicon.svg"]%string = Some (File encoded)
    /\ forall d, d `prefix_of` Pathlib.parent ["out"; "favicon.svg"]%string ->
                 lookup_node (fs w') d = Some Dir.
Proof.
  intros w w'. subst w'.
  apply (rewrite_splices_tag ["logo.svg"%string] ["out"; "favicon.svg"]%string
           48 w).
  - vm_compute. reflexivity.
  - vm_compute. reflexivity.
  - apply (ok_result (write_favicon_svg ["logo.svg"%string]
                        ["out"; "favicon.svg"]%string 48) w tt).
    vm_compute. reflexivity.
Defined.

(** *** Running the program again *)

(** [again F P m]: from every world whose file system is [F], [m] returns
    a value that satisfies [P] and leaves the file system [F]. *)
Definition again {A : Type} (F : gmap Path node) (P : A -> Prop) (m : M A) : Prop :=
  forall u, fs u = F -> exists a u', m u = (Ok a, u') /\ fs u' = F /\ P a.

Lemma again_ret {A : Type} F (P : A -> Prop) a : P a -> again F P (mret a).
Proof. intros H u Hu. by exists a, u. Qed.

Lemma again_bind {A B : Type} F (P : A -> Prop) (Q : B -> Prop) (m : M A) (f : A -> M B) :
  again F P m -> (forall a, P a -> again F Q (f a)) -> again F Q (m ≫= f).
Proof.
  intros Hm Hf u Hu. destruct (Hm u Hu) as (a & u1 & E & Hu1 & Ha).
  rewrite (bind_step _ _ _ _ _ E). by apply (Hf a Ha).
Qed.

Lemma again_for_each {A B : Type} F (l : list A) (body : B -> A -> M B) :
  (forall acc x, x ∈ l -> again F (const True) (body acc x)) ->
  forall acc, again F (const True) (for_each l acc body).
Proof.
  induction l as [|x l IH]; intros Hb acc; simpl.
  - by apply again_ret.
  - eapply again_bind; [apply Hb; by left|]. intros acc' _. apply IH.
    intros ? y Hy. apply Hb. by right.
Qed.

Lemma again_quiet {A : Type} F (m : M A) :
  returns m -> always quiet m -> again F (const True) m.
Proof.
  intros Hr Hq u Hu. destruct (Hr u) as (a & u' & E). exists a, u'.
  split; [done|]. apply Hq in E as (Hf & _). split; [congruence|done].
Qed.

Lemma again_record F c : again F (const True) (record c).
Proof. intros u Hu. by eexists tt, _. Qed.

Lemma again_print F line : again F (const True) (print line).
Proof. intros u Hu. by eexists tt, _. Qed.

Lemma again_exists F p : again F (const True) (exists_ p).
Proof. intros u Hu. by eexists _, _. Qed.

Lemma again_read_bytes F p b :
  lookup_node F p = Some (File b) -> again F (eq b) (read_bytes p).
Proof.
  intros Hp u Hu. exists b, u. unfold read_bytes. by rewrite Hu, Hp.
Qed.

Lemma file_plain F p b :
  lookup_node F p = Some (File b) -> special p = false /\ F !! p = Some (File b).
Proof.
  intros Hp. destruct (special p) eqn:Es.
  - by rewrite lookup_node_special in Hp.
  - by rewrite lookup_node_plain in Hp.
Qed.

(** Writing to a file what it holds changes nothing. *)
Lemma again_write_bytes F p b :
  lookup_node F p = Some (File b) ->
  lookup_node F (Pathlib.parent p) = Some Dir ->
  again F (const True) (write_bytes p b).
Proof.
  intros Hp Hd u Hu. exists tt. eexists. split; [|split; [|done]].
  - apply write_bytes_ok; rewrite Hu; [done|by rewrite Hp].
  - simpl. rewrite Hu. apply insert_id. by apply file_plain.
Qed.

(** The same when the file is emptied first. *)
Lemma again_truncate_write F p b :
  lookup_node F p = Some (File b) ->
  lookup_node F (Pathlib.parent p) = Some Dir ->
  again F (const True) (write_bytes p [];; write_bytes p b).
Proof.
  intros Hp Hd u Hu. destruct (file_plain _ _ _ Hp) as [Hs Hf].
  assert (Pathlib.parent p <> p) as Hne by (intros Heq; congruence).
  exists tt. eexists. split; [|split; [|done]].
  - rewrite (bind_step _ _ u tt (with_fs u (<[p:=File []]> (fs u)))).
    + apply write_bytes_ok; simpl.
      * rewrite lookup_node_insert_ne by done. by rewrite Hu.
      * rewrite lookup_node_plain by done. by rewrite lookup_insert_eq.
    + apply write_bytes_ok; rewrite Hu; [done|by rewrite Hp].
  - simpl. rewrite insert_insert_eq, Hu. by apply insert_id.
Qed.

Lemma again_mkdir_parents F p :
  (forall d, d `prefix_of` p -> lookup_node F d = Some Dir) ->
  again F (const True) (mkdir_parents p).
Proof.
  intros Hd u Hu. exists tt, u. split; [|done].
  apply mkdir_parents_noop. by rewrite Hu.
Qed.

Lemma again_svg2png_file F cairosvg url out x y source png :
  lookup_node F url = Some (File source) ->
  convert cairosvg source x y = Some png ->
  lookup_node F out = Some (File png) ->
  lookup_node F (Pathlib.parent out) = Some Dir ->
  again F (const True) (svg2png cairosvg url (Some out) x y).
Proof.
  intros Hs Hc Ho Hd. unfold svg2png.
  eapply again_bind; [apply again_record|intros _ _].
  eapply again_bind; [by apply again_read_bytes|intros ? <-]. rewrite Hc.
  eapply again_bind; [by apply again_write_bytes|intros _ _]. by apply again_ret.
Qed.

Lemma again_svg2png_memory F cairosvg url x y source png :
  lookup_node F url = Some (File source) ->
  convert cairosvg source x y = Some png ->
  again F (eq (Some png)) (svg2png cairosvg url None x y).
Proof.
  intros Hs Hc. unfold svg2png.
  eapply again_bind; [apply again_record|intros _ _].
  eapply again_bind; [by apply again_read_bytes|intros ? <-]. rewrite Hc.
  by apply again_ret.
Qed.

Lemma again_render_png F cairosvg svg_path out_path size source png :
  lookup_node F svg_path = Some (File source) ->
  convert cairosvg source size size = Some png ->
  lookup_node F out_path = Some (File png) ->
  (forall d, d `prefix_of` Pathlib.parent out_path -> lookup_node F d = Some Dir) ->
  again F (const True) (render_png cairosvg svg_path out_path size).
Proof.
  intros Hs Hc Ho Hd. unfold render_png.
  eapply again_bind; [by apply again_mkdir_parents|intros _ _].
  eapply again_bind; [|intros _ _; by apply again_ret].
  eapply again_svg2png_file; eauto.
Qed.

Lemma again_ico_frame F cairosvg Image svg_path images size source png im :
  lookup_node F svg_path = Some (File source) ->
  convert cairosvg source size size = Some png ->
  open_image Image png = Some im ->
  again F (eq (images ++ [im])) (ico_frame cairosvg Image svg_path images size).
Proof.
  intros Hs Hc Ho. unfold ico_frame.
  eapply again_bind; [by eapply again_svg2png_memory|intros ? <-].
  unfold image_open. simpl. rewrite Ho.
  eapply again_bind; [by apply (again_ret _ (eq im))|intros ? <-].
  by apply again_ret.
Qed.

Lemma again_render_ico F cairosvg Image svg_path out_path source
    p16 p32 p48 (i16 i32 i48 : Img Image) ico :
  lookup_node F svg_path = Some (File source) ->
  convert cairosvg source 16 16 = Some p16 ->
  convert cairosvg source 32 32 = Some p32 ->
  convert cairosvg source 48 48 = Some p48 ->
  open_image Image p16 = Some i16 ->
  open_image Image p32 = Some i32 ->
  open_image Image p48 = Some i48 ->
  encode_ico Image i16 ico_sizes [i32; i48] = Some ico ->
  lookup_node F out_path = Some (File ico) ->
  (forall d, d `prefix_of` Pathlib.parent out_path -> lookup_node F d = Some Dir) ->
  again F (const True) (render_ico cairosvg Image svg_path out_path).
Proof.
  intros Hs H16 H32 H48 O16 O32 O48 He Ho Hd. rewrite render_ico_unfold.
  eapply (again_bind _ (eq [i16; i32; i48])).
  { unfold FAVICON_ICO_SIZES. simpl.
    eapply again_bind; [by eapply again_ico_frame|intros ? <-].
    eapply again_bind; [by eapply again_ico_frame|intros ? <-].
    eapply again_bind; [by eapply again_ico_frame|intros ? <-].
    by apply again_ret. }
  intros ? <-.
  eapply again_bind; [by apply again_mkdir_parents|intros _ _].
  simpl. unfold image_save_ico.
  eapply again_bind; [apply again_record|intros _ _].
  eapply again_bind; [apply again_exists|intros there _].
  change (encode_ico Image i16 _ _) with (encode_ico Image i16 ico_sizes [i32; i48]).
  rewrite He. apply again_truncate_write; [done|]. apply Hd. done.
Qed.

Lemma again_read_text F p b d :
  lookup_node F p = Some (File b) -> Utf8.decode b = Some d ->
  again F (eq (universal_newlines d)) (read_text p).
Proof.
  intros Hp Hd. unfold read_text.
  eapply again_bind; [by apply again_read_bytes|intros ? <-]. rewrite Hd.
  by apply again_ret.
Qed.

Lemma again_copyfile F src dst b :
  src <> dst ->
  lookup_node F src = Some (File b) ->
  lookup_node F dst = Some (File b) ->
  lookup_node F (Pathlib.parent dst) = Some Dir ->
  again F (const True) (copyfile src dst).
Proof.
  intros Hne Hs Hd Hp. unfold copyfile.
  eapply again_bind; [apply again_exists|intros there _].
  rewrite bool_decide_eq_false_2 by done. simpl.
  eapply again_bind; [by apply again_read_bytes|intros ? <-].
  by apply again_write_bytes.
Qed.

Lemma set_attribute_any name size updated w r w' u :
  set_attribute name size updated w = (r, w') ->
  set_attribute name size updated u = (r, u).
Proof.
  unfold set_attribute.
  destruct (Re.search _ _ _) as [[m|]|]; [| |by intros [= <- _]].
  - destruct (Re.sub _ _ _); by intros [= <- _].
  - destruct (endswith _ _); by intros [= <- _].
Qed.

Lemma again_set_attribute F name size updated w a w' :
  set_attribute name size updated w = (Ok a, w') ->
  again F (eq a) (set_attribute name size updated).
Proof.
  intros E u Hu. exists a, u. split; [|done]. by eapply set_attribute_any.
Qed.

(** A rewriter that went through, with a source that is not its
    destination, goes through again and changes nothing. *)
Lemma again_write_favicon_svg svg_path out_path size w w' :
  write_favicon_svg svg_path out_path size w = (Ok tt, w') ->
  svg_path <> out_path ->
  (forall d, d `prefix_of` Pathlib.parent out_path ->
             lookup_node (fs w') d = Some Dir) ->
  again (fs w') (const True) (write_favicon_svg svg_path out_path size).
Proof.
  intros E Hne Hd. unfold write_favicon_svg in *.
  apply bind_ok in E as (content & w0 & Er & E).
  apply read_text_inv in Er as [-> Hc].
  destruct (Hc _ eq_refl) as (b & d & Hb & Hdec & ->).
  destruct (file_plain _ _ _ Hb) as [Hsp Hfb].
  destruct (Re.search true _ (universal_newlines d)) as [[[start stop]|]|] eqn:Hs;
    [| |done].
  - apply bind_ok in E as (u1 & w1 & E1 & E).
    apply set_attribute_pure in E1 as Hw. subst w1.
    apply bind_ok in E as (u2 & w2 & E2 & E).
    apply set_attribute_pure in E2 as Hw. subst w2.
    apply bind_ok in E as ([] & w3 & E3 & E).
    unfold write_text in E.
    apply bind_ok in E as ([] & w4 & E4 & E).
    destruct (Utf8.encode _) as [enc|] eqn:He; [|done].
    apply write_bytes_inv in E4 as [(_ & -> & Hp4 & Hs4 & _)|(? & ? & _)]; [|done].
    apply write_bytes_inv in E as [(_ & -> & _)|(? & ? & _)]; [|done].
    cbn [fs with_fs] in Hd |- *.
    assert (lookup_node (<[out_path:=File enc]> (<[out_path:=File []]> (fs w3)))
              svg_path = Some (File b)) as Hb'.
    { rewrite !lookup_node_insert_ne by done. rewrite lookup_node_plain by done.
      apply mkdir_parents_grows in E3. destruct (E3 svg_path) as [->|[Hn _]];
        [done|congruence]. }
    eapply again_bind; [by eapply again_read_text|intros ? <-]. rewrite Hs.
    eapply again_bind; [by eapply again_set_attribute|intros ? <-].
    eapply again_bind; [by eapply again_set_attribute|intros ? <-].
    eapply again_bind; [by apply again_mkdir_parents|intros _ _].
    unfold write_text. rewrite He. apply again_truncate_write.
    + rewrite lookup_node_plain by done. by rewrite lookup_insert_eq.
    + by apply Hd.
  - unfold copyfile in E. apply bind_ok in E as (there & w1 & [= _ <-] & E).
    rewrite bool_decide_eq_false_2 in E by done. simpl in E.
    apply bind_ok in E as (b' & w1 & E1 & E).
    apply read_bytes_inv in E1 as [-> Hb1]. specialize (Hb1 _ eq_refl).
    rewrite Hb in Hb1. injection Hb1 as <-.
    apply write_bytes_inv in E as [(_ & -> & Hp & Hs' & _)|(? & ? & _)]; [|done].
    cbn [fs with_fs] in Hd |- *.
    assert (lookup_node (<[out_path:=File b]> (fs w)) svg_path = Some (File b))
      as Hb' by (by rewrite lookup_node_insert_ne).
    eapply again_bind; [by eapply again_read_text|intros ? <-]. rewrite Hs.
    apply (again_copyfile _ _ _ b); try done.
    + rewrite lookup_node_plain by done. by rewrite lookup_insert_eq.
    + by apply Hd.
Qed.

(** [settled]: the PNG of a pair of the table is in place. *)
Definition settled (cairosvg : CairoSVG) (source : bytes) (out_dir : Path)
    (F : gmap Path node) (job : string * Z) : Prop :=
  exists png, convert cairosvg source job.2 job.2 = Some png
              /\ lookup_node F (out_dir // job.1) = Some (File png).

Lemma render_png_settles cairosvg svg_path out_path size source w a w' :
  render_png cairosvg svg_path out_path size w = (Ok a, w') ->
  lookup_node (fs w) svg_path = Some (File source) ->
  exists png, convert cairosvg source size size = Some png
              /\ lookup_node (fs w') out_path = Some (File png).
Proof.
  unfold render_png. intros E Hsrc.
  destruct (file_plain _ _ _ Hsrc) as [Hsp Hf].
  apply bind_ok in E as ([] & w1 & E1 & E).
  apply bind_ok in E as (r & w2 & E2 & E). injection E as _ <-.
  apply mkdir_parents_grows in E1.
  assert (lookup_node (fs w1) svg_path = Some (File source)) as Hsrc1.
  { rewrite lookup_node_plain by done.
    destruct (E1 svg_path) as [->|[Hn _]]; [done|congruence]. }
  apply svg2png_inv in E2 as [(e & ? & _)|(s & png & Hs & Hc & _ & -> & _ & Ho & _)];
    [done|].
  rewrite Hsrc1 in Hs. injection Hs as <-. exists png. split; [done|].
  simpl. rewrite lookup_node_plain by done. by rewrite lookup_insert_eq.
Qed.

(** After the loop every PNG of the table is in place, when the avatar is
    none of the paths the loop writes. *)
Lemma png_loop_settled cairosvg avatar_svg out_dir source l :
  Forall (fun job : string * Z => plain_name job.1) l ->
  NoDup (map fst l) ->
  ~ loop_footprint out_dir l avatar_svg ->
  forall acc w generated w',
    lookup_node (fs w) avatar_svg = Some (File source) ->
    for_each l acc (png_step cairosvg avatar_svg out_dir) w = (Ok generated, w') ->
    forall job, job ∈ l -> settled cairosvg source out_dir (fs w') job.
Proof.
  induction l as [|job l IH]; intros Hl Hn Ha acc w generated w' Hsrc E j Hj.
  { by apply elem_of_nil in Hj. }
  apply Forall_cons_1 in Hl as [Hp Hl]. simpl in Hn.
  apply NoDup_cons in Hn as [Hj1 Hn]. simpl in E.
  apply bind_ok in E as (acc1 & w1 & E1 & E).
  unfold png_step in E1. apply bind_ok in E1 as ([] & w0 & E1 & E0).
  injection E0 as <- <-.
  apply render_png_settles with (source := source) in E1 as Hpng; [|done].
  apply render_png_frame in E1 as [_ Hfr].
  assert (lookup_node (fs w0) avatar_svg = Some (File source)) as Hsrc0.
  { rewrite <- Hsrc. apply lookup_node_ext, Hfr. intros [H| ->]; apply Ha.
    - left. by rewrite parent_join in H.
    - right. exists job. split; [by left|done]. }
  assert (~ loop_footprint out_dir l avatar_svg) as Ha'.
  { intros [H|(j' & Hj' & ->)]; apply Ha; [by left|].
    right. exists j'. split; [by right|done]. }
  apply elem_of_cons in Hj as [->|Hj]; [|by eapply (IH Hl Hn Ha')].
  destruct Hpng as (png & Hc & Ho). exists png. split; [done|].
  rewrite <- Ho. apply lookup_node_ext.
  eapply png_loop_frame in E as [_ Hfr']; [|done]. apply Hfr'.
  intros [H|(j' & Hj' & Heq)].
  - by apply join_not_prefix in H.
  - apply join_inj in Heq; [|done|by apply (proj1 (Forall_forall _ _) Hl)].
    apply Hj1. rewrite Heq. by apply list_elem_of_fmap_2.
Qed.

Lemma again_ext {A : Type} F (P : A -> Prop) (m m' : M A) :
  (forall w, m w = m' w) -> again F P m' -> again F P m.
Proof.
  intros H Hm u Hu. destruct (Hm u Hu) as (a & u' & E & ?).
  exists a, u'. by rewrite H.
Qed.

(** When every output is in place and the avatar is what it was, the
    rendering and the rest of [main] go through and change nothing. *)
Lemma again_rendering env cairosvg Image avatar out skip F source
    p16 p32 p48 (i16 i32 i48 : Img Image) ico :
  cairosvg_package env = Some cairosvg ->
  pillow_package env = Some Image ->
  lookup_node F avatar = Some (File source) ->
  (forall d, d `prefix_of` out -> lookup_node F d = Some Dir) ->
  (forall job, job ∈ png_table -> settled cairosvg source out F job) ->
  convert cairosvg source 16 16 = Some p16 ->
  convert cairosvg source 32 32 = Some p32 ->
  convert cairosvg source 48 48 = Some p48 ->
  open_image Image p16 = Some i16 ->
  open_image Image p32 = Some i32 ->
  open_image Image p48 = Some i48 ->
  encode_ico Image i16 ico_sizes [i32; i48] = Some ico ->
  lookup_node F (out // "favicon.ico") = Some (File ico) ->
  (skip = false ->
   again F (const True)
     (write_favicon_svg avatar (out // "favicon.svg") FAVICON_SVG_SIZE)) ->
  again F (eq 0%Z) (render_all env avatar out ≫= main_finish env skip).
Proof.
  intros Hc Hp Ha Hd Hj H16 H32 H48 O16 O32 O48 He Hi Hs.
  eapply (again_bind _ (fun st => exists g, st = Some (avatar, out, g))).
  - unfold render_all.
    eapply (again_bind _ (eq (cairosvg, Image))).
    { unfold require_packages. rewrite Hc, Hp. by apply again_ret. }
    intros ? <-. cbv beta iota.
    eapply again_bind with (P := const True).
    { eapply again_ext; [apply table_loop_flat|].
      apply again_for_each. intros acc job Hin.
      destruct (Hj job Hin) as (png & Hcv & Ho).
      assert (plain_name job.1) as Hn
        by (by apply (proj1 (Forall_forall _ _) png_table_plain)).
      unfold png_step.
      eapply again_bind; [|intros _ _; by apply again_ret].
      eapply again_render_png; eauto. by rewrite parent_join. }
    intros generated _.
    eapply again_bind; [|intros _ _; apply again_ret; by eexists].
    eapply again_render_ico; eauto.
    by rewrite parent_join by apply favicon_ico_plain.
  - intros st (g & ->). unfold main_finish.
    eapply again_bind with (P := const True).
    { destruct skip; cbn [negb]; [by apply again_ret|].
      eapply again_bind; [by apply Hs|intros _ _; by apply again_ret]. }
    intros g' _.
    eapply again_bind; [apply again_print|intros _ _]. by apply again_ret.
Qed.

Lemma png_name_not_favicon job name :
  job ∈ png_table -> name ∈ ["favicon.ico"; "favicon.svg"]%string -> job.1 <> name.
Proof.
  intros Hj Hn Heq. pose proof output_names_NoDup as H. unfold output_names in H.
  apply NoDup_app in H as (_ & H & _). apply (H job.1).
  - by apply list_elem_of_fmap_2.
  - by rewrite Heq.
Qed.

(** What a run that returned 0 has left, when the avatar is none of the
    paths it writes. *)
Lemma main_ok_inv env args w w' avatar :
  main env args w = (Ok 0%Z, w') ->
  resolve_svg (script_dir env) (avatar_svg args) "logo_thumbnail.svg"
    "brand-assets/logo_thumbnail.svg" w = (Ok avatar, w) ->
  ~ run_footprint (Pathlib.of_string (out_dir args)) avatar ->
  let out := Pathlib.of_string (out_dir args) in
  exists cairosvg Image source p16 p32 p48 (i16 i32 i48 : Img Image) ico,
    cairosvg_package env = Some cairosvg
    /\ pillow_package env = Some Image
    /\ lookup_node (fs w) avatar = Some (File source)
    /\ lookup_node (fs w') avatar = Some (File source)
    /\ (forall d, d `prefix_of` out -> lookup_node (fs w') d = Some Dir)
    /\ (forall job, job ∈ png_table -> settled cairosvg source out (fs w') job)
    /\ convert cairosvg source 16 16 = Some p16
    /\ convert cairosvg source 32 32 = Some p32
    /\ convert cairosvg source 48 48 = Some p48
    /\ open_image Image p16 = Some i16
    /\ open_image Image p32 = Some i32
    /\ open_image Image p48 = Some i48
    /\ encode_ico Image i16 ico_sizes [i32; i48] = Some ico
    /\ lookup_node (fs w') (out // "favicon.ico") = Some (File ico)
    /\ (skip_favicon_svg args = false ->
        again (fs w') (const True)
          (write_favicon_svg avatar (out // "favicon.svg") FAVICON_SVG_SIZE)).
Proof.
  intros E Ha Hout out. fold out in Hout.
  assert (forall name, name ∈ output_names -> avatar <> out // name) as Hav.
  { intros name Hn ->. apply Hout. right. by exists name. }
  assert (forall d, d `prefix_of` out -> avatar <> d) as Hav'.
  { intros d Hd ->. apply Hout. by left. }
  assert (forall name, name ∈ output_names -> plain_name name) as Hplain
    by apply (proj1 (Forall_forall _ _) output_names_plain).
  assert ("favicon.ico"%string ∈ output_names) as Hico.
  { unfold output_names. apply elem_of_app. right. by left. }
  assert ("favicon.svg"%string ∈ output_names) as Hsvg.
  { unfold output_names. apply elem_of_app. right. right. by left. }
  assert (forall job, job ∈ png_table -> job.1 ∈ output_names) as Hpng.
  { intros job Hj. unfold output_names. apply elem_of_app. left.
    by apply list_elem_of_fmap_2. }
  rewrite main_split in E.
  assert (is_Some (lookup_node (fs w) avatar)) as Hthere.
  { apply bind_ok in E as (st & w3 & Ec & Ef).
    destruct st as [[[a o] g]|]; [|done].
    apply main_common_ok in Ec as (Ha2 & Hs & _). rewrite Ha in Ha2.
    by injection Ha2 as <-. }
  destruct (main_common_present env args w avatar Ha Hthere)
    as (l & d & _ & _ & Hm).
  rewrite (bind_at _ _ _ _ Hm), bind_assoc in E. fold out in E.
  apply bind_ok in E as ([] & w1 & E1 & E).
  apply warn_extended_warned in E1 as [(Hf1 & _) _].
  apply bind_ok in E as (st & w3o & Er & Ef).
  unfold render_all in Er.
  apply bind_ok in Er as ([cairosvg Image] & w2 & E2 & Er).
  apply require_packages_quiet in E2 as Q2. destruct Q2 as (Hf2 & _).
  apply require_packages_ok in E2 as [Hc Hp].
  apply bind_ok in Er as (g & w2' & E3 & Er).
  apply bind_ok in Er as ([] & w3 & E4 & Er). injection Er as <- <-.
  rewrite table_loop_flat in E3.
  apply render_ico_frame in E4 as Hfr4. destruct Hfr4 as [_ Hfr4].
  apply render_ico_ok in E4 as Hok4. destruct Hok4 as (_ & _ & Hd3 & _ & _).
  unfold png_footprint in Hfr4.
  rewrite parent_join in Hd3 by apply favicon_ico_plain.
  setoid_rewrite parent_join in Hfr4; [|apply favicon_ico_plain].
  apply render_ico_ok_inv in E4
    as (source & p16 & p32 & p48 & i16 & i32 & i48 & ico & w0 & w1i & Hs2' & H16
        & H32 & H48 & O16 & O32 & O48 & He & _ & _ & Hw3 & Hsp & _).
  assert (lookup_node (fs w3) (out // "favicon.ico") = Some (File ico)) as Hi3.
  { rewrite Hw3. simpl. rewrite lookup_node_plain by done.
    by rewrite lookup_insert_eq. }
  clear Hw3 w0 w1i.
  eapply png_loop_frame in E3 as Hfr3; [|apply png_table_plain].
  destruct Hfr3 as [_ Hfr3].
  assert (lookup_node (fs w2) avatar = Some (File source)) as Hs2.
  { rewrite <- Hs2'. symmetry. apply lookup_node_ext, Hfr3.
    intros [H|(job & Hj & Heq)]; [by apply (Hav' _ H)|].
    by apply (Hav job.1 (Hpng _ Hj)). }
  assert (forall job, job ∈ png_table ->
            settled cairosvg source out (fs w2') job) as Hj2.
  { eapply png_loop_settled; [apply png_table_plain|apply png_names_NoDup
                             | |exact Hs2|exact E3].
    intros [H|(job & Hj & Heq)]; [by apply (Hav' _ H)|].
    by apply (Hav job.1 (Hpng _ Hj)). }
  assert (forall job, job ∈ png_table ->
            settled cairosvg source out (fs w3) job) as Hj3.
  { intros job Hj. destruct (Hj2 job Hj) as (png & Hcv & Ho).
    exists png. split; [done|]. rewrite <- Ho. apply lookup_node_ext, Hfr4.
    intros [H|Heq].
    - by apply join_not_prefix in H; [|apply Hplain, Hpng].
    - apply join_inj in Heq; [|by apply Hplain, Hpng|by apply Hplain].
      apply (png_name_not_favicon job "favicon.ico"); [done|by left|done]. }
  assert (exists w4,
            fs w' = fs w4
            /\ (forall p, p <> out // "favicon.svg" -> fs w4 !! p = fs w3 !! p)
            /\ (skip_favicon_svg args = false ->
                again (fs w4) (const True)
                  (write_favicon_svg avatar (out // "favicon.svg")
                     FAVICON_SVG_SIZE))) as (w4 & Hw' & Hfr & Hagain).
  { destruct (skip_favicon_svg args) eqn:Hskip.
    - rewrite main_finish_skip in Ef. injection Ef as <-. by exists w3.
    - unfold main_finish in Ef. cbn [negb] in Ef.
      apply bind_ok in Ef as (g' & w4o & Ew & Ef).
      apply bind_ok in Ew as ([] & w4 & Ew & Eg). injection Eg as _ <-.
      apply bind_ok in Ef as ([] & w5 & [= <-] & [= <-]).
      exists w4. split; [done|].
      assert (forall d, d `prefix_of` Pathlib.parent (out // "favicon.svg") ->
                lookup_node (fs w3) d = Some Dir) as Hd3'
        by (by rewrite parent_join by apply favicon_svg_plain).
      apply write_favicon_svg_only_dst in Ew as Hfr; [|done].
      destruct Hfr as [_ Hfr]. split; [intros p Hne; apply Hfr; congruence|].
      intros _. apply (again_write_favicon_svg _ _ _ w3); [done|by apply Hav|].
      intros d0 Hd0. rewrite <- (Hd3' d0 Hd0). apply lookup_node_ext, Hfr.
      intros <-. rewrite parent_join in Hd0 by apply favicon_svg_plain.
      by apply join_not_prefix in Hd0; [|apply favicon_svg_plain]. }
  assert (forall p, p <> out // "favicon.svg" ->
            lookup_node (fs w') p = lookup_node (fs w3) p) as Hsame.
  { intros p Hne. rewrite Hw'. by apply lookup_node_ext, Hfr. }
  exists cairosvg, Image, source, p16, p32, p48, i16, i32, i48, ico.
  split; [done|]. split; [done|]. split; [by rewrite <- Hf1, <- Hf2|].
  split.
  { rewrite Hsame; [|by apply Hav]. rewrite <- Hs2'. apply lookup_node_ext, Hfr4.
    intros [H|Heq]; [by apply (Hav' _ H)|by apply (Hav _ Hico)]. }
  split.
  { intros d0 Hd0. rewrite Hsame; [by apply Hd3|].
    intros ->. by apply join_not_prefix in Hd0; [|apply favicon_svg_plain]. }
  split.
  { intros job Hj. destruct (Hj3 job Hj) as (png & Hcv & Ho).
    exists png. split; [done|]. rewrite Hsame; [done|]. intros Heq.
    apply join_inj in Heq; [|by apply Hplain, Hpng|by apply Hplain].
    apply (png_name_not_favicon job "favicon.svg"); [done|by right; left|done]. }
  repeat (split; [done|]). split.
  { rewrite Hsame; [done|]. intros Heq.
    by apply join_inj in Heq; [|by apply Hplain|by apply Hplain]. }
  intros Hs. rewrite Hw'. by apply Hagain.
Qed.

(** X8. A run that completes with status 0 can be repeated: when the
    avatar is found at the same path again and is none of the paths the
    run writes, a second run from the world the first one leaves also
    returns 0 and leaves every file and directory as it found it. *)
Theorem main_idempotent env args w w' avatar :
  main env args w = (Ok 0%Z, w') ->
  resolve_svg (script_dir env) (avatar_svg args) "logo_thumbnail.svg"
    "brand-assets/logo_thumbnail.svg" w = (Ok avatar, w) ->
  resolve_svg (script_dir env) (avatar_svg args) "logo_thumbnail.svg"
    "brand-assets/logo_thumbnail.svg" w' = (Ok avatar, w') ->
  ~ run_footprint (Pathlib.of_string (out_dir args)) avatar ->
  exists w'', main env args w' = (Ok 0%Z, w'') /\ fs w'' = fs w'.
Proof.
  intros E Ha Ha' Hout.
  destruct (main_ok_inv env args w w' avatar E Ha Hout)
    as (cairosvg & Image & source & p16 & p32 & p48 & i16 & i32 & i48 & ico
        & Hc & Hp & _ & HsF & Hd & Hj & H16 & H32 & H48 & O16 & O32 & O48 & He
        & Hi & Hs).
  set (out := Pathlib.of_string (out_dir args)) in *.
  destruct (main_common_present env args w' avatar Ha')
    as (l' & d' & _ & _ & Hm'); [by rewrite HsF|].
  rewrite main_split, (bind_at _ _ _ _ Hm'), bind_assoc. fold out.
  destruct (warn_extended_returns l' d' w') as ([] & u1 & Eu).
  rewrite (bind_step _ _ _ _ _ Eu).
  apply warn_extended_warned in Eu as [(Hfu & _) _].
  destruct (again_rendering env cairosvg Image avatar out (skip_favicon_svg args)
              (fs w') source p16 p32 p48 i16 i32 i48 ico) with (u := u1)
    as (a & w'' & Erun & Hfs & <-); try done.
  by exists w''.
Qed.

Lemma main_idempotent_witness :
  let w := world_with "logo.svg" sized_svg in
  let w' := (main demo_env (demo_args false) w).2 in
  exists w'', main demo_env (demo_args false) w' = (Ok 0%Z, w'')
              /\ fs w'' = fs w'.
Proof.
  intros w w'. subst w'.
  apply (main_idempotent demo_env (demo_args false) w _ ["logo.svg"%string]).
  - apply (ok_result (main demo_env (demo_args false)) w 0%Z).
    vm_compute. reflexivity.
  - reflexivity.
  - reflexivity.
  - intros [H|(name & Hn & Heq)].
    + apply prefix_cons_inv_1 in H. discriminate.
    + rewrite join_plain in Heq
        by (by apply (proj1 (Forall_forall _ _) output_names_plain)).
      discriminate.
Defined.

(** X9. After a run that returned 0, with an avatar that is none of the
    paths the run writes, every PNG of the table holds what the converter
    gives for the avatar, as it was before the run, at the size of the
    pair, and [favicon.ico] holds what the encoder gives for the three
    frames converted at 16, 32 and 48 pixels and opened as images. *)
Theorem outputs_hold_conversions env args w w' avatar :
  main env args w = (Ok 0%Z, w') ->
  resolve_svg (script_dir env) (avatar_svg args) "logo_thumbnail.svg"
    "brand-assets/logo_thumbnail.svg" w = (Ok avatar, w) ->
  ~ run_footprint (Pathlib.of_string (out_dir args)) avatar ->
  let out := Pathlib.of_string (out_dir args) in
  exists cairosvg Image source,
    cairosvg_package env = Some cairosvg
    /\ pillow_package env = Some Image
    /\ lookup_node (fs w) avatar = Some (File source)
    /\ (forall name size, (name, size) ∈ png_table ->
          exists png, convert cairosvg source size size = Some png
                      /\ fs w' !! (out // name) = Some (File png))
    /\ exists p16 p32 p48 (i16 i32 i48 : Img Image) ico,
         convert cairosvg source 16 16 = Some p16
         /\ convert cairosvg source 32 32 = Some p32
         /\ convert cairosvg source 48 48 = Some p48
         /\ open_image Image p16 = Some i16
         /\ open_image Image p32 = Some i32
         /\ open_image Image p48 = Some i48
         /\ encode_ico Image i16 [(16, 16); (32, 32); (48, 48)]%Z [i32; i48]
            = Some ico
         /\ fs w' !! (out // "favicon.ico") = Some (File ico).
Proof.
  intros E Ha Hout out.
  destruct (main_ok_inv env args w w' avatar E Ha Hout)
    as (cairosvg & Image & source & p16 & p32 & p48 & i16 & i32 & i48 & ico
        & Hc & Hp & Hs & _ & _ & Hj & H16 & H32 & H48 & O16 & O32 & O48 & He
        & Hi & _).
  fold out in Hj, Hi.
  exists cairosvg, Image, source. repeat (split; [done|]). split.
  - intros name size Hin. destruct (Hj _ Hin) as (png & Hcv & Ho).
    exists png. split; [done|]. by apply file_plain in Ho as [_ Ho].
  - exists p16, p32, p48, i16, i32, i48, ico. repeat (split; [done|]).
    by apply file_plain in Hi as [_ Hi].
Qed.

Lemma outputs_hold_conversions_witness :
  let w := world_with "logo.svg" sized_svg in
  let w' := (main demo_env (demo_args false) w).2 in
  let out := Pathlib.of_string (out_dir (demo_args false)) in
  exists cairosvg Image source,
    cairosvg_package demo_env = Some cairosvg
    /\ pillow_package demo_env = Some Image
    /\ lookup_node (fs w) ["logo.svg"%string] = Some (File source)
    /\ (forall name size, (name, size) ∈ png_table ->
          exists png, convert cairosvg source size size = Some png
                      /\ fs w' !! (out // name) = Some (File png))
    /\ exists p16 p32 p48 (i16 i32 i48 : Img Image) ico,
         convert cairosvg source 16 16 = Some p16
         /\ convert cairosvg source 32 32 = Some p32
         /\ convert cairosvg source 48 48 = Some p48
         /\ open_image Image p16 = Some i16
         /\ open_image Image p32 = Some i32
         /\ open_image Image p48 = Some i48
         /\ encode_ico Image i16 [(16, 16); (32, 32); (48, 48)]%Z [i32; i48]
            = Some ico
         /\ fs w' !! (out // "favicon.ico") = Some (File ico).
Proof.
  intros w w'. subst w'.
  apply (outputs_hold_conversions demo_env (demo_args false) w _
           ["logo.svg"%string]).
  - apply (ok_result (main demo_env (demo_args false)) w 0%Z).
    vm_compute. reflexivity.
  - reflexivity.
  - intros [H|(name & Hn & Heq)].
    + apply prefix_cons_inv_1 in H. discriminate.
    + rewrite join_plain in Heq
        by (by apply (proj1 (Forall_forall _ _) output_names_plain)).
      discriminate.
Defined.

(** *** What is raised *)

(** [raises P m]: whatever [m] raises satisfies [P]. *)
Definition raises {A : Type} (P : exn -> Prop) (m : M A) : Prop :=
  forall w e w', m w = (Raised e, w') -> P e.

(** An exception that is not [SystemExit], or is [SystemExit(1)]. *)
Definition exit_1 (e : exn) : Prop := forall code, e = SystemExit code -> code = 1%Z.

(** An exception of the file system, of the codecs, of [re] or of the
    converter: neither [SystemExit] nor the error of the image package. *)
Definition ordinary (e : exn) : Prop :=
  match e with
  | SystemExit _ | ImageError => False
  | _ => True
  end.

Lemma ordinary_exit_1 e : ordinary e -> exit_1 e.
Proof. by destruct e. Qed.

Lemma raises_weaken {A : Type} (P Q : exn -> Prop) (m : M A) :
  (forall e, P e -> Q e) -> raises P m -> raises Q m.
Proof. intros H Hm w e w' E. by eapply H, Hm. Qed.

Lemma raises_ret {A : Type} P (a : A) : raises P (mret a).
Proof. by intros w e w' E. Qed.

Lemma raises_raise {A : Type} (P : exn -> Prop) e : P e -> raises P (@raise A e).
Proof. by intros H w e' w' [= <- _]. Qed.

Lemma raises_bind {A B : Type} P (m : M A) (f : A -> M B) :
  raises P m -> (forall a, raises P (f a)) -> raises P (m ≫= f).
Proof.
  intros Hm Hf w e w'. unfold mbind, M_bind.
  destruct (m w) as [[a|e1] w1] eqn:E.
  - apply Hf.
  - intros [= <- _]. by eapply Hm.
Qed.

Lemma raises_for_each {A B : Type} P (l : list A) (body : B -> A -> M B) :
  (forall acc x, raises P (body acc x)) -> forall acc, raises P (for_each l acc body).
Proof.
  intros Hb. induction l as [|x l IH]; intros acc; simpl.
  - apply raises_ret.
  - apply raises_bind; [apply Hb|apply IH].
Qed.

Lemma raises_returns {A : Type} P (m : M A) : returns m -> raises P m.
Proof. intros H w e w' E. destruct (H w) as (a & w1 & E'). congruence. Qed.

Lemma raises_read_bytes p : raises ordinary (read_bytes p).
Proof.
  intros w e w'. unfold read_bytes.
  destruct (lookup_node (fs w) p) as [[b|]|]; by intros [= <- _].
Qed.

Lemma raises_write_bytes p b : raises ordinary (write_bytes p b).
Proof.
  intros w e w'. unfold write_bytes.
  destruct (lookup_node (fs w) p) as [[c|]|];
    destruct (lookup_node (fs w) (Pathlib.parent p)) as [[c'|]|];
    by intros [= <- _].
Qed.

Lemma raises_mkdir_parents p : raises ordinary (mkdir_parents p).
Proof.
  apply raises_for_each. intros acc d w e w'. unfold mkdir_step.
  destruct (lookup_node (fs w) d) as [[c|]|]; try done.
  intros [= <- _]. by destruct (bool_decide _).
Qed.

Lemma raises_read_text p : raises ordinary (read_text p).
Proof.
  unfold read_text. apply raises_bind; [apply raises_read_bytes|intros b].
  destruct (Utf8.decode b); [apply raises_ret|by apply raises_raise].
Qed.

Lemma raises_write_text p s : raises ordinary (write_text p s).
Proof.
  unfold write_text. apply raises_bind; [apply raises_write_bytes|intros _].
  destruct (Utf8.encode s); [apply raises_write_bytes|by apply raises_raise].
Qed.

Lemma raises_copyfile src dst : raises ordinary (copyfile src dst).
Proof.
  unfold copyfile. apply raises_bind; [by apply raises_returns, returns_exists|].
  intros there. destruct (_ && _); [by apply raises_raise|].
  apply raises_bind; [apply raises_read_bytes|intros b]. apply raises_write_bytes.
Qed.

Lemma raises_svg2png cairosvg url write_to x y :
  raises ordinary (svg2png cairosvg url write_to x y).
Proof.
  unfold svg2png. apply raises_bind; [by intros w e w'|intros _].
  apply raises_bind; [apply raises_read_bytes|intros source].
  destruct (convert cairosvg source x y); [|by apply raises_raise].
  destruct write_to; [|apply raises_ret].
  apply raises_bind; [apply raises_write_bytes|intros _; apply raises_ret].
Qed.

Lemma raises_render_png cairosvg svg_path out_path size :
  raises ordinary (render_png cairosvg svg_path out_path size).
Proof.
  unfold render_png. apply raises_bind; [apply raises_mkdir_parents|intros _].
  apply raises_bind; [apply raises_svg2png|intros _; apply raises_ret].
Qed.

Lemma raises_render_ico cairosvg Image svg_path out_path :
  raises exit_1 (render_ico cairosvg Image svg_path out_path).
Proof.
  assert (forall A (m : M A), raises ordinary m -> raises exit_1 m) as Ho.
  { intros A m. apply raises_weaken, ordinary_exit_1. }
  unfold render_ico. apply raises_bind; [|intros images].
  - apply raises_for_each. intros acc size.
    apply raises_bind; [apply Ho, raises_svg2png|intros png].
    apply raises_bind; [|intros; apply raises_ret].
    unfold image_open. destruct (open_image _ _);
      [apply raises_ret|by apply raises_raise].
  - apply raises_bind; [apply Ho, raises_mkdir_parents|intros _].
    destruct (images !! O); [|by apply raises_raise].
    unfold image_save_ico. apply raises_bind; [by intros w e w'|intros _].
    apply raises_bind; [by apply raises_returns, returns_exists|intros there].
    apply raises_bind; [apply Ho, raises_write_bytes|intros _].
    destruct (encode_ico _ _ _ _); [apply Ho, raises_write_bytes|].
    apply raises_bind; [|intros _; by apply raises_raise].
    destruct there; [apply raises_ret|by intros w e w'].
Qed.

Lemma raises_write_favicon_svg svg_path out_path size :
  raises ordinary (write_favicon_svg svg_path out_path size).
Proof.
  assert (forall name updated, raises ordinary (set_attribute name size updated))
    as Hset.
  { intros name updated. unfold set_attribute.
    destruct (Re.search _ _ _) as [[m|]|];
      [|destruct (endswith _ _); apply raises_ret|by apply raises_raise].
    destruct (Re.sub _ _ _); [apply raises_ret|by apply raises_raise]. }
  unfold write_favicon_svg. apply raises_bind; [apply raises_read_text|].
  intros content. destruct (Re.search _ _ _) as [[[b e]|]|];
    [|apply raises_copyfile|by apply raises_raise].
  apply raises_bind; [apply Hset|intros u1].
  apply raises_bind; [apply Hset|intros u2].
  apply raises_bind; [apply raises_mkdir_parents|intros _].
  apply raises_write_text.
Qed.

Lemma raises_require_packages env :
  raises (eq (SystemExit 1)) (require_packages env).
Proof.
  unfold require_packages.
  destruct (cairosvg_package env); [destruct (pillow_package env)|].
  - apply raises_ret.
  - apply raises_bind; [by intros w e w'|intros _].
    apply raises_bind; [by intros w e w'|intros _]. by apply raises_raise.
  - apply raises_bind; [by intros w e w'|intros _].
    apply raises_bind; [by intros w e w'|intros _]. by apply raises_raise.
Qed.

Lemma raises_resolve_svg P script_dir arg_value script_name fallback :
  raises P (resolve_svg script_dir arg_value script_name fallback).
Proof.
  intros w e w' E.
  destruct (resolve_svg_pure script_dir arg_value script_name fallback w) as [p H].
  congruence.
Qed.

Lemma raises_table_loop cairosvg avatar out :
  raises ordinary (table_loop cairosvg avatar out).
Proof.
  unfold table_loop. apply raises_for_each. intros acc [prefix sizes].
  apply raises_for_each. intros acc' size.
  apply raises_bind; [apply raises_render_png|intros _; apply raises_ret].
Qed.

Lemma raises_main_finish env skip state :
  raises ordinary (main_finish env skip state).
Proof.
  unfold main_finish. destruct state as [[[avatar out] generated]|];
    [|apply raises_ret].
  apply raises_bind; [|intros g].
  - destruct (negb _); [|apply raises_ret].
    apply raises_bind; [apply raises_write_favicon_svg|intros _; apply raises_ret].
  - apply raises_bind; [by intros w e w'|intros _; apply raises_ret].
Qed.

Lemma raises_main env args : raises exit_1 (main env args).
Proof.
  assert (forall A (m : M A), raises ordinary m -> raises exit_1 m) as Ho.
  { intros A m. apply raises_weaken, ordinary_exit_1. }
  intros w e w' E. rewrite main_split in E. revert w e w' E.
  apply raises_bind; [|intros st; apply Ho, raises_main_finish].
  unfold main_common.
  apply raises_bind; [apply raises_resolve_svg|intros avatar].
  apply raises_bind; [apply raises_resolve_svg|intros light].
  apply raises_bind; [apply raises_resolve_svg|intros dark].
  cbv zeta.
  apply raises_bind; [by apply raises_returns, returns_exists|intros there].
  destruct (negb there).
  { apply raises_bind; [by intros w e w'|intros _].
    apply raises_bind; [by intros w e w'|intros _]. apply raises_ret. }
  apply raises_bind; [|intros missing].
  { apply raises_for_each. intros acc p.
    apply raises_bind; [by apply raises_returns, returns_exists|].
    intros; apply raises_ret. }
  apply raises_bind; [|intros _].
  { destruct (bool_decide _); [apply raises_ret|].
    apply raises_bind; [by intros w e w'|intros _].
    apply raises_for_each. by intros acc p w e w'. }
  apply raises_bind; [|intros [cairosvg Image]].
  { apply (raises_weaken (eq (SystemExit 1))); [|apply raises_require_packages].
    by intros e <- code [= <-]. }
  apply raises_bind; [apply Ho, raises_table_loop|intros generated].
  apply raises_bind; [apply raises_render_ico|intros _; apply raises_ret].
Qed.

Lemma main_finish_raised env skip state w e w' :
  main_finish env skip state w = (Raised e, w') -> stdout w' = stdout w.
Proof.
  destruct state as [[[avatar out] generated]|]; [|done].
  unfold main_finish. destruct skip; cbn [negb]; [done|].
  destruct (write_favicon_svg avatar (out // "favicon.svg") FAVICON_SVG_SIZE w)
    as [[[]|e'] w1] eqn:Ew.
  - by rewrite bind_assoc, (bind_step _ _ _ _ _ Ew).
  - rewrite bind_assoc, (bind_raised _ _ _ _ _ Ew). intros [= _ <-].
    by apply write_favicon_svg_frame in Ew as [Ho _].
Qed.

(** X10. Once the command line is parsed ([parse_args] has returned the
    arguments; what [argparse] does with [--help] or with a command line
    it refuses comes before and is not part of this), the exit status of
    the program is 0 or 1, whatever happens next.  With status 0 the
    standard output has grown by one line, the summary, which counts 22
    files with [--skip-favicon-svg] and 23 without and names the resolved
    output directory; with status 1 nothing was printed on the standard
    output. *)
Theorem run_status_and_summary env args w :
  let result := run env args w in
  let out := Pathlib.of_string (out_dir args) in
  (result.1 = 0%Z
   /\ stdout result.2
      = stdout w ++ [summary env out (if skip_favicon_svg args then 22 else 23)])
  \/ (result.1 = 1%Z /\ stdout result.2 = stdout w).
Proof.
  intros result out. subst result. unfold run.
  destruct (main env args w) as [[status|e] w'] eqn:E.
  - rewrite main_split in E. apply bind_ok in E as (st & w1 & Ec & Ef).
    apply main_common_frame in Ec as Hfr. destruct Hfr as [Ho _].
    destruct st as [[[avatar out'] generated]|].
    2:{ injection Ef as <- <-. by right. }
    apply main_common_ok in Ec as (_ & _ & -> & -> & _ & _ & Hd & _).
    fold out in Ef, Hd. left. destruct (skip_favicon_svg args).
    + rewrite main_finish_skip in Ef. injection Ef as <- <-.
      simpl. by rewrite Ho.
    + apply main_finish_noskip in Ef as (_ & _ & H); [|done].
      destruct (H _ eq_refl) as [-> Hs]. simpl. by rewrite Hs, Ho.
  - right. assert (stdout w' = stdout w) as Ho.
    { rewrite main_split in E. unfold mbind, M_bind in E.
      destruct (main_common env args w) as [[st|e1] w1] eqn:Ec;
        apply main_common_frame in Ec as [Ho _].
      - apply main_finish_raised in E. congruence.
      - by injection E as _ <-. }
    pose proof (raises_main env args w e w' E) as He.
    destruct e; try done. simpl. split; [|done]. by apply He.
Qed.

Lemma bind_raised_inv {A B : Type} (m : M A) (f : A -> M B) w e w' :
  (m ≫= f) w = (Raised e, w') ->
  m w = (Raised e, w')
  \/ exists a w1, m w = (Ok a, w1) /\ f a w1 = (Raised e, w').
Proof.
  destruct (m w) as [[a|e1] w1] eqn:E.
  - rewrite (bind_step _ _ _ _ _ E). intros E2. right. by exists a, w1.
  - rewrite (bind_raised _ _ _ _ _ E). intros [= <- <-]. by left.
Qed.

(** X11. There is no rollback.  When the run ends with the error of the
    image package, which only [render_ico] can raise, the loop over the
    table has gone through: each of the 21 PNGs is a file in the output
    directory.  [favicon.svg] holds what it held, and nothing was printed
    on the standard output. *)
Theorem image_error_keeps_pngs env args w w' :
  main env args w = (Raised ImageError, w') ->
  let out := Pathlib.of_string (out_dir args) in
  (forall name size, (name, size) ∈ png_table -> is_file (fs w') (out // name))
  /\ fs w' !! (out // "favicon.svg") = fs w !! (out // "favicon.svg")
  /\ stdout w' = stdout w.
Proof.
  intros E out. rewrite main_split in E.
  apply bind_raised_inv in E as [E|(st & w1 & _ & E)].
  2:{ by apply raises_main_finish in E. }
  apply main_common_frame in E as Hfr. destruct Hfr as [Ho Hf].
  split; [|split; [|done]].
  2:{ apply Hf. intros [Hp|(name & Hn & Heq)].
      - by apply join_not_prefix in Hp; [|apply favicon_svg_plain].
      - apply join_inj in Heq; [|apply favicon_svg_plain|].
        + subst name. revert Hn. apply (bool_decide_unpack _). by vm_compute.
        + apply (proj1 (Forall_forall _ _) output_names_plain).
          unfold output_names. apply elem_of_app.
          apply elem_of_app in Hn as [Hn|Hn]; [by left|right].
          apply list_elem_of_singleton in Hn as ->. by left. }
  clear Ho Hf. unfold main_common in E. fold out in E.
  apply bind_raised_inv in E as [E|(avatar & u & _ & E)];
    [by apply (raises_resolve_svg ordinary) in E|].
  apply bind_raised_inv in E as [E|(light & u1 & _ & E)];
    [by apply (raises_resolve_svg ordinary) in E|].
  apply bind_raised_inv in E as [E|(dark & u2 & _ & E)];
    [by apply (raises_resolve_svg ordinary) in E|].
  cbv zeta in E.
  apply bind_raised_inv in E as [E|(there & u3 & _ & E)]; [done|].
  destruct (negb there); [done|].
  apply bind_raised_inv in E as [E|(missing & u4 & _ & E)].
  { eapply (raises_for_each ordinary) in E; [done|]. intros acc p.
    apply raises_bind; [by apply raises_returns, returns_exists|].
    intros; apply raises_ret. }
  apply bind_raised_inv in E as [E|([] & u5 & _ & E)].
  { revert E. destruct (bool_decide _); [done|]. intros E.
    apply bind_raised_inv in E as [E|(? & ? & _ & E)]; [done|].
    eapply (raises_for_each ordinary) in E; [done|]. by intros acc p ? ? ?. }
  apply bind_raised_inv in E as [E|([cairosvg Image] & u6 & _ & E)].
  { by apply raises_require_packages in E. }
  apply bind_raised_inv in E as [E|(generated & u7 & E3 & E)];
    [by apply raises_table_loop in E|].
  apply bind_raised_inv in E as [E|(? & ? & _ & E)]; [|done].
  rewrite table_loop_flat in E3.
  apply png_loop_ok in E3 as (_ & _ & Hfiles & _); [|apply png_table_plain].
  apply render_ico_kept in E as [Hk _].
  intros name size Hin. apply Hk. by apply (Hfiles (name, size)).
Qed.

Lemma raised_result {A : Type} (m : M A) (w : World) (e : exn) :
  (m w).1 = Raised e -> m w = (Raised e, (m w).2).
Proof. destruct (m w); simpl; congruence. Qed.

(** An image package whose encoder fails. *)
Definition demo_pillow_failing : PILImage :=
  {| Img := bytes;
     open_image := Some;
     encode_ico := fun _ _ _ => None |}.

Lemma image_error_keeps_pngs_witness :
  let env := {| script_dir := script_dir demo_env;
                cwd := cwd demo_env;
                cairosvg_package := Some demo_cairosvg;
                pillow_package := Some demo_pillow_failing |} in
  let w := world_with "logo.svg" sized_svg in
  let w' := (main env (demo_args false) w).2 in
  let out := Pathlib.of_string (out_dir (demo_args false)) in
  (forall name size, (name, size) ∈ png_table -> is_file (fs w') (out // name))
  /\ fs w' !! (out // "favicon.svg") = fs w !! (out // "favicon.svg")
  /\ stdout w' = stdout w.
Proof.
  intros env w w'. subst w'.
  apply (image_error_keeps_pngs env (demo_args false) w).
  apply (raised_result (main env (demo_args false)) w ImageError).
  vm_compute. reflexivity.
Defined.

(** *** The requests of a run that fails *)

(** [emits_some cs]: the requests made are the first few of [cs]. *)
Definition emits_some (cs : list call) (w w' : World) : Prop :=
  exists k, calls w' = calls w ++ take k cs.

(** [logs cs m]: when [m] returns it has made the requests [cs]; when it
    raises it has made the first few of them. *)
Definition logs {A : Type} (cs : list call) (m : M A) : Prop :=
  forall w r w', m w = (r, w') ->
    match r with
    | Ok _ => emits cs w w'
    | Raised _ => emits_some cs w w'
    end.

Lemma logs_some {A : Type} cs (m : M A) w r w' :
  logs cs m -> m w = (r, w') -> emits_some cs w w'.
Proof.
  intros H E. apply H in E. destruct r; [|done].
  exists (length cs). by rewrite firstn_all.
Qed.

Lemma logs_silent {A : Type} (m : M A) : always silent m -> logs [] m.
Proof.
  intros H w r w' E. apply H in E. destruct r.
  - by apply emits_nil.
  - exists O. simpl. rewrite app_nil_r. exact E.
Qed.

Lemma logs_bind_on {A B : Type} (P : A -> Prop) cs1 cs2 (m : M A) (f : A -> M B) :
  logs cs1 m -> (forall w a w', m w = (Ok a, w') -> P a) ->
  (forall a, P a -> logs cs2 (f a)) -> logs (cs1 ++ cs2) (m ≫= f).
Proof.
  intros Hm HP Hf w r w'. unfold mbind, M_bind.
  destruct (m w) as [[a|e] w1] eqn:E.
  - pose proof (HP _ _ _ E) as Ha. apply Hm in E.
    intros E2. apply (Hf a Ha) in E2. destruct r.
    + by eapply emits_trans.
    + destruct E2 as [k Hk]. exists (length cs1 + k)%nat.
      rewrite take_app_add'; [|done]. unfold emits in E.
      by rewrite Hk, E, app_assoc.
  - apply Hm in E. intros [= <- <-]. destruct E as [k Hk].
    exists (k `min` length cs1)%nat.
    rewrite take_app_le by lia. rewrite Hk. f_equal.
    destruct (decide (k <= length cs1)%nat).
    + by rewrite Nat.min_l.
    + rewrite Nat.min_r by lia. rewrite firstn_all. apply take_ge. lia.
Qed.

Lemma logs_bind {A B : Type} cs1 cs2 (m : M A) (f : A -> M B) :
  logs cs1 m -> (forall a, logs cs2 (f a)) -> logs (cs1 ++ cs2) (m ≫= f).
Proof.
  intros Hm Hf. apply (logs_bind_on (const True)); [done|done|].
  intros a _. apply Hf.
Qed.

Lemma logs_for_each {A B : Type} (f : A -> list call) (l : list A)
    (body : B -> A -> M B) :
  (forall acc x, logs (f x) (body acc x)) ->
  forall acc, logs (concat (map f l)) (for_each l acc body).
Proof.
  intros Hb. induction l as [|x l IH]; intros acc; simpl.
  - apply logs_silent. by intros w r w' [= _ <-].
  - apply logs_bind; [apply Hb|apply IH].
Qed.

Lemma logs_emits {A : Type} cs (m : M A) : always (emits cs) m -> logs cs m.
Proof.
  intros H w r w' E. apply H in E. destruct r; [done|].
  exists (length cs). by rewrite firstn_all.
Qed.

Lemma silent_of_quiet {A : Type} (m : M A) : always quiet m -> always silent m.
Proof. apply always_weaken. by intros w w' (_ & _ & H). Qed.

Lemma logs_before {A B : Type} cs (m : M A) (f : A -> M B) :
  always silent m -> (forall a, logs cs (f a)) -> logs cs (m ≫= f).
Proof. intros Hm Hf. apply (logs_bind [] cs); [by apply logs_silent|done]. Qed.

Lemma logs_after {A B : Type} cs (m : M A) (f : A -> M B) :
  logs cs m -> (forall a, always silent (f a)) -> logs cs (m ≫= f).
Proof.
  intros Hm Hf. rewrite <- (app_nil_r cs).
  apply logs_bind; [done|]. intros a. by apply logs_silent.
Qed.

Lemma image_save_ico_emits Image im fp sizes append_images :
  always (emits [SaveIco fp sizes (length append_images)])
         (image_save_ico Image im fp sizes append_images).
Proof.
  intros w r w' E.
  apply image_save_ico_inv in E as [(e & _ & Hc & _)|(ico & _ & _ & -> & _)];
    [exact Hc|done].
Qed.

Lemma logs_render_png cairosvg svg_path out_path size :
  logs [Svg2png svg_path (Some out_path) size size]
       (render_png cairosvg svg_path out_path size).
Proof.
  unfold render_png. apply logs_before; [apply mkdir_parents_silent|intros _].
  apply logs_after; [apply logs_emits, svg2png_emits|].
  intros r w r' w' [= _ <-]. reflexivity.
Qed.

Lemma logs_ico_frame cairosvg Image svg_path images size :
  logs [Svg2png svg_path None size size]
       (ico_frame cairosvg Image svg_path images size).
Proof.
  apply logs_emits. intros w r w' E. by apply ico_frame_inv in E as [-> _].
Qed.

Lemma ico_frames_length cairosvg Image svg_path (l : list Z) :
  forall acc w images w',
    for_each l acc (ico_frame cairosvg Image svg_path) w = (Ok images, w') ->
    length images = (length acc + length l)%nat.
Proof.
  induction l as [|size l IH]; intros acc w images w' E; simpl in E.
  - injection E as <- _. simpl. lia.
  - apply bind_ok in E as (acc1 & w1 & E1 & E).
    apply ico_frame_inv in E1 as [_ H].
    destruct (H _ eq_refl) as (s & png & im & _ & _ & _ & ->).
    apply IH in E. rewrite E, length_app. simpl. lia.
Qed.

Lemma logs_render_ico cairosvg Image svg_path out_path :
  logs [Svg2png svg_path None 16 16; Svg2png svg_path None 32 32;
        Svg2png svg_path None 48 48; SaveIco out_path ico_sizes 2]
       (render_ico cairosvg Image svg_path out_path).
Proof.
  rewrite render_ico_unfold.
  apply (logs_bind_on (fun images => length images = 3%nat)
           [Svg2png svg_path None 16 16; Svg2png svg_path None 32 32;
            Svg2png svg_path None 48 48]
           [SaveIco out_path ico_sizes 2]).
  - apply (logs_for_each (fun size => [Svg2png svg_path None size size])).
    intros. apply logs_ico_frame.
  - intros w images w' E. by apply ico_frames_length in E.
  - intros images Hlen.
    destruct images as [|i16 [|i32 [|i48 [|? ?]]]]; try done.
    apply logs_before; [apply mkdir_parents_silent|intros _].
    apply logs_emits. apply (image_save_ico_emits Image i16 out_path ico_sizes [i32; i48]).
Qed.

Lemma main_finish_silent env skip state : always silent (main_finish env skip state).
Proof.
  unfold main_finish. destruct state as [[[avatar out] generated]|];
    [|apply always_ret; apply _].
  apply always_bind; [apply _| |intros g].
  - destruct (negb skip); [|apply always_ret; apply _].
    apply always_bind; [apply _|apply write_favicon_svg_silent|].
    intros _; apply always_ret; apply _.
  - apply always_bind; [apply _| |intros _; apply always_ret; apply _].
    by intros w r w' [= _ <-].
Qed.

Lemma logs_table_loop cairosvg avatar out :
  logs (map (fun job : string * Z =>
               Svg2png avatar (Some (out // job.1)) job.2 job.2) png_table)
       (table_loop cairosvg avatar out).
Proof.
  intros w r w' E. rewrite table_loop_flat in E. revert w r w' E.
  apply (logs_for_each
           (fun job : string * Z =>
              [Svg2png avatar (Some (out // job.1)) job.2 job.2])).
  intros acc job. unfold png_step.
  apply logs_after; [apply logs_render_png|].
  intros _ w r w' [= _ <-]. reflexivity.
Qed.

Lemma some_of_logs {A : Type} cs (m : M A) : logs cs m -> always (emits_some cs) m.
Proof. intros H w r w' E. by eapply logs_some. Qed.

Lemma some_of_silent {A : Type} cs (m : M A) :
  always silent m -> always (emits_some cs) m.
Proof.
  intros H w r w' E. apply H in E. exists O. simpl. rewrite app_nil_r. exact E.
Qed.

Lemma some_before {A B : Type} cs (m : M A) (f : A -> M B) :
  always silent m -> (forall a, always (emits_some cs) (f a)) ->
  always (emits_some cs) (m ≫= f).
Proof.
  intros Hm Hf w r w'. unfold mbind, M_bind.
  destruct (m w) as [[a|e] w1] eqn:E; apply Hm in E.
  - intros E2. apply Hf in E2 as [k Hk]. exists k. by rewrite Hk, E.
  - intros [= <- <-]. exists O. simpl. rewrite app_nil_r. exact E.
Qed.

Lemma some_after {A B : Type} cs (m : M A) (f : A -> M B) :
  always (emits_some cs) m -> (forall a, always silent (f a)) ->
  always (emits_some cs) (m ≫= f).
Proof.
  intros Hm Hf w r w'. unfold mbind, M_bind.
  destruct (m w) as [[a|e] w1] eqn:E; apply Hm in E as [k Hk].
  - intros E2. apply Hf in E2. exists k. by rewrite E2, Hk.
  - intros [= <- <-]. by exists k.
Qed.

(** X12. Whatever the outcome of [main], the requests it has made to the
    rendering packages are the first few of the fixed sequence of a
    complete run: the 21 conversions of the table in their order, then the
    three frames and the container.  A run that fails has stopped at some
    point of the sequence; it has skipped nothing and has asked for
    nothing else. *)
Theorem main_requests_in_order env args w :
  exists avatar k,
    resolve_svg (script_dir env) (avatar_svg args) "logo_thumbnail.svg"
      "brand-assets/logo_thumbnail.svg" w = (Ok avatar, w)
    /\ calls (main env args w).2
       = calls w ++ take k (run_calls avatar (Pathlib.of_string (out_dir args))).
Proof.
  destruct (resolve_svg_pure (script_dir env) (avatar_svg args)
              "logo_thumbnail.svg" "brand-assets/logo_thumbnail.svg" w)
    as [avatar Ha].
  exists avatar. set (out := Pathlib.of_string (out_dir args)).
  cut (emits_some (run_calls avatar out) w (main env args w).2).
  { intros [k Hk]. by exists k. }
  rewrite main_split. unfold main_common. rewrite bind_assoc.
  rewrite (bind_step _ _ _ _ _ Ha). fold out.
  match goal with |- emits_some ?cs _ (?m w).2 =>
    cut (always (emits_some cs) m);
      [intros H; destruct (m w) as [r w'] eqn:E; exact (H _ _ _ E)|]
  end.
  clear. apply some_after; [|intros st; apply main_finish_silent].
  apply some_before; [apply silent_of_quiet, resolve_svg_quiet|intros light].
  apply some_before; [apply silent_of_quiet, resolve_svg_quiet|intros dark].
  apply some_before; [apply silent_of_quiet, exists_quiet|intros there].
  destruct (negb there).
  { apply some_of_silent.
    apply always_bind; [apply _|apply print_err_silent|intros _].
    apply always_bind; [apply _|apply print_err_silent|intros _].
    apply always_ret; apply _. }
  apply some_before; [|intros missing].
  { apply always_for_each; [apply _|]. intros acc p _.
    apply always_bind; [apply _|apply silent_of_quiet, exists_quiet|intros ?].
    apply always_ret; apply _. }
  apply some_before; [|intros _].
  { destruct (bool_decide _); [apply always_ret; apply _|].
    apply always_bind; [apply _|apply print_err_silent|intros _].
    apply always_for_each; [apply _|]. intros. apply print_err_silent. }
  apply some_before; [apply silent_of_quiet, require_packages_quiet|].
  intros [cairosvg Image]. apply some_of_logs. unfold run_calls.
  apply logs_bind; [apply logs_table_loop|intros generated].
  apply logs_after; [apply logs_render_ico|].
  intros _ w r w' [= _ <-]. reflexivity.
Qed.
